(** * auto-run: the execution core of the browser-automation runner

    A shallow embedding of the TypeScript sources
    - [utils/error-handler.ts]  (error classification and smart retry),
    - [utils/logger.ts]         (the session logger),
    - [actions/validator.ts]    (structural script validation),
    - [browser/controller.ts]   ([closeBrowser]),
    - [executor/engine.ts]      ([executeScript]) and
    - [actions/parser.ts]       (the parser of script documents),
    followed by the properties of the specification that were checked
    against them.

    Conventions.
    - JavaScript numbers that the code only uses as integers (attempt
      counters, millisecond delays, step numbers, time stamps) are [Z].
    - JavaScript strings are [string]; one [ascii] is one UTF-16 code unit
      below 256 (the Latin-1 range), on which [toLowerCase] is exact.
    - [async] functions are run to completion in program order; a promise
      that the source does not await (the file write started by
      [Logger.log]) is run at the point where it is created.
    - A thrown value is kept as the string [String(error)], which is the
      only way the sources ever inspect it. *)

From Stdlib Require Import ZArith Ascii String.
From stdpp Require Import base tactics option list strings pretty gmap.

Local Open Scope Z_scope.

(* ===================================================================== *)
(** * JavaScript runtime fragments *)
(* ===================================================================== *)

Module JS.

(** How a computation completes. [OutOfFuel] only arises from the bounded
    unrolling of [while (true)]; it is never caught. *)
Inductive Res (A : Type) : Type :=
| Ok (a : A)
| Throw (e : string)
| OutOfFuel.
Arguments Ok {A} a.
Arguments Throw {A} e.
Arguments OutOfFuel {A}.

(** State and exception monad over a store [St]. *)
Definition M (St A : Type) : Type := St → Res A * St.

Definition ret {St A} (a : A) : M St A := λ σ, (Ok a, σ).

Definition bind {St A B} (c : M St A) (k : A → M St B) : M St B :=
  λ σ, match c σ with
       | (Ok a, σ') => k a σ'
       | (Throw e, σ') => (Throw e, σ')
       | (OutOfFuel, σ') => (OutOfFuel, σ')
       end.

Definition throw {St A} (e : string) : M St A := λ σ, (Throw e, σ).

Definition diverge {St A} : M St A := λ σ, (OutOfFuel, σ).

(** [try { c } catch (e) { h e }] *)
Definition try_catch {St A} (c : M St A) (h : string → M St A) : M St A :=
  λ σ, match c σ with
       | (Throw e, σ') => h e σ'
       | r => r
       end.

(** [try { c } finally { f }]: [f] runs after a value and after a throw;
    the completion of [c] is kept unless [f] itself throws. *)
Definition try_finally {St A} (c : M St A) (f : M St unit) : M St A :=
  λ σ, match c σ with
       | (OutOfFuel, σ') => (OutOfFuel, σ')
       | (r, σ') =>
           match f σ' with
           | (Ok _, σ'') => (r, σ'')
           | (Throw e, σ'') => (Throw e, σ'')
           | (OutOfFuel, σ'') => (OutOfFuel, σ'')
           end
       end.

Definition gets {St A} (f : St → A) : M St A := λ σ, (Ok (f σ), σ).
Definition modify {St} (f : St → St) : M St unit := λ σ, (Ok (), f σ).

(** [if (b) { c }] *)
Definition when {St} (b : bool) (c : M St unit) : M St unit :=
  if b then c else ret ().

(** [for (const x of xs) { await f(x) }] *)
Fixpoint for_each {St A} (xs : list A) (f : A → M St unit) : M St unit :=
  match xs with
  | [] => ret ()
  | x :: xs' => bind (f x) (λ _, for_each xs' f)
  end.

(** ** Strings *)

(** [String.prototype.toLowerCase] on one Latin-1 code unit: A–Z and the
    accented capitals U+00C0–U+00DE (without the multiplication sign
    U+00D7) move up by 32. *)
Definition toLowerCase_char (c : ascii) : ascii :=
  let n := N_of_ascii c in
  if ((65 <=? n) && (n <=? 90)
      || (192 <=? n) && (n <=? 222) && negb (n =? 215))%N
  then ascii_of_N (n + 32) else c.

Fixpoint toLowerCase (s : string) : string :=
  match s with
  | EmptyString => EmptyString
  | String c s' => String (toLowerCase_char c) (toLowerCase s')
  end.

(** [s.startsWith(p)] *)
Fixpoint startsWith (s p : string) {struct p} : bool :=
  match p with
  | EmptyString => true
  | String b p' =>
      match s with
      | EmptyString => false
      | String a s' => Ascii.eqb a b && startsWith s' p'
      end
  end.

(** [s.includes(needle)] *)
Fixpoint includes (s needle : string) : bool :=
  startsWith s needle
  || match s with
     | EmptyString => false
     | String _ s' => includes s' needle
     end.

(** Truthiness of an optional string: [undefined] and [''] are falsy. *)
Definition truthy_str (o : option string) : bool :=
  match o with
  | Some (String _ _) => true
  | _ => false
  end.

(** [o || d] for an optional string [o]. *)
Definition or_str (o : option string) (d : string) : string :=
  match o with
  | Some (String c s) => String c s
  | _ => d
  end.

(** Template-literal rendering of an integer. *)
Definition show (z : Z) : string := pretty z.

(** The line feed. *)
Definition nl : string := String (ascii_of_nat 10) EmptyString.

(** [lines.join(sep)] *)
Fixpoint join_with (sep : string) (lines : list string) : string :=
  match lines with
  | [] => EmptyString
  | [l] => l
  | l :: lines' => l +:+ sep +:+ join_with sep lines'
  end.

(** [c.repeat(n)] *)
Fixpoint repeat_string (c : string) (n : nat) : string :=
  match n with
  | O => EmptyString
  | S n' => c +:+ repeat_string c n'
  end.

(** White space of [String.prototype.trim] below 256: the controls
    TAB, LF, VT, FF, CR, the space and the no-break space. *)
Definition is_white_space (c : ascii) : bool :=
  let n := N_of_ascii c in
  ((9 <=? n) && (n <=? 13) || (n =? 32) || (n =? 160))%N.

Fixpoint trimStart (s : string) : string :=
  match s with
  | EmptyString => EmptyString
  | String c s' => if is_white_space c then trimStart s' else s
  end.

(** [trimEnd s] keeps [s] up to its last character that is not white
    space. *)
Fixpoint trimEnd (s : string) : string :=
  match s with
  | EmptyString => EmptyString
  | String c s' =>
      match trimEnd s' with
      | EmptyString => if is_white_space c then EmptyString
                       else String c EmptyString
      | rest => String c rest
      end
  end.

Definition trim (s : string) : string := trimEnd (trimStart s).

End JS.

Export JS.

Declare Scope js_scope.
Delimit Scope js_scope with js.
Notation "x <- c ;; k" := (JS.bind c (λ x, k))
  (at level 20, c at level 99, k at level 200, only parsing) : js_scope.
Notation "' p <- c ;; k" := (JS.bind c (λ x, match x with p => k end))
  (at level 20, p pattern, c at level 99, k at level 200, only parsing)
  : js_scope.
Notation "'exec' c ;; k" := (JS.bind c (λ _, k))
  (at level 20, c at level 99, k at level 200, only parsing) : js_scope.
Local Open Scope js_scope.

(* ===================================================================== *)
(** * types/index.ts *)
(* ===================================================================== *)

Module Types.

Inductive ActionType : Set :=
| navigate | click | type_ | wait | screenshot | scroll | select.

Definition ActionType_name (t : ActionType) : string :=
  match t with
  | navigate => "navigate" | click => "click" | type_ => "type"
  | wait => "wait" | screenshot => "screenshot" | scroll => "scroll"
  | select => "select"
  end.

Global Instance ActionType_eq_dec : EqDecision ActionType.
Proof. solve_decision. Defined.

(** [value?: string | number] *)
Inductive StepValue : Type :=
| VStr (s : string)
| VNum (n : Z).

Record ActionStep : Type := {
  type : ActionType;
  selector : option string;
  value : option StepValue;
  url : option string;
  timeout : option Z;
  description : option string;
}.

Record AutomationScript : Type := {
  name : string;
  script_description : option string;
  baseUrl : option string;
  steps : list ActionStep;
}.

(** [type Result<T> = Success<T> | Failure] *)
Inductive Result (T : Type) : Type :=
| success (data : T)
| failure (error : string).
Arguments success {T} data.
Arguments failure {T} error.

Definition is_success {T} (r : Result T) : bool :=
  match r with success _ => true | failure _ => false end.

End Types.

Export Types.

(* ===================================================================== *)
(** * config/index.ts: the fields of [AutoConfig] read by the core *)
(* ===================================================================== *)

Module Config.

Record ViewPort : Type := { width : Z; height : Z }.

Record BrowserConfig : Type := {
  browser_type : string;
  headless : bool;
  viewport : ViewPort;
  slowMo : Z;
  browser_timeout : Z;
}.

Record ActionsConfig : Type := {
  waitBetweenActions : Z;
  retryAttempts : Z;
  screenshotOnError : bool;
}.

Record LoggingConfig : Type := {
  level : string;
  outputDir : string;
  saveScreenshots : bool;
  verbose : bool;
}.

Record AutoConfig : Type := {
  browser : BrowserConfig;
  actions : ActionsConfig;
  logging : LoggingConfig;
}.

End Config.

(* ===================================================================== *)
(** * utils/error-handler.ts *)
(* ===================================================================== *)

Module ErrorHandler.

Inductive ErrorType : Set :=
| NETWORK_ERROR
| TIMEOUT_ERROR
| ELEMENT_NOT_FOUND
| ELEMENT_NOT_VISIBLE
| ELEMENT_NOT_CLICKABLE
| NAVIGATION_ERROR
| SCREENSHOT_ERROR
| VALIDATION_ERROR
| BROWSER_ERROR
| UNKNOWN_ERROR.

Global Instance ErrorType_eq_dec : EqDecision ErrorType.
Proof. solve_decision. Defined.

(** The string value of each enum member. *)
Definition ErrorType_value (t : ErrorType) : string :=
  match t with
  | NETWORK_ERROR => "network_error"
  | TIMEOUT_ERROR => "timeout_error"
  | ELEMENT_NOT_FOUND => "element_not_found"
  | ELEMENT_NOT_VISIBLE => "element_not_visible"
  | ELEMENT_NOT_CLICKABLE => "element_not_clickable"
  | NAVIGATION_ERROR => "navigation_error"
  | SCREENSHOT_ERROR => "screenshot_error"
  | VALIDATION_ERROR => "validation_error"
  | BROWSER_ERROR => "browser_error"
  | UNKNOWN_ERROR => "unknown_error"
  end.

Inductive Backoff : Set := fixed | exponential | linear.

(** What the retry executor prints with [console.log] when
    [config.logging.verbose] is set; the text is produced by the sink. *)
Inductive RetryNotice : Type :=
| SucceededOnAttempt (stepNumber : option Z) (attempt : Z)
| FailedAttempt (stepNumber : option Z) (attempt maxAttempts : Z)
                (message : string)
| RecoveryActionFailed (recoveryError : string)
| RetryingIn (delay : Z).

Section WithStore.

(** The store on which the wrapped operation, the recovery actions,
    [console.log] and [setTimeout] act. *)
Context {St : Type}.

Record RetryStrategy : Type := {
  maxAttempts : Z;
  delay : Z;
  backoff : Backoff;
  recoveryActions : option (list (M St unit));
}.

Record ErrorContext : Type := {
  ctx_step : option ActionStep;
  ctx_stepNumber : option Z;
  ctx_selector : option string;
  ctx_url : option string;
}.

Record ClassifiedError : Type := {
  type : ErrorType;
  originalError : string;
  message : string;
  isRetryable : bool;
  strategy : option RetryStrategy;
  context : option ErrorContext;
}.

Definition DEFAULT_RETRY_STRATEGIES (t : ErrorType) : RetryStrategy :=
  match t with
  | NETWORK_ERROR =>
      {| maxAttempts := 5; delay := 2000; backoff := exponential;
         recoveryActions := None |}
  | TIMEOUT_ERROR =>
      {| maxAttempts := 3; delay := 3000; backoff := linear;
         recoveryActions := None |}
  | ELEMENT_NOT_FOUND =>
      {| maxAttempts := 4; delay := 1500; backoff := fixed;
         recoveryActions := None |}
  | ELEMENT_NOT_VISIBLE =>
      {| maxAttempts := 3; delay := 1000; backoff := fixed;
         recoveryActions := None |}
  | ELEMENT_NOT_CLICKABLE =>
      {| maxAttempts := 3; delay := 1000; backoff := fixed;
         recoveryActions := None |}
  | NAVIGATION_ERROR =>
      {| maxAttempts := 3; delay := 2000; backoff := exponential;
         recoveryActions := None |}
  | SCREENSHOT_ERROR =>
      {| maxAttempts := 2; delay := 500; backoff := fixed;
         recoveryActions := None |}
  | VALIDATION_ERROR =>
      {| maxAttempts := 1; delay := 0; backoff := fixed;
         recoveryActions := None |}
  | BROWSER_ERROR =>
      {| maxAttempts := 2; delay := 3000; backoff := fixed;
         recoveryActions := None |}
  | UNKNOWN_ERROR =>
      {| maxAttempts := 2; delay := 1000; backoff := fixed;
         recoveryActions := None |}
  end.

(** [step?.selector] and [step?.url] *)
Definition step_selector (step : option ActionStep) : option string :=
  s ← step; Types.selector s.
Definition step_url (step : option ActionStep) : option string :=
  s ← step; Types.url s.

Definition classifyError (error : string) (step : option ActionStep)
    (stepNumber : option Z) : ClassifiedError :=
  let lowerError := toLowerCase error in
  (* Network-related errors *)
  if includes lowerError "net::"
     || includes lowerError "network"
     || includes lowerError "connection"
     || includes lowerError "dns"
     || includes lowerError "refused"
  then
    {| type := NETWORK_ERROR;
       originalError := error;
       message := "Network connection issue detected";
       isRetryable := true;
       strategy := Some (DEFAULT_RETRY_STRATEGIES NETWORK_ERROR);
       context := Some {| ctx_step := step; ctx_stepNumber := stepNumber;
                          ctx_selector := None; ctx_url := None |} |}
  (* Timeout errors *)
  else if includes lowerError "timeout"
          || includes lowerError "timed out"
          || includes lowerError "waiting for"
  then
    {| type := TIMEOUT_ERROR;
       originalError := error;
       message := "Operation timed out";
       isRetryable := true;
       strategy := Some (DEFAULT_RETRY_STRATEGIES TIMEOUT_ERROR);
       context := Some {| ctx_step := step; ctx_stepNumber := stepNumber;
                          ctx_selector := step_selector step;
                          ctx_url := None |} |}
  (* Element not found *)
  else if includes lowerError "no element"
          || includes lowerError "not found"
          || includes lowerError "cannot find"
          || includes lowerError "element not found"
  then
    {| type := ELEMENT_NOT_FOUND;
       originalError := error;
       message := "Element not found: "
                  +:+ or_str (step_selector step) "unknown selector";
       isRetryable := true;
       strategy := Some (DEFAULT_RETRY_STRATEGIES ELEMENT_NOT_FOUND);
       context := Some {| ctx_step := step; ctx_stepNumber := stepNumber;
                          ctx_selector := step_selector step;
                          ctx_url := None |} |}
  (* Element not visible *)
  else if includes lowerError "not visible"
          || includes lowerError "hidden"
          || includes lowerError "not displayed"
  then
    {| type := ELEMENT_NOT_VISIBLE;
       originalError := error;
       message := "Element not visible: "
                  +:+ or_str (step_selector step) "unknown selector";
       isRetryable := true;
       strategy := Some (DEFAULT_RETRY_STRATEGIES ELEMENT_NOT_VISIBLE);
       context := Some {| ctx_step := step; ctx_stepNumber := stepNumber;
                          ctx_selector := step_selector step;
                          ctx_url := None |} |}
  (* Element not clickable *)
  else if includes lowerError "not clickable"
          || includes lowerError "not interactable"
          || includes lowerError "element click intercepted"
  then
    {| type := ELEMENT_NOT_CLICKABLE;
       originalError := error;
       message := "Element not clickable: "
                  +:+ or_str (step_selector step) "unknown selector";
       isRetryable := true;
       strategy := Some (DEFAULT_RETRY_STRATEGIES ELEMENT_NOT_CLICKABLE);
       context := Some {| ctx_step := step; ctx_stepNumber := stepNumber;
                          ctx_selector := step_selector step;
                          ctx_url := None |} |}
  (* Navigation errors *)
  else if includes lowerError "navigation"
          || includes lowerError "page crashed"
          || includes lowerError "page.goto"
  then
    {| type := NAVIGATION_ERROR;
       originalError := error;
       message := "Navigation failed: "
                  +:+ or_str (step_url step) "unknown URL";
       isRetryable := true;
       strategy := Some (DEFAULT_RETRY_STRATEGIES NAVIGATION_ERROR);
       context := Some {| ctx_step := step; ctx_stepNumber := stepNumber;
                          ctx_selector := None;
                          ctx_url := step_url step |} |}
  (* Screenshot errors *)
  else if includes lowerError "screenshot"
  then
    {| type := SCREENSHOT_ERROR;
       originalError := error;
       message := "Screenshot capture failed";
       isRetryable := true;
       strategy := Some (DEFAULT_RETRY_STRATEGIES SCREENSHOT_ERROR);
       context := Some {| ctx_step := step; ctx_stepNumber := stepNumber;
                          ctx_selector := None; ctx_url := None |} |}
  (* Validation errors *)
  else if includes lowerError "validation"
          || includes lowerError "invalid"
  then
    {| type := VALIDATION_ERROR;
       originalError := error;
       message := "Script validation failed";
       isRetryable := false;
       strategy := Some (DEFAULT_RETRY_STRATEGIES VALIDATION_ERROR);
       context := Some {| ctx_step := step; ctx_stepNumber := stepNumber;
                          ctx_selector := None; ctx_url := None |} |}
  (* Browser errors *)
  else if includes lowerError "browser"
          || includes lowerError "context"
          || includes lowerError "playwright"
  then
    {| type := BROWSER_ERROR;
       originalError := error;
       message := "Browser operation failed";
       isRetryable := true;
       strategy := Some (DEFAULT_RETRY_STRATEGIES BROWSER_ERROR);
       context := Some {| ctx_step := step; ctx_stepNumber := stepNumber;
                          ctx_selector := None; ctx_url := None |} |}
  (* Unknown error *)
  else
    {| type := UNKNOWN_ERROR;
       originalError := error;
       message := "Unknown error: " +:+ error;
       isRetryable := true;
       strategy := Some (DEFAULT_RETRY_STRATEGIES UNKNOWN_ERROR);
       context := Some {| ctx_step := step; ctx_stepNumber := stepNumber;
                          ctx_selector := None; ctx_url := None |} |}.

(** [Math.pow(2, attempt - 1)] is an integer for [attempt >= 1], the
    only values the retry loop produces; there it is [2 ^ (attempt - 1)]
    on [Z]. *)
Definition calculateRetryDelay (strategy : RetryStrategy) (attempt : Z)
    : Z :=
  match backoff strategy with
  | exponential => delay strategy * 2 ^ (attempt - 1)
  | linear => delay strategy * attempt
  | fixed => delay strategy
  end.

(** The ambient effects of the retry executor; neither throws. *)
Record RetryEnv : Type := {
  console_log : RetryNotice → St → St;
  (** [await new Promise(resolve => setTimeout(resolve, delay))] *)
  sleep : Z → St → St;
}.

(** How one pass through the body of [while (true)] ends: by [return],
    by [break], or by falling through to [attempt++]. *)
Inductive BodyExit (T : Type) : Type :=
| Return (result : Result T)
| Break (lastError : option ClassifiedError)
| Next (lastError : option ClassifiedError).
Arguments Return {T} result.
Arguments Break {T} lastError.
Arguments Next {T} lastError.

(** How the loop is left. *)
Inductive LoopExit (T : Type) : Type :=
| Returned (result : Result T)
| Broke (lastError : option ClassifiedError) (attempt : Z).
Arguments Returned {T} result.
Arguments Broke {T} lastError attempt.

Section Retry.
Context {T : Type} (env : RetryEnv) (operation : M St (Result T))
        (config : Config.AutoConfig) (step : option ActionStep)
        (stepNumber : option Z).

Definition is_verbose : bool := Config.verbose (Config.logging config).

(** The [try { ... } catch (unexpectedError) { ... }] inside the loop. *)
Definition loop_body (attempt : Z) : M St (BodyExit T) :=
  try_catch
    (result <- operation ;;
     match result with
     | success data =>
         (* Log successful retry if this wasn't the first attempt *)
         exec when ((1 <? attempt) && is_verbose)
                (modify (console_log env
                           (SucceededOnAttempt stepNumber attempt))) ;;
         ret (Return (success data))
     | failure error =>
         (* Classify the error *)
         let classifiedError := classifyError error step stepNumber in
         (* Check if error is retryable and we haven't exceeded max
            attempts *)
         let strategy' :=
           match strategy classifiedError with
           | Some s => s
           | None => DEFAULT_RETRY_STRATEGIES (type classifiedError)
           end in
         let maxAttempts' :=
           Z.min (maxAttempts strategy')
                 (Config.retryAttempts (Config.actions config)) in
         if negb (isRetryable classifiedError) || (maxAttempts' <=? attempt)
         then ret (Break (Some classifiedError))
         else
           (* Log retry attempt *)
           exec when is_verbose
                  (modify (console_log env
                             (FailedAttempt stepNumber attempt maxAttempts'
                                (message classifiedError)))) ;;
           (* Execute recovery actions if any *)
           exec match recoveryActions strategy' with
                | Some actions =>
                    try_catch (for_each actions (λ recoveryAction,
                                                   recoveryAction))
                      (λ recoveryError,
                         when is_verbose
                           (modify (console_log env
                                      (RecoveryActionFailed recoveryError))))
                | None => ret ()
                end ;;
           (* Calculate and wait for retry delay *)
           let delay' := calculateRetryDelay strategy' attempt in
           exec when (is_verbose && (0 <? delay'))
                  (modify (console_log env (RetryingIn delay'))) ;;
           exec when (0 <? delay') (modify (sleep env delay')) ;;
           ret (Next (Some classifiedError))
     end)
    (λ unexpectedError,
       (* Handle unexpected errors *)
       ret (Break (Some (classifyError unexpectedError step stepNumber)))).

(** [while (true)], unrolled at most [fuel] times. *)
Fixpoint retry_loop (fuel : nat) (attempt : Z) : M St (LoopExit T) :=
  match fuel with
  | O => diverge
  | S fuel' =>
      exit <- loop_body attempt ;;
      match exit with
      | Return result => ret (Returned result)
      | Break lastError => ret (Broke lastError attempt)
      | Next _ => retry_loop fuel' (attempt + 1)
      end
  end.

(** No strategy of the table allows more than five attempts, so five
    passes through the loop are always enough: the loop then never runs
    out of fuel (lemma [executeWithSmartRetry_terminates]). *)
Definition retry_fuel : nat := 5.

Definition executeWithSmartRetry : M St (Result T) :=
  exit <- retry_loop retry_fuel 1 ;;
  match exit with
  | Returned result => ret result
  | Broke lastError attempt =>
      (* All retries failed *)
      let finalMessage :=
        match lastError with
        | Some lastError =>
            message lastError +:+ " ("
            +:+ ErrorType_value (type lastError)
            +:+ ", attempted " +:+ show attempt +:+ " times)"
        | None => "Operation failed with unknown error"
        end in
      ret (failure finalMessage)
  end.

End Retry.

(** Check if error indicates a critical failure that should stop
    execution *)
Definition isCriticalError (error : ClassifiedError) : bool :=
  bool_decide (type error = VALIDATION_ERROR)
  || bool_decide (type error = BROWSER_ERROR)
  || (negb (isRetryable error)
      && negb (bool_decide (type error = SCREENSHOT_ERROR))).

(** Generate error report for logging *)
Definition group_by_type (errors : list ClassifiedError)
    : list (ErrorType * list ClassifiedError) :=
  fold_left
    (λ acc error,
       if existsb (λ g, bool_decide (g.1 = type error)) acc
       then (λ g : ErrorType * list ClassifiedError,
               if bool_decide (g.1 = type error)
               then (g.1, g.2 ++ [error]) else g) <$> acc
       else acc ++ [(type error, [error])])
    errors [].

Definition has_errors_of (t : ErrorType)
    (groups : list (ErrorType * list ClassifiedError)) : bool :=
  existsb (λ g, bool_decide (g.1 = t)
                && bool_decide (g.2 ≠ [])) groups.

Definition error_line (index : nat) (error : ClassifiedError) : string :=
  "  " +:+ show (Z.of_nat index + 1) +:+ ". Step "
  +:+ match context error ≫= ctx_stepNumber with
      | Some n => if n =? 0 then "unknown" else show n
      | None => "unknown"
      end
  +:+ ": " +:+ message error.

Definition generateErrorReport (errors : list ClassifiedError)
    (executionTime : Z) : string :=
  let errorsByType := group_by_type errors in
  join_with nl
    ([ repeat_string "=" 60;
       "ERROR ANALYSIS REPORT";
       repeat_string "=" 60;
       "Total Errors: " +:+ show (Z.of_nat (length errors));
       "Execution Time: " +:+ show executionTime +:+ "ms";
       "";
       "ERRORS BY TYPE:";
       repeat_string "-" 40 ]
     ++ concat
          ((λ g : ErrorType * list ClassifiedError,
              (ErrorType_value g.1 +:+ ": "
               +:+ show (Z.of_nat (length g.2)) +:+ " occurrences")
              :: imap error_line g.2 ++ [""]) <$> errorsByType)
     ++ [ "RECOMMENDATIONS:"; repeat_string "-" 40 ]
     ++ (if has_errors_of NETWORK_ERROR errorsByType
         then ["• Check network connectivity and target website availability"]
         else [])
     ++ (if has_errors_of TIMEOUT_ERROR errorsByType
         then ["• Consider increasing timeout values for slow-loading elements"]
         else [])
     ++ (if has_errors_of ELEMENT_NOT_FOUND errorsByType
         then ["• Verify element selectors are correct and elements exist"]
         else [])
     ++ (if has_errors_of ELEMENT_NOT_VISIBLE errorsByType
         then ["• Check if elements are hidden or need scrolling to become visible"]
         else [])
     ++ [ repeat_string "=" 60 ]).

End WithStore.

Arguments RetryStrategy : clear implicits.
Arguments ClassifiedError : clear implicits.
Arguments RetryEnv : clear implicits.
Arguments BodyExit : clear implicits.
Arguments LoopExit : clear implicits.
Arguments Return {St T} result.
Arguments Break {St T} lastError.
Arguments Next {St T} lastError.
Arguments Returned {St T} result.
Arguments Broke {St T} lastError attempt.

End ErrorHandler.

(* ===================================================================== *)
(** * utils/logger.ts: data *)
(* ===================================================================== *)

Module LoggerTypes.

(** [enum LogLevel { DEBUG = 0, INFO = 1, WARN = 2, ERROR = 3 }] *)
Inductive LogLevel : Set := DEBUG | INFO | WARN | ERROR.

Global Instance LogLevel_eq_dec : EqDecision LogLevel.
Proof. solve_decision. Defined.

(** The numeric value of a member. *)
Definition LogLevel_value (l : LogLevel) : Z :=
  match l with DEBUG => 0 | INFO => 1 | WARN => 2 | ERROR => 3 end.

(** The reverse mapping [LogLevel[level]]. *)
Definition LogLevel_name (l : LogLevel) : string :=
  match l with
  | DEBUG => "DEBUG" | INFO => "INFO" | WARN => "WARN" | ERROR => "ERROR"
  end.

(** Values passed as [data?: any]. *)
#[local] Unset Elimination Schemes.
Inductive JsValue : Type :=
| JUndefined
| JNull
| JBool (b : bool)
| JNumber (n : Z)
| JString (s : string)
| JArray (items : list JsValue)
| JObject (fields : list (string * JsValue)).
#[local] Set Elimination Schemes.

Definition js_truthy (v : JsValue) : bool :=
  match v with
  | JUndefined | JNull => false
  | JBool b => b
  | JNumber n => negb (n =? 0)
  | JString s => match s with EmptyString => false | _ => true end
  | JArray _ | JObject _ => true
  end.

Definition js_opt_string (o : option string) : JsValue :=
  match o with Some s => JString s | None => JUndefined end.
Definition js_opt_number (o : option Z) : JsValue :=
  match o with Some n => JNumber n | None => JUndefined end.

(** [{...a, ...b}] on field lists: a key of [b] that [a] already has keeps
    its place and takes the new value, the others are appended. *)
Fixpoint js_set_field (fields : list (string * JsValue)) (k : string)
    (v : JsValue) : list (string * JsValue) :=
  match fields with
  | [] => [(k, v)]
  | (k', v') :: fields' =>
      if String.eqb k' k then (k', v) :: fields'
      else (k', v') :: js_set_field fields' k v
  end.
Definition js_spread (a b : list (string * JsValue))
    : list (string * JsValue) :=
  fold_left (λ acc kv, js_set_field acc kv.1 kv.2) b a.

Inductive ScreenshotType : Set := shot_success | shot_error | shot_debug.

Record ScreenshotInfo : Type := {
  filename : string;
  path : string;
  shot_timestamp : Z;
  shot_step : option Z;
  shot_type : ScreenshotType;
  size : Z;
}.

(** The value returned by [getSessionSummary]. *)
Record SessionSummary : Type := {
  sum_sessionId : string;
  totalLogs : nat;
  logsByLevel : gmap string nat;
  sum_screenshots : list ScreenshotInfo;
  sum_duration : Z;
  sum_logFilePath : string;
}.

(** What [data] holds in the entries the logger builds. *)
Inductive LogData : Type :=
| DataJs (v : JsValue)
| DataScreenshot (info : ScreenshotInfo)
| DataSummary (summary : SessionSummary).

Definition data_truthy (d : option LogData) : bool :=
  match d with
  | None => false
  | Some (DataJs v) => js_truthy v
  | Some _ => true
  end.

Record LogEntry : Type := {
  timestamp : Z;
  level : LogLevel;
  category : string;
  message : string;
  data : option LogData;
  step : option Z;
  duration : option Z;
  screenshot : option string;
}.

Inductive LogFormat : Set := format_json | format_text | format_structured.

Record LoggerConfig : Type := {
  cfg_level : LogLevel;
  cfg_outputDir : string;
  enableFileLogging : bool;
  enableConsoleLogging : bool;
  format : LogFormat;
  maxFileSize : Z;
  maxFiles : Z;
  includeTimestamp : bool;
  includeStackTrace : bool;
}.

(** [class Logger]: the private fields. *)
Record Logger : Type := {
  config : LoggerConfig;
  logBuffer : list LogEntry;
  sessionId : string;
  logFilePath : string;
  screenshots : list ScreenshotInfo;
}.

(** One row of the CSV export: the six quoted fields. *)
Record CsvRow : Type := {
  csv_timestamp : Z;
  csv_level : string;
  csv_category : string;
  csv_step : string;
  csv_message : string;
  csv_duration : string;
}.

(** What [exportLogs] writes. *)
Inductive ExportData : Type :=
| ExportJson (sessionId : string) (summary : SessionSummary)
             (logs timeline : list LogEntry)
| ExportCsv (rows : list CsvRow).

End LoggerTypes.

Export LoggerTypes.

(* ===================================================================== *)
(** * The host: console, file system, clock, timers and the browser *)
(* ===================================================================== *)

Module Host.

(** [interface BrowserController] of browser/controller.ts; a browser,
    context or page object is a handle of the browser driver. *)
Definition Handle : Type := Z.

Record BrowserController : Type := {
  browser : option Handle;
  context : option Handle;
  page : option Handle;
}.

(** How a call into the host completes. *)
Inductive Completion (A : Type) : Type :=
| Returns (a : A)
| Throws (e : string).
Arguments Returns {A} a.
Arguments Throws {A} e.

Inductive ConsoleMethod : Set := to_log | to_warn | to_error.

(** What is handed to the console; the text is produced by the sink. *)
Inductive ConsoleOutput : Type :=
| OutEntry (entry : LogEntry)           (* the formatted line of an entry *)
| OutData (data : LogData)              (* [JSON.stringify(entry.data)] *)
| OutText (text : string) (error : string)
| OutRetry (notice : ErrorHandler.RetryNotice).

(** What is written to a file. *)
Inductive FileContent : Type :=
| FileEntry (format : LogFormat) (entry : LogEntry)
| FileExport (data : ExportData).

Inductive CloseTarget : Set := close_page | close_context | close_browser.

(** A call issued by the program, with the way it completed where the
    program can observe it. [EvCall] and [EvStepResult] mark points of the
    program itself: the entry into a function and the value returned by
    the retry executor for a step. *)
Inductive Event : Type :=
| EvConsole (method : ConsoleMethod) (output : ConsoleOutput)
| EvMkdir (path : string)
| EvWriteFile (path : string) (content : FileContent) (append : bool)
| EvStat (path : string)
| EvRotateLogIfNeeded (path : string)
| EvSetTimeout (ms : Z)
| EvInitializeBrowser (outcome : Completion (Result BrowserController))
| EvExecuteActionStep (step : ActionStep) (stepNumber : Z)
| EvTakeScreenshot (filename : string) (stepNumber : Z)
                   (outcome : Completion (Result string))
| EvClose (target : CloseTarget) (thrown : option string)
| EvCall (function : string)
| EvStepResult (stepNumber : Z) (result : Result (option string)).

(** A call of a collaborator on the session logger. *)
Inductive Emission : Type :=
| Emit_debug (message : string) (data : option JsValue) (step : option Z)
| Emit_info (message : string) (data : option JsValue) (step : option Z)
| Emit_warn (message : string) (data : option JsValue) (step : option Z)
| Emit_error (message : string) (data : option JsValue) (step : option Z)
| Emit_browser (action message : string) (data : option JsValue)
| Emit_screenshot (screenshotPath : string) (step : option Z)
                  (type : ScreenshotType).

Section WithWorld.
Context {World : Type}.

(** The store of a run: the state of the host and the calls issued so
    far. *)
Record Sys : Type := { world : World; trace : list Event }.

(** The host. Every function is deterministic in the state of the world;
    a collaborator of browser/controller.ts also reports the calls it
    makes on the logger it was given. *)
Record Env : Type := {
  (** [Date.now()], [new Date()] *)
  Date_now : World → Z * World;
  (** [Logger.generateSessionId]: the time stamp and six random digits *)
  generateSessionId : World → string * World;
  (** [path.join] *)
  join : string → string → string;
  (** [new URL(url)] does not throw *)
  URL_parses : string → bool;
  existsSync : string → World → bool;
  mkdir : string → World → Completion unit * World;
  writeFile : string → FileContent → bool → World → Completion unit * World;
  (** [(await stat(path)).size] *)
  stat_size : string → World → Completion Z * World;
  (** [Logger.rotateLogIfNeeded], which swallows every error *)
  rotateLogIfNeeded : string → Z → Z → World → World;
  setTimeout : Z → World → World;
  initializeBrowser :
    Config.AutoConfig → World →
    Completion (Result BrowserController) * list Emission * World;
  (** the page is [browserController!.page!], unchecked at run time *)
  executeActionStep :
    option Handle → ActionStep → Config.AutoConfig → Z → World →
    Completion (Result (option string)) * list Emission * World;
  takeScreenshot :
    Handle → Config.AutoConfig → string → Z → World →
    Completion (Result string) * list Emission * World;
  (** [page.close()], [context.close()], [browser.close()] *)
  close : CloseTarget → Handle → World → option string * World;
}.

Definition record (ev : Event) : M Sys unit :=
  modify (λ σ, {| world := world σ; trace := trace σ ++ [ev] |}).

(** A call that returns. *)
Definition ask {A} (f : World → A * World) : M Sys A :=
  λ σ, let '(a, w) := f (world σ) in
       (Ok a, {| world := w; trace := trace σ |}).

(** A call that returns or throws. *)
Definition attempt {A} (f : World → Completion A * World) : M Sys A :=
  λ σ, let '(c, w) := f (world σ) in
       (match c with Returns a => Ok a | Throws e => Throw e end,
        {| world := w; trace := trace σ |}).

Definition console (method : ConsoleMethod) (output : ConsoleOutput)
    : M Sys unit :=
  record (EvConsole method output).

End WithWorld.

Arguments Sys : clear implicits.
Arguments Env : clear implicits.

End Host.

Export Host.

(* ===================================================================== *)
(** * utils/logger.ts: the class [Logger] *)
(* ===================================================================== *)

Module Logger.

Definition levelMap : gmap string LogLevel :=
  {[ "debug" := DEBUG; "info" := INFO; "warn" := WARN; "error" := ERROR ]}.

(** [levelMap[autoConfig.logging.level] || LogLevel.INFO]: a missing key
    and the value 0 of [DEBUG] are both falsy. *)
Definition createLoggerConfig (autoConfig : Config.AutoConfig)
    : LoggerConfig :=
  {| cfg_level :=
       match levelMap !! Config.level (Config.logging autoConfig) with
       | Some l => if LogLevel_value l =? 0 then INFO else l
       | None => INFO
       end;
     cfg_outputDir := Config.outputDir (Config.logging autoConfig);
     enableFileLogging := true;
     enableConsoleLogging := true;
     format := format_structured;
     maxFileSize := 50;
     maxFiles := 10;
     includeTimestamp := true;
     includeStackTrace :=
       String.eqb (Config.level (Config.logging autoConfig)) "debug" |}.

(** [s.split('/').pop()]: what follows the last slash. *)
Fixpoint last_segment (s : string) (acc : string) : string :=
  match s with
  | EmptyString => acc
  | String c s' =>
      if Ascii.eqb c "/" then last_segment s' EmptyString
      else last_segment s' (acc +:+ String c EmptyString)
  end.

(** [entry.step || ''] and [entry.duration || '']: [undefined] and 0 give
    the empty string. *)
Definition show_or_empty (o : option Z) : string :=
  match o with
  | Some n => if n =? 0 then "" else show n
  | None => ""
  end.

(** The CSV escaping of a message: every double quote is doubled. *)
Fixpoint escape_quotes (s : string) : string :=
  match s with
  | EmptyString => EmptyString
  | String c s' =>
      if Ascii.eqb c (ascii_of_nat 34)
      then String c (String c (escape_quotes s'))
      else String c (escape_quotes s')
  end.

(** A stable sort of entries by time stamp
    ([sort((a, b) => a.timestamp.getTime() - b.timestamp.getTime())]). *)
Fixpoint insert_by_timestamp (e : LogEntry) (l : list LogEntry)
    : list LogEntry :=
  match l with
  | [] => [e]
  | x :: l' =>
      if timestamp e <=? timestamp x then e :: x :: l'
      else x :: insert_by_timestamp e l'
  end.
Definition sort_by_timestamp (l : list LogEntry) : list LogEntry :=
  foldr insert_by_timestamp [] l.

Definition getSessionSummary (self : Logger) : SessionSummary :=
  let logsByLevel :=
    fold_left
      (λ (acc : gmap string nat) entry,
         let levelName := LogLevel_name (level entry) in
         <[ levelName := (default 0%nat (acc !! levelName) + 1)%nat ]> acc)
      (logBuffer self) ∅ in
  let firstLog := head (logBuffer self) in
  let lastLog := last (logBuffer self) in
  let duration :=
    match firstLog, lastLog with
    | Some firstLog, Some lastLog => timestamp lastLog - timestamp firstLog
    | _, _ => 0
    end in
  {| sum_sessionId := sessionId self;
     totalLogs := length (logBuffer self);
     logsByLevel := logsByLevel;
     sum_screenshots := screenshots self;
     sum_duration := duration;
     sum_logFilePath := logFilePath self |}.

Definition getExecutionTimeline (self : Logger) : list LogEntry :=
  sort_by_timestamp
    (filter (λ entry, startsWith (category entry) "step-" = true
                      ∨ category entry = "browser")
            (logBuffer self)).

Definition csvRow (entry : LogEntry) : CsvRow :=
  {| csv_timestamp := timestamp entry;
     csv_level := LogLevel_name (level entry);
     csv_category := category entry;
     csv_step := show_or_empty (step entry);
     csv_message := escape_quotes (message entry);
     csv_duration := show_or_empty (duration entry) |}.

Section WithWorld.
Context {World : Type} (env : Env World).

#[local] Abbreviation Sys := (Sys World).

(** [new Logger(autoConfig)] ends with [this.ensureOutputDir()], whose
    promise is dropped. *)
Definition ensureOutputDir (config : LoggerConfig) : M Sys unit :=
  try_catch
    (missing <- gets (λ σ, negb (existsSync env (cfg_outputDir config)
                                   (world σ))) ;;
     exec when missing
            (exec record (EvMkdir (cfg_outputDir config)) ;;
             attempt (mkdir env (cfg_outputDir config))) ;;
     (* Create subdirectories *)
     let screenshotDir := join env (cfg_outputDir config) "screenshots" in
     missing <- gets (λ σ, negb (existsSync env screenshotDir (world σ))) ;;
     when missing
       (exec record (EvMkdir screenshotDir) ;;
        attempt (mkdir env screenshotDir)))
    (λ error,
       console to_error (OutText "Failed to create output directory:" error)).

Definition new_Logger (autoConfig : Config.AutoConfig) : M Sys Logger :=
  sessionId <- ask (generateSessionId env) ;;
  let config := createLoggerConfig autoConfig in
  let logFilePath :=
    join env (cfg_outputDir config)
         ("execution-" +:+ sessionId +:+ ".log") in
  (* Ensure output directory exists *)
  exec ensureOutputDir config ;;
  ret {| config := config; logBuffer := []; sessionId := sessionId;
         logFilePath := logFilePath; screenshots := [] |}.

Definition writeToConsole (self : Logger) (entry : LogEntry) : M Sys unit :=
  match level entry with
  | ERROR =>
      exec console to_error (OutEntry entry) ;;
      match data entry with
      | Some d =>
          when (data_truthy (data entry)
                && includeStackTrace (config self))
               (console to_error (OutData d))
      | None => ret ()
      end
  | WARN => console to_warn (OutEntry entry)
  | _ =>
      exec console to_log (OutEntry entry) ;;
      match data entry with
      | Some d =>
          when (data_truthy (data entry)
                && bool_decide (level entry = DEBUG))
               (console to_log (OutData d))
      | None => ret ()
      end
  end.

Definition writeToFile (self : Logger) (entry : LogEntry) : M Sys unit :=
  try_catch
    (let formattedEntry := FileEntry (format (config self)) entry in
     exec record (EvWriteFile (logFilePath self) formattedEntry true) ;;
     exec attempt (writeFile env (logFilePath self) formattedEntry true) ;;
     (* Check file size and rotate if necessary *)
     exec record (EvRotateLogIfNeeded (logFilePath self)) ;;
     ask (λ w, ((), rotateLogIfNeeded env (logFilePath self)
                      (maxFileSize (config self)) (maxFiles (config self))
                      w)))
    (λ error, console to_error (OutText "Failed to write to log file:" error)).

(** Main logging method *)
Definition log (level : LogLevel) (category message : string)
    (data : option LogData) (step duration : option Z) (self : Logger)
    : M Sys Logger :=
  (* Check if log level is enabled *)
  if LogLevel_value level <? LogLevel_value (cfg_level (config self))
  then ret self
  else
    now <- ask (Date_now env) ;;
    let entry :=
      {| timestamp := now; level := level; category := category;
         message := message; data := data; step := step;
         duration := duration; screenshot := None |} in
    (* Add to buffer *)
    let self := {| config := config self;
                   logBuffer := logBuffer self ++ [entry];
                   sessionId := sessionId self;
                   logFilePath := logFilePath self;
                   screenshots := screenshots self |} in
    (* Console logging *)
    exec when (enableConsoleLogging (config self))
           (writeToConsole self entry) ;;
    (* File logging (async, non-blocking) *)
    exec when (enableFileLogging (config self))
           (try_catch (writeToFile self entry)
              (λ error,
                 console to_error
                   (OutText "Failed to write log to file:" error))) ;;
    ret self.

Definition js_data (data : option JsValue) : option LogData :=
  DataJs <$> data.

Definition debug (message : string) (data : option JsValue)
    (step : option Z) : Logger → M Sys Logger :=
  log DEBUG "debug" message (js_data data) step None.

Definition info (message : string) (data : option JsValue)
    (step : option Z) : Logger → M Sys Logger :=
  log INFO "info" message (js_data data) step None.

Definition warn (message : string) (data : option JsValue)
    (step : option Z) : Logger → M Sys Logger :=
  log WARN "warn" message (js_data data) step None.

Definition error (message : string) (data : option JsValue)
    (step : option Z) : Logger → M Sys Logger :=
  log ERROR "error" message (js_data data) step None.

(** Log step execution *)
Definition step (stepNumber : Z) (action message : string)
    (duration : option Z) (success : bool) : Logger → M Sys Logger :=
  let level := if success then INFO else ERROR in
  let category := "step-" +:+ action in
  log level category message
      (Some (DataJs (JObject [("stepNumber", JNumber stepNumber);
                              ("action", JString action);
                              ("success", JBool success)])))
      (Some stepNumber) duration.

(** Log browser action: the data is [{action, ...data}]. *)
Definition browser (action message : string)
    (data : list (string * JsValue)) : Logger → M Sys Logger :=
  log INFO "browser" message
      (Some (DataJs (JObject (js_spread [("action", JString action)] data))))
      None None.

(** Log validation result *)
Definition validation (message : string) (errors : option (list JsValue))
    (warnings : option (list string)) : Logger → M Sys Logger :=
  let level :=
    if match errors with Some (_ :: _) => true | _ => false end then ERROR
    else if match warnings with Some (_ :: _) => true | _ => false end
         then WARN
         else INFO in
  log level "validation" message
      (Some (DataJs (JObject
         [("errors", match errors with
                     | Some es => JArray es | None => JUndefined end);
          ("warnings", match warnings with
                       | Some ws => JArray (JString <$> ws)
                       | None => JUndefined end)])))
      None None.

(** Log screenshot capture *)
Definition screenshot (screenshotPath : string) (step : option Z)
    (type : ScreenshotType) (self : Logger) : M Sys Logger :=
  try_catch
    (exec record (EvStat screenshotPath) ;;
     size <- attempt (stat_size env screenshotPath) ;;
     now <- ask (Date_now env) ;;
     let screenshotInfo :=
       {| filename :=
            match last_segment screenshotPath "" with
            | EmptyString => "unknown"
            | name => name
            end;
          path := screenshotPath;
          shot_timestamp := now;
          shot_step := step;
          shot_type := type;
          size := size |} in
     let self := {| config := config self;
                    logBuffer := logBuffer self;
                    sessionId := sessionId self;
                    logFilePath := logFilePath self;
                    screenshots := screenshots self ++ [screenshotInfo] |} in
     log INFO "screenshot"
         ("Screenshot captured: " +:+ filename screenshotInfo)
         (Some (DataScreenshot screenshotInfo)) step None self)
    (λ err,
       error "Failed to process screenshot metadata"
             (Some (JObject [("error", JString err);
                             ("path", JString screenshotPath)]))
             None self).

(** A call made on the logger by a collaborator. *)
Definition emit (e : Emission) : Logger → M Sys Logger :=
  match e with
  | Emit_debug message data step => debug message data step
  | Emit_info message data step => info message data step
  | Emit_warn message data step => warn message data step
  | Emit_error message data step => error message data step
  | Emit_browser action message data =>
      browser action message
              (match data with Some (JObject fields) => fields | _ => [] end)
  | Emit_screenshot screenshotPath step type =>
      screenshot screenshotPath step type
  end.

Fixpoint emit_all (es : list Emission) (self : Logger) : M Sys Logger :=
  match es with
  | [] => ret self
  | e :: es' => self <- emit e self ;; emit_all es' self
  end.

(** Export logs; the path of the export is returned. *)
Definition exportLogs (csv : bool) (self : Logger) : M Sys string :=
  let exportPath :=
    join env (cfg_outputDir (config self))
         ("execution-" +:+ sessionId self +:+ "-export."
          +:+ (if csv then "csv" else "json")) in
  try_catch
    (let exportData :=
       if csv then ExportCsv (csvRow <$> logBuffer self)
       else ExportJson (sessionId self) (getSessionSummary self)
                       (logBuffer self) (getExecutionTimeline self) in
     exec record (EvWriteFile exportPath (FileExport exportData) false) ;;
     exec attempt (writeFile env exportPath (FileExport exportData) false) ;;
     ret exportPath)
    (λ error, throw ("Error: Failed to export logs: " +:+ error)).

(** Clean up resources *)
Definition cleanup (self : Logger) : M Sys unit :=
  exec record (EvCall "Logger.cleanup") ;;
  when (enableFileLogging (config self)
        && bool_decide (logBuffer self ≠ []))
    ((* Write final summary *)
     let summary := getSessionSummary self in
     now <- ask (Date_now env) ;;
     writeToFile self
       {| timestamp := now; level := INFO; category := "session";
          message := "Session completed";
          data := Some (DataSummary summary); LoggerTypes.step := None;
          duration := None; LoggerTypes.screenshot := None |}).

(** [createLogger(config)] *)
Definition createLogger (config : Config.AutoConfig) : M Sys Logger :=
  new_Logger config.

End WithWorld.

End Logger.

(* ===================================================================== *)
(** * actions/validator.ts *)
(* ===================================================================== *)

Module Validator.

Record ValidationError : Type := {
  field : string;
  message : string;
  step : option Z;
}.

Record ValidationResult : Type := {
  valid : bool;
  errors : list ValidationError;
  warnings : list string;
}.

(** Basic CSS selector validation *)
Definition isValidSelector (selector : string) : bool :=
  if bool_decide (String.length (trim selector) = 0%nat) then false
  (* Basic checks for common invalid patterns *)
  else if includes selector ">>" || includes selector "<<<" then false
  else if startsWith selector "."
          && bool_decide (String.length selector = 1%nat) then false
  else if startsWith selector "#"
          && bool_decide (String.length selector = 1%nat) then false
  else true.

Section WithURL.

(** [new URL(url)] does not throw. *)
Context (URL_parses : string → bool).

Definition isValidUrl (url : string) : bool := URL_parses url.

(** Validate script-level fields *)
Definition validateScriptFields (script : AutomationScript)
    : list ValidationError :=
  (if bool_decide (trim (Types.name script) = "")
   then [{| field := "name"; message := "Script name cannot be empty";
            step := None |}]
   else [])
  ++ (if truthy_str (baseUrl script)
         && negb (isValidUrl (or_str (baseUrl script) ""))
      then [{| field := "baseUrl";
               message := "Base URL must be a valid URL"; step := None |}]
      else []).

(** Check for common step patterns and provide warnings: the loop over
    [i] from 0 to [steps.length - 2]. *)
Fixpoint checkAdjacent (i : Z) (steps : list ActionStep) : list string :=
  match steps with
  | current :: (next :: _) as steps' =>
      (if bool_decide (Types.type current = navigate)
          && negb (bool_decide (Types.type next = wait))
       then ["Step " +:+ show (i + 1)
             +:+ ": Consider adding a wait after navigation for better reliability"]
       else [])
      ++ (if bool_decide (Types.type current = click)
             && bool_decide (Types.type next = click)
             && negb (existsb (λ s, bool_decide (Types.type s = wait))
                              [next])
          then ["Step " +:+ show (i + 1)
                +:+ ": Multiple consecutive clicks without wait may cause issues"]
          else [])
      ++ checkAdjacent (i + 1) steps'
  | _ => []
  end.

Definition checkStepPatterns (steps : list ActionStep) : list string :=
  checkAdjacent 0 steps
  (* Check for missing screenshots in long sequences *)
  ++ (if (10 <? Z.of_nat (length steps))
         && negb (existsb (λ s, bool_decide (Types.type s = Types.screenshot))
                          steps)
      then ["Long script without screenshots - consider adding screenshots for debugging"]
      else []).

(** Validate step based on its type; only warnings are produced. *)
Definition validateStepType (step : ActionStep) (stepNumber : Z)
    : list string :=
  match Types.type step with
  | type_ =>
      match value step with
      | Some (VStr text) =>
          if 1000 <? Z.of_nat (String.length text)
          then ["Step " +:+ show stepNumber +:+ ": Very long text input ("
                +:+ show (Z.of_nat (String.length text)) +:+ " chars)"]
          else []
      | _ => []
      end
  | wait =>
      match timeout step with
      | Some t =>
          if negb (t =? 0) && (t <? 100)
          then ["Step " +:+ show stepNumber +:+ ": Very short wait time ("
                +:+ show t +:+ "ms)"]
          else []
      | None => []
      end
  | navigate =>
      if truthy_str (url step)
         && startsWith (or_str (url step) "") "file://"
      then ["Step " +:+ show stepNumber
            +:+ ": Local file URLs may not work in all browsers"]
      else []
  | scroll =>
      match value step with
      | Some (VNum n) =>
          if negb (n =? 0) && (10000 <? Z.abs n)
          then ["Step " +:+ show stepNumber +:+ ": Large scroll distance ("
                +:+ show n +:+ "px)"]
          else []
      | _ => []
      end
  | _ => []
  end.

(** Validate individual step: its errors and its warnings. *)
Definition validateStep (step : ActionStep) (stepNumber : Z)
    : list ValidationError * list string :=
  let selectorErrors :=
    if truthy_str (selector step)
       && negb (isValidSelector (or_str (selector step) ""))
    then [{| field := "selector"; message := "Invalid CSS selector format";
             step := Some stepNumber |}]
    else [] in
  let urlErrors :=
    if truthy_str (url step) && negb (isValidUrl (or_str (url step) ""))
    then [{| field := "url"; message := "Invalid URL format";
             step := Some stepNumber |}]
    else [] in
  let '(timeoutErrors, timeoutWarnings) :=
    match timeout step with
    | Some t =>
        if t <? 0
        then ([{| field := "timeout";
                  message := "Timeout cannot be negative";
                  step := Some stepNumber |}], [])
        else if 60000 <? t
             then ([], ["Step " +:+ show stepNumber
                        +:+ ": Timeout over 60 seconds may be too long"])
             else ([], [])
    | None => ([], [])
    end in
  (selectorErrors ++ urlErrors ++ timeoutErrors,
   timeoutWarnings ++ validateStepType step stepNumber).

(** [steps.forEach((step, index) => validateStep(step, index + 1, ...))] *)
Fixpoint validateEach (index : Z) (steps : list ActionStep)
    : list ValidationError * list string :=
  match steps with
  | [] => ([], [])
  | step :: steps' =>
      let '(es, ws) := validateStep step (index + 1) in
      let '(es', ws') := validateEach (index + 1) steps' in
      (es ++ es', ws ++ ws')
  end.

(** Validate all steps *)
Definition validateSteps (steps : list ActionStep)
    : list ValidationError * list string :=
  match steps with
  | [] => ([{| field := "steps";
               message := "Script must have at least one step";
               step := None |}], [])
  | _ =>
      let patternWarnings := checkStepPatterns steps in
      let '(es, ws) := validateEach 0 steps in
      (es, patternWarnings ++ ws)
  end.

(** Validate automation script with detailed error reporting *)
Definition validateScript (script : AutomationScript) : ValidationResult :=
  let scriptErrors := validateScriptFields script in
  let '(stepErrors, warnings) := validateSteps (steps script) in
  let errors := scriptErrors ++ stepErrors in
  {| valid := bool_decide (errors = []);
     errors := errors;
     warnings := warnings |}.

End WithURL.

Global Instance ValidationError_eq_dec : EqDecision ValidationError.
Proof. solve_decision. Defined.

(** Format validation results for display *)
Definition formatValidationResults (result : ValidationResult) : string :=
  join_with nl
    ((if valid result
      then ["✅ Script validation passed"]
      else ["❌ Script validation failed"; ""]
           ++ ((λ error,
                  "Error in " +:+ field error
                  +:+ match step error with
                      | Some n => if n =? 0 then ""
                                  else " (Step " +:+ show n +:+ ")"
                      | None => ""
                      end
                  +:+ ": " +:+ message error) <$> errors result))
     ++ (match warnings result with
         | [] => []
         | ws => [""; "⚠️  Warnings:"]
                 ++ ((λ warning, "  " +:+ warning) <$> ws)
         end)).

End Validator.

(* ===================================================================== *)
(** * browser/controller.ts: [closeBrowser] *)
(* ===================================================================== *)

Module Controller.

Section WithWorld.
Context {World : Type} (env : Env World).

(** [await controller.page.close()] and its two siblings. *)
Definition close_handle (target : CloseTarget) (handle : Handle)
    : M (Sys World) unit :=
  thrown <- ask (close env target handle) ;;
  exec record (EvClose target thrown) ;;
  match thrown with
  | Some error => throw error
  | None => ret ()
  end.

(** Close browser and cleanup resources *)
Definition closeBrowser (controller : BrowserController)
    : M (Sys World) (Result unit) :=
  exec record (EvCall "closeBrowser") ;;
  try_catch
    (exec match page controller with
          | Some handle => close_handle close_page handle
          | None => ret ()
          end ;;
     exec match context controller with
          | Some handle => close_handle close_context handle
          | None => ret ()
          end ;;
     exec match browser controller with
          | Some handle => close_handle close_browser handle
          | None => ret ()
          end ;;
     ret (success ()))
    (λ error, ret (failure ("Failed to close browser: " +:+ error))).

End WithWorld.

End Controller.

(* ===================================================================== *)
(** * executor/engine.ts *)
(* ===================================================================== *)

Module Engine.

Inductive LogStatus : Set := status_success | status_error | status_warning.

Record ExecutionLog : Type := {
  step : Z;
  action : string;
  status : LogStatus;
  message : string;
  timestamp : Z;
  duration : option Z;
}.

Section WithWorld.
Context {World : Type} (env : Env World).

(** The objects of one call of [executeScript]: the host, the session
    logger, the arrays [logs] and [screenshots], and the variables
    [browserController] and [stepsExecuted]. *)
Record Run : Type := {
  sys : Sys World;
  logger : Logger;
  logs : list ExecutionLog;
  screenshots : list string;
  browserController : option BrowserController;
  stepsExecuted : Z;
}.

Record ExecutionResult : Type := {
  success : bool;
  res_stepsExecuted : Z;
  totalSteps : Z;
  executionTime : Z;
  res_screenshots : list string;
  error : option string;
  res_logs : list ExecutionLog;
  errorAnalysis : option (list (ErrorHandler.ClassifiedError Run) * string);
  res_sessionId : option string;
  res_logFilePath : option string;
}.

Definition set_sys (σ : Sys World) (r : Run) : Run :=
  {| sys := σ; logger := logger r; logs := logs r;
     screenshots := screenshots r;
     browserController := browserController r;
     stepsExecuted := stepsExecuted r |}.

Definition set_logger (l : Logger) (r : Run) : Run :=
  {| sys := sys r; logger := l; logs := logs r;
     screenshots := screenshots r;
     browserController := browserController r;
     stepsExecuted := stepsExecuted r |}.

(** [logs.push(entry)] *)
Definition push_log (entry : ExecutionLog) (r : Run) : Run :=
  {| sys := sys r; logger := logger r; logs := logs r ++ [entry];
     screenshots := screenshots r;
     browserController := browserController r;
     stepsExecuted := stepsExecuted r |}.

(** [screenshots.push(path)] *)
Definition push_screenshot (path : string) (r : Run) : Run :=
  {| sys := sys r; logger := logger r; logs := logs r;
     screenshots := screenshots r ++ [path];
     browserController := browserController r;
     stepsExecuted := stepsExecuted r |}.

Definition set_browserController (c : BrowserController) (r : Run) : Run :=
  {| sys := sys r; logger := logger r; logs := logs r;
     screenshots := screenshots r;
     browserController := Some c;
     stepsExecuted := stepsExecuted r |}.

Definition set_stepsExecuted (n : Z) (r : Run) : Run :=
  {| sys := sys r; logger := logger r; logs := logs r;
     screenshots := screenshots r;
     browserController := browserController r;
     stepsExecuted := n |}.

(** A computation on the host, inside the run. *)
Definition on_host {A} (c : M (Sys World) A) : M Run A :=
  λ r, let '(a, σ) := c (sys r) in (a, set_sys σ r).

(** A method call [logger.m(...)]. *)
Definition on_logger (method : Logger → M (Sys World) Logger) : M Run unit :=
  λ r, match method (logger r) (sys r) with
       | (Ok l, σ) => (Ok (), set_logger l (set_sys σ r))
       | (Throw e, σ) => (Throw e, set_sys σ r)
       | (OutOfFuel, σ) => (OutOfFuel, set_sys σ r)
       end.

(** [Date.now()] *)
Definition now : M Run Z := on_host (ask (Date_now env)).

(** [logs.push({..., timestamp: new Date(), ...})] *)
Definition log_entry (step : Z) (action : string) (status : LogStatus)
    (message : string) (duration : option Z) : M Run unit :=
  timestamp <- now ;;
  modify (push_log {| step := step; action := action; status := status;
                      message := message; timestamp := timestamp;
                      duration := duration |}).

(** ** The collaborators of browser/controller.ts *)

Definition call_initializeBrowser (config : Config.AutoConfig)
    : M Run (Result BrowserController) :=
  '(outcome, emissions) <-
     on_host (ask (λ w, let '(outcome, emissions, w') :=
                          initializeBrowser env config w in
                        ((outcome, emissions), w'))) ;;
  exec on_host (record (EvInitializeBrowser outcome)) ;;
  exec on_logger (Logger.emit_all env emissions) ;;
  match outcome with
  | Returns result => ret result
  | Throws error => throw error
  end.

Definition call_executeActionStep (page : option Handle) (step : ActionStep)
    (config : Config.AutoConfig) (stepNumber : Z)
    : M Run (Result (option string)) :=
  exec on_host (record (EvExecuteActionStep step stepNumber)) ;;
  '(outcome, emissions) <-
     on_host (ask (λ w, let '(outcome, emissions, w') :=
                          executeActionStep env page step config stepNumber
                                            w in
                        ((outcome, emissions), w'))) ;;
  exec on_logger (Logger.emit_all env emissions) ;;
  match outcome with
  | Returns result => ret result
  | Throws error => throw error
  end.

Definition call_takeScreenshot (page : Handle) (config : Config.AutoConfig)
    (path : string) (stepNumber : Z) : M Run (Result string) :=
  '(outcome, emissions) <-
     on_host (ask (λ w, let '(outcome, emissions, w') :=
                          takeScreenshot env page config path stepNumber w in
                        ((outcome, emissions), w'))) ;;
  exec on_host (record (EvTakeScreenshot path stepNumber outcome)) ;;
  exec on_logger (Logger.emit_all env emissions) ;;
  match outcome with
  | Returns result => ret result
  | Throws error => throw error
  end.

(** [console.log] and [setTimeout] as the retry executor sees them. *)
Definition retry_env : ErrorHandler.RetryEnv Run :=
  {| ErrorHandler.console_log := λ notice r,
       set_sys {| world := world (sys r);
                  trace := trace (sys r)
                           ++ [EvConsole to_log (OutRetry notice)] |} r;
     ErrorHandler.sleep := λ ms r,
       set_sys {| world := setTimeout env ms (world (sys r));
                  trace := trace (sys r) ++ [EvSetTimeout ms] |} r |}.

(** Reading [.page] of [browserController]. *)
Definition TypeError_page : string :=
  "TypeError: Cannot read properties of null (reading 'page')".

Definition the_page : M Run (option Handle) :=
  controller <- gets browserController ;;
  match controller with
  | Some controller => ret (page controller)
  | None => throw TypeError_page
  end.

(** Get step summary for logging *)
Definition show_value (v : option StepValue) : string :=
  match v with
  | Some (VStr s) => s
  | Some (VNum n) => show n
  | None => "undefined"
  end.
Definition show_string (o : option string) : string :=
  match o with Some s => s | None => "undefined" end.
Definition show_number (o : option Z) : string :=
  match o with Some n => show n | None => "undefined" end.

Definition getStepSummary (step : ActionStep) : string :=
  let quote := String (ascii_of_nat 34) EmptyString in
  match Types.type step with
  | navigate => "Navigate to " +:+ show_string (url step)
  | click => "Click " +:+ show_string (selector step)
  | type_ => "Type " +:+ quote +:+ show_value (value step) +:+ quote
             +:+ " into " +:+ show_string (selector step)
  | wait => "Wait " +:+ show_number (timeout step) +:+ "ms"
  | Types.screenshot => "Take screenshot"
  | scroll =>
      "Scroll " +:+ show_string (selector step)
      +:+ match value step with
          | Some (VStr (String c s)) =>
              " by " +:+ String c s +:+ "px"
          | Some (VNum n) =>
              if n =? 0 then "" else " by " +:+ show n +:+ "px"
          | _ => ""
          end
  | select => "Select " +:+ quote +:+ show_value (value step) +:+ quote
              +:+ " from " +:+ show_string (selector step)
  end.

(** [success({success: ok, stepsExecuted, totalSteps, executionTime,
    screenshots, error, logs, sessionId, logFilePath})]: the arrays
    [screenshots] and [logs] are shared with the run. *)
Definition assemble (ok : bool) (stepsExecuted totalSteps executionTime : Z)
    (error : option string) (summary : SessionSummary) (r : Run)
    : ExecutionResult :=
  {| success := ok;
     res_stepsExecuted := stepsExecuted;
     totalSteps := totalSteps;
     executionTime := executionTime;
     res_screenshots := screenshots r;
     error := error;
     res_logs := logs r;
     errorAnalysis := None;
     res_sessionId := Some (sum_sessionId summary);
     res_logFilePath := Some (sum_logFilePath summary) |}.

Section Script.
Context (script : AutomationScript) (config : Config.AutoConfig)
        (startTime : Z).

Definition totalSteps_of : Z := Z.of_nat (length (steps script)).

(** Take error screenshot if enabled *)
Definition error_screenshot (stepNumber : Z) : M Run unit :=
  if Config.screenshotOnError (Config.actions config)
  then
    page <- the_page ;;
    match page with
    | Some page =>
        (try_catch
           (time <- now ;;
            let errorScreenshotFilename :=
              "error-step-" +:+ show stepNumber +:+ "-" +:+ show time
              +:+ ".png" in
            screenshotResult <-
              call_takeScreenshot page config errorScreenshotFilename
                                  stepNumber ;;
            match screenshotResult with
            | Types.success path => modify (push_screenshot path)
            | failure error =>
                on_logger
                  (Logger.error env "Failed to capture error screenshot"
                     (Some (JObject [("step", JNumber stepNumber);
                                     ("error", JString error)]))
                     None)
            end)
           (λ screenshotError,
              on_logger
                (Logger.error env "Failed to capture error screenshot"
                   (Some (JObject [("step", JNumber stepNumber);
                                   ("error", JString screenshotError)]))
                   None)))
    | None => ret ()
    end
  else ret ().

(** The end of a run that began: the summary is read, the logger is
    cleaned up and the payload is returned. *)
Definition finish (ok : bool) (stepsExecuted : Run → Z)
    (executionTime : Z) (error : option string)
    : M Run (Result ExecutionResult) :=
  summary <- gets (λ r, Logger.getSessionSummary (logger r)) ;;
  (* Cleanup before returning *)
  exec (self <- gets logger ;; on_host (Logger.cleanup env self)) ;;
  r <- gets id ;;
  ret (Types.success
         (assemble ok (stepsExecuted r) totalSteps_of executionTime error
                   summary r)).

(** The body of [try] inside the loop; [Some result] stands for
    [return result]. *)
Definition step_try (step : ActionStep) (stepNumber stepStartTime : Z)
    (stepSummary : string) : M Run (option (Result ExecutionResult)) :=
  (* Execute step with smart retry logic *)
  stepResult <-
    ErrorHandler.executeWithSmartRetry retry_env
      (page <- the_page ;;
       call_executeActionStep page step config stepNumber)
      config (Some step) (Some stepNumber) ;;
  exec on_host (record (EvStepResult stepNumber stepResult)) ;;
  time <- now ;;
  let stepDuration := time - stepStartTime in
  match stepResult with
  | Types.success data =>
      exec modify (λ r, set_stepsExecuted (stepsExecuted r + 1) r) ;;
      (* Handle screenshot result *)
      exec when (truthy_str data
                 && bool_decide (Types.type step = Types.screenshot))
             (modify (push_screenshot (or_str data ""))) ;;
      (* Log success *)
      exec on_logger
             (Logger.step env stepNumber (ActionType_name (Types.type step))
                          stepSummary (Some stepDuration) true) ;;
      exec log_entry stepNumber (ActionType_name (Types.type step))
             status_success stepSummary (Some stepDuration) ;;
      ret None
  | failure error =>
      (* Log failure *)
      exec on_logger
             (Logger.step env stepNumber (ActionType_name (Types.type step))
                          ("Failed: " +:+ error) (Some stepDuration)
                          false) ;;
      (* Handle step failure *)
      exec log_entry stepNumber (ActionType_name (Types.type step))
             status_error ("Failed: " +:+ error) (Some stepDuration) ;;
      exec error_screenshot stepNumber ;;
      time <- now ;;
      let executionTime := time - startTime in
      result <- finish false stepsExecuted executionTime (Some error) ;;
      ret (Some result)
  end.

(** [catch (error)] inside the loop. *)
Definition step_catch (step : ActionStep) (stepNumber stepStartTime : Z)
    (error : string) : M Run (option (Result ExecutionResult)) :=
  time <- now ;;
  let stepDuration := time - stepStartTime in
  exec on_logger
         (Logger.error env
            ("Unexpected error in step " +:+ show stepNumber)
            (Some (JObject
               [("step", JNumber stepNumber);
                ("action", JString (ActionType_name (Types.type step)));
                ("error", JString error)]))
            None) ;;
  exec log_entry stepNumber (ActionType_name (Types.type step))
         status_error ("Unexpected error: " +:+ error)
         (Some stepDuration) ;;
  time <- now ;;
  let executionTime := time - startTime in
  result <- finish false stepsExecuted executionTime (Some error) ;;
  ret (Some result).

(** [for (let i = 0; i < script.steps.length; i++)] from index [i] on,
    [rest] being the steps not yet run. *)
Fixpoint steps_loop (i : nat) (rest : list ActionStep)
    : M Run (option (Result ExecutionResult)) :=
  match rest with
  | [] => ret None
  | step :: rest' =>
      let stepNumber := Z.of_nat i + 1 in
      stepStartTime <- now ;;
      (* Log step start *)
      let stepSummary := getStepSummary step in
      exec on_logger
             (Logger.info env ("Starting step " +:+ show stepNumber)
                (Some (JObject
                   [("stepNumber", JNumber stepNumber);
                    ("action",
                     JString (ActionType_name (Types.type step)));
                    ("summary", JString stepSummary)]))
                (Some stepNumber)) ;;
      returned <-
        try_catch (step_try step stepNumber stepStartTime stepSummary)
                  (step_catch step stepNumber stepStartTime) ;;
      match returned with
      | Some result => ret (Some result)
      | None => steps_loop (S i) rest'
      end
  end.

Definition ValidationError_js (e : Validator.ValidationError) : JsValue :=
  JObject [("field", JString (Validator.field e));
           ("message", JString (Validator.message e));
           ("step", js_opt_number (Validator.step e))].

(** Once all steps succeed. *)
Definition completed : M Run (Result ExecutionResult) :=
  time <- now ;;
  let executionTime := time - startTime in
  stepsExecuted' <- gets stepsExecuted ;;
  screenshotCount <- gets (λ r, Z.of_nat (length (screenshots r))) ;;
  exec on_logger
         (Logger.info env "Script execution completed successfully"
            (Some (JObject [("stepsExecuted", JNumber stepsExecuted');
                            ("totalSteps", JNumber totalSteps_of);
                            ("executionTime", JNumber executionTime);
                            ("screenshotCount", JNumber screenshotCount)]))
            None) ;;
  exec log_entry 0 "completion" status_success
         ("Script completed successfully in " +:+ show executionTime
          +:+ "ms")
         None ;;
  let collectedErrors : list (ErrorHandler.ClassifiedError Run) := [] in
  let errorReport :=
    match collectedErrors with
    | [] => None
    | _ => Some (ErrorHandler.generateErrorReport collectedErrors
                   executionTime)
    end in
  summary <- gets (λ r, Logger.getSessionSummary (logger r)) ;;
  (* Cleanup logger *)
  exec (self <- gets logger ;; on_host (Logger.cleanup env self)) ;;
  r <- gets id ;;
  ret (Types.success
         {| success := true;
            res_stepsExecuted := stepsExecuted r;
            totalSteps := totalSteps_of;
            executionTime := executionTime;
            res_screenshots := screenshots r;
            error := None;
            res_logs := logs r;
            errorAnalysis :=
              match collectedErrors, errorReport with
              | _ :: _, Some report => Some (collectedErrors, report)
              | _, _ => None
              end;
            res_sessionId := Some (sum_sessionId summary);
            res_logFilePath := Some (sum_logFilePath summary) |}).

(** The body of the outer [try]. *)
Definition run_script : M Run (Result ExecutionResult) :=
  exec on_logger
         (Logger.info env "Starting script execution"
            (Some (JObject
               [("scriptName", JString (Types.name script));
                ("description", js_opt_string (script_description script));
                ("totalSteps", JNumber totalSteps_of)]))
            None) ;;
  (* Validate script before execution *)
  let validationResult := Validator.validateScript (URL_parses env) script in
  match Validator.errors validationResult with
  | _ :: _ =>
      let errorMessage := Validator.formatValidationResults
                            validationResult in
      exec on_logger
             (Logger.validation env "Script validation failed"
                (Some (ValidationError_js
                         <$> Validator.errors validationResult))
                (Some (Validator.warnings validationResult))) ;;
      ret (failure ("Script validation failed:" +:+ nl +:+ errorMessage))
  | [] =>
      (* Log warnings if any *)
      exec match Validator.warnings validationResult with
           | _ :: _ =>
               let warningMessage := Validator.formatValidationResults
                                       validationResult in
               exec on_logger
                      (Logger.validation env
                         "Script validation completed with warnings"
                         (Some [])
                         (Some (Validator.warnings validationResult))) ;;
               when (Config.verbose (Config.logging config))
                    (log_entry 0 "validation" status_warning
                               warningMessage None)
           | [] =>
               on_logger
                 (Logger.validation env "Script validation passed"
                                    None None)
           end ;;
      (* Initialize browser *)
      browserResult <- call_initializeBrowser config ;;
      match browserResult with
      | failure error =>
          exec on_logger
                 (Logger.error env "Failed to initialize browser"
                    (Some (JObject [("error", JString error)])) None) ;;
          ret (failure ("Failed to initialize browser: " +:+ error))
      | Types.success controller =>
          exec modify (set_browserController controller) ;;
          match page controller with
          | None =>
              exec on_logger
                     (Logger.error env "Browser page is not available"
                                   None None) ;;
              ret (failure "Browser page is not available")
          | Some _ =>
              exec log_entry 0 "browser_init" status_success
                     ("Browser initialized: "
                      +:+ Config.browser_type (Config.browser config))
                     None ;;
              (* Execute steps sequentially *)
              exec modify (set_stepsExecuted 0) ;;
              returned <- steps_loop 0 (steps script) ;;
              match returned with
              | Some result => ret result
              | None => completed
              end
          end
      end
  end.

(** The outer [catch (error)]. *)
Definition run_catch (error : string) : M Run (Result ExecutionResult) :=
  time <- now ;;
  let executionTime := time - startTime in
  exec on_logger
         (Logger.error env "Script execution failed with unexpected error"
            (Some (JObject [("error", JString error);
                            ("executionTime", JNumber executionTime);
                            ("stepsExecuted", JNumber 0)]))
            None) ;;
  finish false (λ _, 0) executionTime (Some error).

(** [finally]: cleanup browser resources. *)
Definition run_finally : M Run unit :=
  controller <- gets browserController ;;
  match controller with
  | Some controller =>
      exec on_host (Controller.closeBrowser env controller) ;;
      exec on_logger (Logger.browser env "cleanup" "Browser closed" []) ;;
      log_entry 0 "browser_cleanup" status_success "Browser closed" None
  | None => ret ()
  end.

End Script.

(** The returned payload holds the arrays [screenshots] and [logs]
    themselves, so it shows what [finally] pushed after [return]. *)
Definition shared_arrays (r : Run) (result : Result ExecutionResult)
    : Result ExecutionResult :=
  match result with
  | Types.success payload =>
      Types.success
        {| success := success payload;
           res_stepsExecuted := res_stepsExecuted payload;
           totalSteps := totalSteps payload;
           executionTime := executionTime payload;
           res_screenshots := screenshots r;
           error := error payload;
           res_logs := logs r;
           errorAnalysis := errorAnalysis payload;
           res_sessionId := res_sessionId payload;
           res_logFilePath := res_logFilePath payload |}
  | failure error => failure error
  end.

(** Execute automation script *)
Definition executeScript (script : AutomationScript)
    (config : Config.AutoConfig)
    : M (Sys World) (Result ExecutionResult) :=
  startTime <- ask (Date_now env) ;;
  (* Create logger for this execution session *)
  logger <- Logger.createLogger env config ;;
  λ σ,
    let run := {| sys := σ; logger := logger; logs := [];
                  screenshots := []; browserController := None;
                  stepsExecuted := 0 |} in
    match try_finally
            (try_catch (run_script script config startTime)
                       (run_catch script startTime))
            run_finally run
    with
    | (Ok result, run') => (Ok (shared_arrays run' result), sys run')
    | (Throw e, run') => (Throw e, sys run')
    | (OutOfFuel, run') => (OutOfFuel, sys run')
    end.

End WithWorld.

Arguments Run : clear implicits.
Arguments ExecutionResult : clear implicits.

End Engine.

(* ===================================================================== *)
(** * actions/parser.ts *)
(* ===================================================================== *)

Module Parser.

Section WithNumbers.

(** The numbers of a document. The parser only tests them with [!n] and
    with [n <= 0], which the runtime below answers. *)
Context {Num : Type}.

(** What [JSON.parse] returns. The fields of an object are its own
    properties, every key once. *)
#[warnings="-register-all"] Inductive Json : Type :=
| JNull
| JBool (b : bool)
| JNumber (n : Num)
| JString (s : string)
| JArray (items : list Json)
| JObject (fields : list (string * Json)).

(** An [ActionStep] and an [AutomationScript] as the parser builds them.
    The types of the fields are not checked at run time: a field holds
    whatever value the document has there, or [undefined] ([None]). *)
Record ActionStep : Type := {
  type : string;
  selector : option Json;
  value : option Json;
  url : option Json;
  timeout : option Json;
  description : option Json;
}.

Record AutomationScript : Type := {
  name : string;
  script_description : option Json;
  baseUrl : option Json;
  steps : list ActionStep;
}.

(** What the parser needs of the runtime. *)
Record Runtime : Type := {
  (** [!n]: the number is 0 or [NaN] *)
  number_falsy : Num → bool;
  (** [n <= 0] *)
  number_le_zero : Num → bool;
  (** a value other than a string inside a template literal *)
  to_text : Json → string;
  (** [String(error)] of the [TypeError] thrown when the property [k] of
      [null] is read *)
  TypeError_null : string → string;
  JSON_parse : string → Completion Json;
}.

Context (rt : Runtime) {St : Type}.

(** The own property [k] of an object, [undefined] when it has none. *)
Fixpoint own (fields : list (string * Json)) (k : string) : option Json :=
  match fields with
  | [] => None
  | (k', v) :: fields' => if String.eqb k' k then Some v else own fields' k
  end.

(** [o.k] for the property names that the parser reads on a value of
    unknown shape: [name], [steps], [description], [baseUrl], [type],
    [selector], [value], [url] and [timeout]. None of them is defined on
    the prototype of an object, an array, a string, a number or a
    boolean, and reading a property of [null] throws. *)
Definition get (o : Json) (k : string) : M St (option Json) :=
  match o with
  | JNull => throw (TypeError_null rt k)
  | JObject fields => ret (own fields k)
  | _ => ret None
  end.

(** Truthiness: [undefined], [null], [false], [''], 0 and [NaN] are
    falsy. *)
Definition truthy (v : option Json) : bool :=
  match v with
  | None | Some JNull | Some (JBool false) | Some (JString EmptyString) =>
      false
  | Some (JNumber n) => negb (number_falsy rt n)
  | Some _ => true
  end.

Definition typeof (v : option Json) : string :=
  match v with
  | None => "undefined"
  | Some (JBool _) => "boolean"
  | Some (JNumber _) => "number"
  | Some (JString _) => "string"
  | Some JNull | Some (JArray _) | Some (JObject _) => "object"
  end.

(** [Array.isArray(v)] *)
Definition isArray (v : option Json) : bool :=
  match v with Some (JArray _) => true | _ => false end.

(** The elements of an array. *)
Definition items_of (v : option Json) : list Json :=
  match v with Some (JArray items) => items | _ => [] end.

(** [v || undefined] *)
Definition or_undefined (v : option Json) : option Json :=
  if truthy v then v else None.

(** [v === undefined || v === null] *)
Definition is_nullish (v : option Json) : bool :=
  match v with None | Some JNull => true | _ => false end.

(** [typeof v !== 'number' || v <= 0] *)
Definition not_positive_number (v : option Json) : bool :=
  match v with
  | Some (JNumber n) => number_le_zero rt n
  | _ => true
  end.

(** [v === name] for a string literal [name] *)
Definition is_string (v : option Json) (name : string) : bool :=
  match v with
  | Some (JString s) => String.eqb s name
  | _ => false
  end.

(** [`${v}`] *)
Definition text (v : option Json) : string :=
  match v with
  | None => "undefined"
  | Some (JString s) => s
  | Some j => to_text rt j
  end.

Definition validTypes : list string :=
  ["navigate"; "click"; "type"; "wait"; "screenshot"; "scroll"; "select"].

(** [validTypes.includes(v)] *)
Definition is_valid_type (v : option Json) : bool :=
  existsb (is_string v) validTypes.

(** [return failure(`Step ${stepNumber}: ...`)] *)
Definition step_failure {T} (stepNumber : Z) (what : string)
    : M St (Result T) :=
  ret (failure ("Step " +:+ show stepNumber +:+ ": " +:+ what)).

(** [if (!step.f || typeof step.f !== 'string') return failure(...)],
    followed by [rest]. A property is plain data: reading it twice gives
    the same value. *)
Definition requires_string (step : Json) (stepNumber : Z)
    (action field : string) (rest : M St (Result unit))
    : M St (Result unit) :=
  v <- get step field ;;
  if negb (truthy v) || negb (String.eqb (typeof v) "string")
  then step_failure stepNumber
         (action +:+ " action requires '" +:+ field +:+ "' field")
  else rest.

(** [if (step.value === undefined || step.value === null)
       return failure(...)], followed by [rest]. *)
Definition requires_value (step : Json) (stepNumber : Z) (action : string)
    (rest : M St (Result unit)) : M St (Result unit) :=
  v <- get step "value" ;;
  if is_nullish v
  then step_failure stepNumber (action +:+ " action requires 'value' field")
  else rest.

(** The check of the timeout after the [switch]. *)
Definition timeout_if_provided (step : Json) (stepNumber : Z)
    : M St (Result unit) :=
  t <- get step "timeout" ;;
  if bool_decide (t ≠ None) && not_positive_number t
  then step_failure stepNumber "timeout must be a positive number"
  else ret (success ()).

Definition validateStepRequirements (step : Json) (stepNumber : Z)
    : M St (Result unit) :=
  let after := timeout_if_provided step stepNumber in
  ty <- get step "type" ;;
  if is_string ty "navigate" then
    requires_string step stepNumber "navigate" "url" after
  else if is_string ty "click" then
    requires_string step stepNumber "click" "selector" after
  else if is_string ty "type" then
    requires_string step stepNumber "type" "selector"
      (requires_value step stepNumber "type" after)
  else if is_string ty "wait" then
    t <- get step "timeout" ;;
    if negb (truthy t) || not_positive_number t
    then step_failure stepNumber
           "wait action requires positive 'timeout' field"
    else after
  else if is_string ty "scroll" then
    requires_string step stepNumber "scroll" "selector" after
  else if is_string ty "select" then
    requires_string step stepNumber "select" "selector"
      (requires_value step stepNumber "select" after)
  else if is_string ty "screenshot" then after
  else
    step_failure stepNumber ("unknown action type '" +:+ text ty +:+ "'").

Definition validateStep (step : Json) (index : Z) : M St (Result ActionStep) :=
  let stepNumber := index + 1 in
  ty <- get step "type" ;;
  if negb (truthy ty) || negb (String.eqb (typeof ty) "string") then
    step_failure stepNumber "type is required and must be a string"
  else if negb (is_valid_type ty) then
    step_failure stepNumber
      ("invalid type '" +:+ text ty +:+ "'. Valid types: "
       +:+ join_with ", " validTypes)
  else
    requirementsResult <- validateStepRequirements step stepNumber ;;
    match requirementsResult with
    | failure e => ret (failure e)
    | success _ =>
        ty <- get step "type" ;;
        sel <- get step "selector" ;;
        val <- get step "value" ;;
        u <- get step "url" ;;
        t <- get step "timeout" ;;
        d <- get step "description" ;;
        ret (success {| type := text ty;
                        selector := or_undefined sel;
                        value := or_undefined val;
                        url := or_undefined u;
                        timeout := or_undefined t;
                        description := or_undefined d |})
    end.

(** The loop over [data.steps] from index [i] on, with the steps
    validated so far; the first step that is not accepted ends it. *)
Fixpoint validate_from (items : list Json) (i : Z)
    (validatedSteps : list ActionStep) : M St (Result (list ActionStep)) :=
  match items with
  | [] => ret (success validatedSteps)
  | step :: items' =>
      stepResult <- validateStep step i ;;
      match stepResult with
      | failure e => ret (failure e)
      | success data =>
          validate_from items' (i + 1) (validatedSteps ++ [data])
      end
  end.

Definition validateAndNormalizeScript (data : Json)
    : M St (Result AutomationScript) :=
  n <- get data "name" ;;
  if negb (truthy n) || negb (String.eqb (typeof n) "string") then
    ret (failure "Script name is required and must be a string")
  else
    ss <- get data "steps" ;;
    if negb (truthy ss) || negb (isArray ss) then
      ret (failure "Script steps are required and must be an array")
    else if bool_decide (length (items_of ss) = 0%nat) then
      ret (failure "Script must have at least one step")
    else
      validated <- validate_from (items_of ss) 0 [] ;;
      match validated with
      | failure e => ret (failure e)
      | success validatedSteps =>
          n <- get data "name" ;;
          d <- get data "description" ;;
          b <- get data "baseUrl" ;;
          ret (success {| name := text n;
                          script_description := or_undefined d;
                          baseUrl := or_undefined b;
                          steps := validatedSteps |})
      end.

Definition parseScriptFromString (jsonContent : string)
    : M St (Result AutomationScript) :=
  try_catch
    (parsed <- (λ σ, (match JSON_parse rt jsonContent with
                      | Returns doc => Ok doc
                      | Throws e => Throw e
                      end, σ)) ;;
     validateAndNormalizeScript parsed)
    (λ error, ret (failure ("Failed to parse JSON: " +:+ error))).

End WithNumbers.

Arguments Json : clear implicits.
Arguments ActionStep : clear implicits.
Arguments AutomationScript : clear implicits.
Arguments Runtime : clear implicits.

End Parser.

(* ===================================================================== *)
(** * Vocabulary of the statements *)
(* ===================================================================== *)

(** [e] contains [marker] up to letter case: some substring of [e]
    lower-cases to [marker]. *)
Definition contains_ci (e marker : string) : Prop :=
  ∃ pre mid post, e = pre +:+ mid +:+ post ∧ toLowerCase mid = marker.

(** The keywords tested by the first and by the third branch of
    [classifyError]. *)
Definition network_markers : list string :=
  ["net::"; "network"; "connection"; "dns"; "refused"].
Definition not_found_markers : list string :=
  ["no element"; "not found"; "cannot find"; "element not found"].

(** ** The groups of the error report

    What the [reduce] of [generateErrorReport] keeps: the kinds are
    distinct, every group is the list of the errors of its kind seen so
    far, in their order, every error seen has a group, and the sizes of
    the groups add up to the number of errors seen. *)
Definition grouped {St}
    (acc : list (ErrorHandler.ErrorType
                 * list (ErrorHandler.ClassifiedError St)))
    (seen : list (ErrorHandler.ClassifiedError St)) : Prop :=
  NoDup acc.*1
  ∧ (∀ t es, (t, es) ∈ acc →
       es ≠ [] ∧ es = filter (λ e, ErrorHandler.type e = t) seen)
  ∧ (∀ e, e ∈ seen → ErrorHandler.type e ∈ acc.*1)
  ∧ sum_list (length <$> acc.*2) = length seen.

(** ** Counting the invocations of an operation

    The operation runs on the first component of the store and every
    invocation increments the second one. *)
Definition counted {St A} (operation : M St A) : M (St * nat) A :=
  λ '(σ, k), let '(r, σ') := operation σ in (r, (σ', S k)).

(** The ambient effects, on a store with a counter. *)
Definition counting_env {St} (env : ErrorHandler.RetryEnv St)
    : ErrorHandler.RetryEnv (St * nat) :=
  {| ErrorHandler.console_log := λ notice '(σ, k),
       (ErrorHandler.console_log env notice σ, k);
     ErrorHandler.sleep := λ ms '(σ, k),
       (ErrorHandler.sleep env ms σ, k) |}.

(** What [console.log] and [setTimeout] do to the store between a failed
    attempt and the next one, for a classification without recovery
    actions. *)
Definition retry_pause {St} (env : ErrorHandler.RetryEnv St)
    (config : Config.AutoConfig) (stepNumber : option Z)
    (classifiedError : ErrorHandler.ClassifiedError St) (attempt : Z)
    (σ : St) : St :=
  let verbose := Config.verbose (Config.logging config) in
  let strategy := ErrorHandler.DEFAULT_RETRY_STRATEGIES (St:=St)
                    (ErrorHandler.type classifiedError) in
  let maxAttempts :=
    Z.min (ErrorHandler.maxAttempts strategy)
          (Config.retryAttempts (Config.actions config)) in
  let delay := ErrorHandler.calculateRetryDelay strategy attempt in
  let σ1 := if verbose
            then ErrorHandler.console_log env
                   (ErrorHandler.FailedAttempt stepNumber attempt maxAttempts
                      (ErrorHandler.message classifiedError)) σ
            else σ in
  let σ2 := if verbose && (0 <? delay)
            then ErrorHandler.console_log env
                   (ErrorHandler.RetryingIn delay) σ1
            else σ1 in
  if 0 <? delay then ErrorHandler.sleep env delay σ2 else σ2.

(** The operation, started in [σ], fails with [msg] and leaves [σ']: it
    returns a declared failure or it throws. *)
Inductive fails_with {St T} (operation : M St (Result T)) (σ : St)
    (msg : string) (σ' : St) : Prop :=
| fails_declared : operation σ = (Ok (failure msg), σ') →
                   fails_with operation σ msg σ'
| fails_thrown : operation σ = (Throw msg, σ') →
                 fails_with operation σ msg σ'.

(** ** Runs and their events *)

(** [runs tr c σ Q]: started in [σ], the computation [c] appends the events
    [evs] to the trace [tr] of the store and completes with a result [r]
    and a store [σ'] such that [Q r σ' evs]. *)
Definition runs {St A} (tr : St → list Event) (c : M St A) (σ : St)
    (Q : Res A → St → list Event → Prop) : Prop :=
  ∃ evs, tr (c σ).2 = tr σ ++ evs ∧ Q (c σ).1 (c σ).2 evs.

(** The events of the session logger: console output of entries, and the
    calls on the file system. *)
Definition logger_event (ev : Event) : bool :=
  match ev with
  | EvConsole _ (OutEntry _) | EvConsole _ (OutData _)
  | EvConsole _ (OutText _ _)
  | EvMkdir _ | EvWriteFile _ _ _ | EvStat _ | EvRotateLogIfNeeded _ => true
  | _ => false
  end.

(** The console method used for an entry of a given level. *)
Definition console_method (l : LogLevel) : ConsoleMethod :=
  match l with
  | ERROR => to_error
  | WARN => to_warn
  | _ => to_log
  end.

(** The entry that [Logger.log] builds at time [now]. *)
Definition entry_of (now : Z) (level : LogLevel) (category message : string)
    (data : option LogData) (step duration : option Z) : LogEntry :=
  {| timestamp := now; level := level; category := category;
     message := message; data := data; LoggerTypes.step := step;
     duration := duration; LoggerTypes.screenshot := None |}.

(** [this.logBuffer.push(entry)] *)
Definition with_entry (self : Logger) (entry : LogEntry) : Logger :=
  {| config := config self; logBuffer := logBuffer self ++ [entry];
     sessionId := sessionId self; logFilePath := logFilePath self;
     screenshots := screenshots self |}.

(** The level of an emission is below the minimum of the logger. *)
Definition below_minimum (level : LogLevel) (self : Logger) : Prop :=
  LogLevel_value level < LogLevel_value (cfg_level (config self)).

(** A method of the logger that returns, keeps the identity and the
    configuration of the logger, and only issues events of the logger. *)
Definition quiet_method {World} (method : Logger → M (Sys World) Logger)
    : Prop :=
  ∀ self σ,
    runs trace (method self) σ (λ r _ evs,
      ∃ self', r = Ok self'
               ∧ Forall logger_event evs
               ∧ config self' = config self
               ∧ sessionId self' = sessionId self
               ∧ logFilePath self' = logFilePath self).

(** [returns tr c σ Q]: a run of [c] that returns a value. *)
Definition returns {St A} (tr : St → list Event) (c : M St A) (σ : St)
    (Q : A → St → list Event → Prop) : Prop :=
  runs tr c σ (λ r σ' evs, ∃ a, r = Ok a ∧ Q a σ' evs).

(** ** What the validator checks of a step

    A selector that is not empty has an accepted format, a URL that is not
    empty parses, and a timeout is not negative. *)
Definition step_checks (URL_parses : string → bool) (step : ActionStep)
    : bool :=
  (negb (truthy_str (selector step))
   || Validator.isValidSelector (or_str (selector step) ""))
  && (negb (truthy_str (url step)) || URL_parses (or_str (url step) ""))
  && match timeout step with Some t => 0 <=? t | None => true end.

(** ** Calls of the public methods of the logger *)

Inductive LoggerCall : Type :=
| Call_debug (message : string) (data : option JsValue) (step : option Z)
| Call_info (message : string) (data : option JsValue) (step : option Z)
| Call_warn (message : string) (data : option JsValue) (step : option Z)
| Call_error (message : string) (data : option JsValue) (step : option Z)
| Call_step (stepNumber : Z) (action message : string)
            (duration : option Z) (succeeded : bool)
| Call_browser (action message : string) (data : list (string * JsValue))
| Call_validation (message : string) (errors : option (list JsValue))
                  (warnings : option (list string))
| Call_screenshot (screenshotPath : string) (step : option Z)
                  (type : ScreenshotType).

Definition perform {World} (env : Env World) (call : LoggerCall)
    : Logger → M (Sys World) Logger :=
  match call with
  | Call_debug message data step => Logger.debug env message data step
  | Call_info message data step => Logger.info env message data step
  | Call_warn message data step => Logger.warn env message data step
  | Call_error message data step => Logger.error env message data step
  | Call_step stepNumber action message duration succeeded =>
      Logger.step env stepNumber action message duration succeeded
  | Call_browser action message data =>
      Logger.browser env action message data
  | Call_validation message errors warnings =>
      Logger.validation env message errors warnings
  | Call_screenshot screenshotPath step type =>
      Logger.screenshot env screenshotPath step type
  end.

(** A sequence of calls, each on the logger left by the one before. *)
Fixpoint perform_all {World} (env : Env World) (calls : list LoggerCall)
    (self : Logger) : M (Sys World) Logger :=
  match calls with
  | [] => ret self
  | call :: calls' =>
      self <- perform env call self ;; perform_all env calls' self
  end.

(** Every buffered entry is at or above the minimum of the logger. *)
Definition buffer_admitted (self : Logger) : Prop :=
  Forall (λ entry, ¬ below_minimum (level entry) self) (logBuffer self).

(** ** What a computation returns

    [yields c P]: whenever [c] returns a value, the value satisfies
    [P]. *)
Definition yields {St A} (c : M St A) (P : A → Prop) : Prop :=
  ∀ σ, match (c σ).1 with Ok a => P a | _ => True end.

(** The payload, if there is one, has no error analysis. *)
Definition no_analysis {World}
    (result : Result (Engine.ExecutionResult World)) : Prop :=
  match result with
  | Types.success payload => Engine.errorAnalysis payload = None
  | failure _ => True
  end.

(** ** What an accepted step has

    Its type is one of the seven; a [navigate] step has a URL and a
    [click], [type], [scroll] or [select] step a selector, each a string
    that is not empty; a [wait] step has a timeout; and a timeout, where
    there is one, is a number that is neither [<= 0] nor falsy. *)
Definition well_formed_step {Num} (rt : Parser.Runtime Num)
    (out : Parser.ActionStep Num) : Prop :=
  Parser.type out ∈ Parser.validTypes
  ∧ (Parser.type out = "navigate" →
     ∃ u, Parser.url out = Some (Parser.JString u) ∧ u ≠ "")
  ∧ (Parser.type out = "click" ∨ Parser.type out = "type"
     ∨ Parser.type out = "scroll" ∨ Parser.type out = "select" →
     ∃ s, Parser.selector out = Some (Parser.JString s) ∧ s ≠ "")
  ∧ (Parser.type out = "wait" → Parser.timeout out ≠ None)
  ∧ ∀ t, Parser.timeout out = Some t →
         ∃ m, t = Parser.JNumber m
              ∧ Parser.number_le_zero rt m = false
              ∧ Parser.number_falsy rt m = false.

(** ** The marks of a run of [executeScript]

    The events that show the course of a run are the calls of
    [initializeBrowser] and [takeScreenshot], the close calls, the entries
    into [Logger.cleanup] and [closeBrowser], and the results of the
    steps. The other events (the logger's output, the notices and the
    pauses of the retry executor, the calls of [executeActionStep]) are
    plain. *)
Definition plain_event (ev : Event) : bool :=
  match ev with
  | EvInitializeBrowser _ | EvTakeScreenshot _ _ _ | EvClose _ _
  | EvCall _ | EvStepResult _ _ => false
  | _ => true
  end.

Definition marks (evs : list Event) : list Event :=
  filter (λ ev, plain_event ev = false) evs.

(** The results of steps [i+1], [i+2], ... that succeeded with the data
    [ds]. *)
Fixpoint success_marks (i : Z) (ds : list (option string)) : list Event :=
  match ds with
  | [] => []
  | d :: ds' => EvStepResult (i + 1) (Types.success d) :: success_marks (i + 1) ds'
  end.

(** The paths that successful screenshot steps add to [screenshots]. *)
Fixpoint step_shots (steps : list ActionStep) (ds : list (option string))
    : list string :=
  match steps, ds with
  | step :: steps', d :: ds' =>
      (if truthy_str d && bool_decide (Types.type step = Types.screenshot)
       then [or_str d ""] else [])
      ++ step_shots steps' ds'
  | _, _ => []
  end.

(** The handles that [closeBrowser] closes, in its order. *)
Definition close_targets (controller : BrowserController)
    : list CloseTarget :=
  (if page controller is Some _ then [close_page] else [])
  ++ (if context controller is Some _ then [close_context] else [])
  ++ (if browser controller is Some _ then [close_browser] else []).

(** The close calls of one [closeBrowser]: the targets are closed in
    order, and a close that throws is the last one. *)
Fixpoint close_attempts (targets : list CloseTarget) (closes : list Event)
    : Prop :=
  match targets with
  | [] => closes = []
  | target :: targets' =>
      ∃ thrown closes',
        closes = EvClose target thrown :: closes'
        ∧ match thrown with
          | None => close_attempts targets' closes'
          | Some _ => closes' = []
          end
  end.

(** The marks of the release of a browser session. *)
Definition release_marks (controller : BrowserController)
    (released : list Event) : Prop :=
  ∃ closes, released = EvCall "closeBrowser" :: closes
            ∧ close_attempts (close_targets controller) closes.

(** ** Runs of [executeScript] *)

Section RunShape.
Import Engine.
Context {World : Type}.

Definition run_trace (r : Run World) : list Event := trace (sys r).

(** From [r] to [r'] the variable [browserController] and the identity
    and configuration of the logger are kept; [stepsExecuted] and
    [screenshots] have become [n] and [shots]. *)
Definition framed (r r' : Run World) (n : Z) (shots : list string) : Prop :=
  browserController r' = browserController r
  ∧ stepsExecuted r' = n
  ∧ screenshots r' = shots
  ∧ config (logger r') = config (logger r)
  ∧ sessionId (logger r') = sessionId (logger r)
  ∧ logFilePath (logger r') = logFilePath (logger r).

(** What the calls on the logger and on the host leave alone. *)
Definition frame (r r' : Run World) : Prop :=
  framed r r' (stepsExecuted r) (screenshots r).

(** What holds of the run while the steps are executed: the browser
    session has a page, and the logger writes to the console. *)
Definition in_session (r : Run World) : Prop :=
  (∃ controller, browserController r = Some controller
                 ∧ page controller ≠ None)
  ∧ enableConsoleLogging (config (logger r)) = true.

(** The capture of an error screenshot at step [K]: [shots] is the array
    [screenshots] before it and [shots'] after it, [capture] are its
    marks. *)
Definition capture_shape (config : Config.AutoConfig) (K : Z)
    (shots : list string) (capture : list Event) (shots' : list string)
    (evs : list Event) : Prop :=
  if Config.screenshotOnError (Config.actions config)
  then
    ∃ filename outcome,
      capture = [EvTakeScreenshot filename K outcome]
      ∧ match outcome with
        | Returns (Types.success path) => shots' = shots ++ [path]
        | _ =>
            shots' = shots
            ∧ ∃ entry,
                level entry = ERROR
                ∧ LoggerTypes.message entry
                  = "Failed to capture error screenshot"
                ∧ EvConsole to_error (OutEntry entry) ∈ evs
        end
  else capture = [] ∧ shots' = shots.

Section Shape.
Context (URL_parses : string → bool) (script : AutomationScript)
        (config : Config.AutoConfig).

#[local] Abbreviation validationResult :=
  (Validator.validateScript URL_parses script).
#[local] Abbreviation N := (Z.of_nat (length (steps script))).

(** The courses a run of [executeScript] can take, each with the value
    returned and the marks of the events [evs] of the run. *)
Inductive run_shape
    : Res (Result (ExecutionResult World)) → list Event → Prop :=
| shape_invalid evs :
    Validator.errors validationResult ≠ [] →
    marks evs = [] →
    run_shape
      (Ok (failure ("Script validation failed:" +:+ nl
                    +:+ Validator.formatValidationResults validationResult)))
      evs
| shape_init_failed evs e :
    Validator.errors validationResult = [] →
    marks evs = [EvInitializeBrowser (Returns (failure e))] →
    run_shape (Ok (failure ("Failed to initialize browser: " +:+ e))) evs
| shape_init_thrown evs e payload :
    Validator.errors validationResult = [] →
    marks evs = [EvInitializeBrowser (Throws e); EvCall "Logger.cleanup"] →
    success payload = false →
    res_stepsExecuted payload = 0 →
    totalSteps payload = N →
    error payload = Some e →
    run_shape (Ok (Types.success payload)) evs
| shape_no_page evs controller released :
    Validator.errors validationResult = [] →
    page controller = None →
    marks evs
    = EvInitializeBrowser (Returns (Types.success controller)) :: released →
    release_marks controller released →
    run_shape (Ok (failure "Browser page is not available")) evs
| shape_step_failed evs controller ds K msg capture released payload :
    Validator.errors validationResult = [] →
    page controller ≠ None →
    marks evs
    = EvInitializeBrowser (Returns (Types.success controller))
      :: success_marks 0 ds ++ [EvStepResult K (failure msg)] ++ capture
         ++ [EvCall "Logger.cleanup"] ++ released →
    K = Z.of_nat (length ds) + 1 →
    K ≤ N →
    release_marks controller released →
    success payload = false →
    res_stepsExecuted payload = K - 1 →
    totalSteps payload = N →
    error payload = Some msg →
    capture_shape config K (step_shots (steps script) ds) capture
                  (res_screenshots payload) evs →
    run_shape (Ok (Types.success payload)) evs
| shape_completed evs controller ds released payload :
    Validator.errors validationResult = [] →
    page controller ≠ None →
    length ds = length (steps script) →
    marks evs
    = EvInitializeBrowser (Returns (Types.success controller))
      :: success_marks 0 ds ++ [EvCall "Logger.cleanup"] ++ released →
    release_marks controller released →
    success payload = true →
    res_stepsExecuted payload = N →
    totalSteps payload = N →
    error payload = None →
    res_screenshots payload = step_shots (steps script) ds →
    run_shape (Ok (Types.success payload)) evs.

(** The courses of the body of [try] and [catch], before [finally]: with
    the value returned come the variable [browserController] and the
    array [screenshots] as the body leaves them. *)
Inductive body_shape
    : Result (ExecutionResult World) → option BrowserController →
      list string → list Event → Prop :=
| body_invalid evs :
    Validator.errors validationResult ≠ [] →
    marks evs = [] →
    body_shape
      (failure ("Script validation failed:" +:+ nl
                +:+ Validator.formatValidationResults validationResult))
      None [] evs
| body_init_failed evs e :
    Validator.errors validationResult = [] →
    marks evs = [EvInitializeBrowser (Returns (failure e))] →
    body_shape (failure ("Failed to initialize browser: " +:+ e)) None []
               evs
| body_init_thrown evs e payload :
    Validator.errors validationResult = [] →
    marks evs = [EvInitializeBrowser (Throws e); EvCall "Logger.cleanup"] →
    success payload = false →
    res_stepsExecuted payload = 0 →
    totalSteps payload = N →
    error payload = Some e →
    body_shape (Types.success payload) None [] evs
| body_no_page evs controller :
    Validator.errors validationResult = [] →
    page controller = None →
    marks evs = [EvInitializeBrowser (Returns (Types.success controller))] →
    body_shape (failure "Browser page is not available") (Some controller)
               [] evs
| body_step_failed evs controller ds K msg capture payload shots :
    Validator.errors validationResult = [] →
    page controller ≠ None →
    marks evs
    = EvInitializeBrowser (Returns (Types.success controller))
      :: success_marks 0 ds ++ [EvStepResult K (failure msg)] ++ capture
         ++ [EvCall "Logger.cleanup"] →
    K = Z.of_nat (length ds) + 1 →
    K ≤ N →
    success payload = false →
    res_stepsExecuted payload = K - 1 →
    totalSteps payload = N →
    error payload = Some msg →
    capture_shape config K (step_shots (steps script) ds) capture shots
                  evs →
    body_shape (Types.success payload) (Some controller) shots evs
| body_completed evs controller ds payload :
    Validator.errors validationResult = [] →
    page controller ≠ None →
    length ds = length (steps script) →
    marks evs
    = EvInitializeBrowser (Returns (Types.success controller))
      :: success_marks 0 ds ++ [EvCall "Logger.cleanup"] →
    success payload = true →
    res_stepsExecuted payload = N →
    totalSteps payload = N →
    error payload = None →
    body_shape (Types.success payload) (Some controller)
               (step_shots (steps script) ds) evs.

End Shape.

End RunShape.

(** ** Observations on the events of a run *)

(** The events that a run from [σ] to [σ'] has appended to the trace. *)
Definition new_events {World} (σ σ' : Sys World) : list Event :=
  drop (length (trace σ)) (trace σ').

(** The first step for which the retry executor returned a failure, with
    the message of that failure. *)
Fixpoint first_failure (evs : list Event) : option (Z * string) :=
  match evs with
  | [] => None
  | EvStepResult stepNumber (failure msg) :: _ => Some (stepNumber, msg)
  | _ :: evs' => first_failure evs'
  end.

(** The values that the retry executor returned for the steps. *)
Definition step_result (ev : Event) : option (Z * Result (option string)) :=
  match ev with
  | EvStepResult stepNumber result => Some (stepNumber, result)
  | _ => None
  end.
Definition step_results (evs : list Event)
    : list (Z * Result (option string)) :=
  omap step_result evs.

(** The results of steps [i+1], [i+2], ... that succeeded with [ds]. *)
Fixpoint successes (i : Z) (ds : list (option string))
    : list (Z * Result (option string)) :=
  match ds with
  | [] => []
  | d :: ds' => (i + 1, Types.success d) :: successes (i + 1) ds'
  end.

(** The close calls, with what each one threw. *)
Definition close_call (ev : Event) : option (CloseTarget * option string) :=
  match ev with
  | EvClose target thrown => Some (target, thrown)
  | _ => None
  end.
Definition closes_of (evs : list Event)
    : list (CloseTarget * option string) :=
  omap close_call evs.

(** The functions entered. *)
Definition entered (ev : Event) : option string :=
  match ev with
  | EvCall function => Some function
  | _ => None
  end.
Definition calls_of (evs : list Event) : list string := omap entered evs.

(** The sessions that [initializeBrowser] returned. *)
Definition session (ev : Event) : option BrowserController :=
  match ev with
  | EvInitializeBrowser (Returns (Types.success controller)) =>
      Some controller
  | _ => None
  end.
Definition sessions_of (evs : list Event) : list BrowserController :=
  omap session evs.

(** The calls of [takeScreenshot] made by the engine, with the way each
    one completed. *)
Definition screenshot_call (ev : Event)
    : option (string * Z * Completion (Result string)) :=
  match ev with
  | EvTakeScreenshot filename stepNumber outcome =>
      Some (filename, stepNumber, outcome)
  | _ => None
  end.
Definition screenshot_calls (evs : list Event)
    : list (string * Z * Completion (Result string)) :=
  omap screenshot_call evs.

(** The best-effort capture after the failure of step [K], in a run with
    the events [evs]: [before] are the paths pushed by the steps before
    [K], and [shots] is the list of the payload. Without
    [screenshotOnError] nothing is captured. With it [takeScreenshot] is
    called once; a path it returns is appended; when it returns a failure
    or throws, the list is left as it was and the failure is logged at
    error level. *)
Definition error_capture (config : Config.AutoConfig) (K : Z)
    (before shots : list string) (evs : list Event) : Prop :=
  if Config.screenshotOnError (Config.actions config)
  then
    ∃ filename outcome,
      screenshot_calls evs = [(filename, K, outcome)]
      ∧ match outcome with
        | Returns (Types.success path) => shots = before ++ [path]
        | _ =>
            shots = before
            ∧ ∃ entry,
                level entry = ERROR
                ∧ LoggerTypes.message entry
                  = "Failed to capture error screenshot"
                ∧ EvConsole to_error (OutEntry entry) ∈ evs
        end
  else screenshot_calls evs = [] ∧ shots = before.

(** The ways in which the calls of [initializeBrowser] completed. *)
Definition browser_outcome (ev : Event)
    : option (Completion (Result BrowserController)) :=
  match ev with
  | EvInitializeBrowser outcome => Some outcome
  | _ => None
  end.
Definition browser_outcomes (evs : list Event)
    : list (Completion (Result BrowserController)) :=
  omap browser_outcome evs.

(** The calls of [initializeBrowser]. *)
Definition browser_opening (ev : Event) : bool :=
  match ev with
  | EvInitializeBrowser _ => true
  | _ => false
  end.

(** What [closeBrowser] closes of a session: the handles in the order
    page, context, browser, up to the first close that throws. *)
Fixpoint closed_until_throw (closes : list (CloseTarget * option string))
    (targets : list CloseTarget) : Prop :=
  match targets with
  | [] => closes = []
  | target :: targets' =>
      ∃ thrown closes',
        closes = (target, thrown) :: closes'
        ∧ match thrown with
          | None => closed_until_throw closes' targets'
          | Some _ => closes' = []
          end
  end.

(** ** The courses of a run, as observed

    The value returned by [executeScript] together with what the events
    [evs] of the run show: how [initializeBrowser] completed, the results
    of the steps, the functions entered, the close calls and the
    screenshots taken by the engine. *)
Section Course.
Import Engine.
Context {World : Type} (URL_parses : string → bool)
        (script : AutomationScript) (config : Config.AutoConfig).

#[local] Abbreviation validationResult :=
  (Validator.validateScript URL_parses script).
#[local] Abbreviation N := (Z.of_nat (length (steps script))).

Inductive run_course
    : Result (ExecutionResult World) → list Event → Prop :=
| course_invalid evs :
    Validator.errors validationResult ≠ [] →
    browser_outcomes evs = [] → step_results evs = [] →
    calls_of evs = [] → closes_of evs = [] → screenshot_calls evs = [] →
    run_course
      (failure ("Script validation failed:" +:+ nl
                +:+ Validator.formatValidationResults validationResult))
      evs
| course_init_failed evs e :
    Validator.errors validationResult = [] →
    browser_outcomes evs = [Returns (failure e)] → step_results evs = [] →
    calls_of evs = [] → closes_of evs = [] → screenshot_calls evs = [] →
    run_course (failure ("Failed to initialize browser: " +:+ e)) evs
| course_init_thrown evs e payload :
    Validator.errors validationResult = [] →
    browser_outcomes evs = [Throws e] → step_results evs = [] →
    calls_of evs = ["Logger.cleanup"] → closes_of evs = [] →
    screenshot_calls evs = [] →
    success payload = false → res_stepsExecuted payload = 0 →
    totalSteps payload = N → error payload = Some e →
    run_course (Types.success payload) evs
| course_no_page evs controller :
    Validator.errors validationResult = [] →
    page controller = None →
    browser_outcomes evs = [Returns (Types.success controller)] →
    step_results evs = [] → calls_of evs = ["closeBrowser"] →
    closed_until_throw (closes_of evs) (close_targets controller) →
    screenshot_calls evs = [] →
    run_course (failure "Browser page is not available") evs
| course_step_failed evs controller ds K msg payload :
    Validator.errors validationResult = [] →
    page controller ≠ None →
    browser_outcomes evs = [Returns (Types.success controller)] →
    step_results evs = successes 0 ds ++ [(K, failure msg)] →
    K = Z.of_nat (length ds) + 1 → K ≤ N →
    calls_of evs = ["Logger.cleanup"; "closeBrowser"] →
    closed_until_throw (closes_of evs) (close_targets controller) →
    success payload = false → res_stepsExecuted payload = K - 1 →
    totalSteps payload = N → error payload = Some msg →
    error_capture config K (step_shots (steps script) ds)
                  (res_screenshots payload) evs →
    run_course (Types.success payload) evs
| course_completed evs controller ds payload :
    Validator.errors validationResult = [] →
    page controller ≠ None →
    browser_outcomes evs = [Returns (Types.success controller)] →
    step_results evs = successes 0 ds →
    length ds = length (steps script) →
    calls_of evs = ["Logger.cleanup"; "closeBrowser"] →
    closed_until_throw (closes_of evs) (close_targets controller) →
    screenshot_calls evs = [] →
    success payload = true → res_stepsExecuted payload = N →
    totalSteps payload = N → error payload = None →
    res_screenshots payload = step_shots (steps script) ds →
    run_course (Types.success payload) evs.

End Course.

(** ** A scripted host

    A host whose world is a clock. The browser session has all three
    handles; the second step of a script fails; the outcome of
    [takeScreenshot] and what [page.close()] throws are parameters. *)
Module Scenario.

Definition controller : BrowserController :=
  {| Host.browser := Some 1; context := Some 2; page := Some 3 |}.

Definition host (shot : Completion (Result string))
    (page_close : option string) : Env Z :=
  {| Date_now := λ w, (w, w + 1);
     generateSessionId := λ w, ("session-1", w);
     join := λ dir file, dir +:+ "/" +:+ file;
     URL_parses := λ _, true;
     existsSync := λ _ _, true;
     mkdir := λ _ w, (Returns (), w);
     writeFile := λ _ _ _ w, (Returns (), w);
     stat_size := λ _ w, (Returns 0, w);
     rotateLogIfNeeded := λ _ _ _ w, w;
     setTimeout := λ _ w, w;
     initializeBrowser := λ _ w,
       (Returns (Types.success controller), [], w);
     executeActionStep := λ _ _ _ stepNumber w,
       (Returns (if stepNumber =? 2 then failure "Element is detached"
                 else Types.success None), [], w);
     takeScreenshot := λ _ _ _ _ w, (shot, [], w);
     close := λ target _ w,
       (match target with close_page => page_close | _ => None end, w) |}.

Definition config : Config.AutoConfig :=
  {| Config.browser :=
       {| Config.browser_type := "chromium"; Config.headless := true;
          Config.viewport := {| Config.width := 1280;
                                Config.height := 720 |};
          Config.slowMo := 0; Config.browser_timeout := 30000 |};
     Config.actions :=
       {| Config.waitBetweenActions := 0; Config.retryAttempts := 3;
          Config.screenshotOnError := true |};
     Config.logging :=
       {| Config.level := "info"; Config.outputDir := "logs";
          Config.saveScreenshots := true; Config.verbose := false |} |}.

Definition click_step (selector : string) : ActionStep :=
  {| Types.type := click; selector := Some selector; value := None;
     url := None; timeout := None; description := None |}.

(** Three steps; on the scripted host the second one fails. *)
Definition script : AutomationScript :=
  {| Types.name := "checkout"; script_description := None; baseUrl := None;
     steps := [click_step "#cart"; click_step "#pay";
               click_step "#done"] |}.

(** A script without steps, which the validator rejects. *)
Definition empty_script : AutomationScript :=
  {| Types.name := "empty"; script_description := None; baseUrl := None;
     steps := [] |}.

Definition start : Sys Z := {| world := 0; trace := [] |}.

(** A session without a page. *)
Definition pageless : BrowserController :=
  {| Host.browser := Some 1; context := Some 2; page := None |}.

(** A host on which [initializeBrowser] completes with [opening] and every
    step succeeds. *)
Definition opening_host
    (opening : Completion (Result BrowserController)) : Env Z :=
  {| Date_now := λ w, (w, w + 1);
     generateSessionId := λ w, ("session-1", w);
     join := λ dir file, dir +:+ "/" +:+ file;
     URL_parses := λ _, true;
     existsSync := λ _ _, false;
     mkdir := λ _ w, (Returns (), w);
     writeFile := λ _ _ _ w, (Returns (), w);
     stat_size := λ _ w, (Returns 0, w);
     rotateLogIfNeeded := λ _ _ _ w, w;
     setTimeout := λ _ w, w;
     initializeBrowser := λ _ w, (opening, [], w);
     executeActionStep := λ _ _ _ _ w,
       (Returns (Types.success None), [], w);
     takeScreenshot := λ _ _ _ _ w,
       (Returns (failure "disk full"), [], w);
     close := λ _ _ w, (None, w) |}.

(** [config] with the logging level [debug]. *)
Definition debug_config : Config.AutoConfig :=
  {| Config.browser := Config.browser config;
     Config.actions := Config.actions config;
     Config.logging :=
       {| Config.level := "debug"; Config.outputDir := "logs";
          Config.saveScreenshots := true; Config.verbose := false |} |}.

(** The logger of a session under [debug_config]. *)
Definition debug_logger : Logger :=
  {| LoggerTypes.config := Logger.createLoggerConfig debug_config;
     logBuffer := []; sessionId := "session-1";
     logFilePath := "logs/session-1.log"; LoggerTypes.screenshots := [] |}.

(** The logger of a session under [config]. *)
Definition logger : Logger :=
  {| LoggerTypes.config := Logger.createLoggerConfig config;
     logBuffer := []; sessionId := "session-1";
     logFilePath := "logs/session-1.log"; LoggerTypes.screenshots := [] |}.

(** The same logger with the minimum level [WARN]. *)
Definition warn_logger : Logger :=
  {| LoggerTypes.config :=
       {| cfg_level := WARN; cfg_outputDir := "logs";
          enableFileLogging := true; enableConsoleLogging := true;
          format := format_structured; maxFileSize := 50; maxFiles := 10;
          includeTimestamp := true; includeStackTrace := false |};
     logBuffer := []; sessionId := "session-1";
     logFilePath := "logs/session-1.log"; LoggerTypes.screenshots := [] |}.

(** For the retry executor the store is the list of the pauses made. *)
Definition pauses : ErrorHandler.RetryEnv (list Z) :=
  {| ErrorHandler.console_log := λ _ σ, σ;
     ErrorHandler.sleep := λ ms σ, σ ++ [ms] |}.

(** An operation that always returns the failure [msg]. *)
Definition failing (msg : string) : M (list Z) (Result unit) :=
  λ σ, (Ok (failure msg), σ).

(** An operation that always throws [msg]. *)
Definition throwing (msg : string) : M (list Z) (Result unit) :=
  λ σ, (Throw msg, σ).

(** An operation that always succeeds. *)
Definition succeeding : M (list Z) (Result unit) :=
  λ σ, (Ok (Types.success ()), σ).

(** An operation that is refused until one pause has been made. *)
Definition flaky : M (list Z) (Result unit) :=
  λ σ, match σ with
       | [] => (Ok (failure "Connection refused"), σ)
       | _ => (Ok (Types.success ()), σ)
       end.

(** [config] with another global retry budget. *)
Definition budget (n : Z) : Config.AutoConfig :=
  {| Config.browser := Config.browser config;
     Config.actions :=
       {| Config.waitBetweenActions := 0; Config.retryAttempts := n;
          Config.screenshotOnError := true |};
     Config.logging := Config.logging config |}.

(** A strategy with base delay 1000. *)
Definition strategy (backoff : ErrorHandler.Backoff)
    : ErrorHandler.RetryStrategy unit :=
  {| ErrorHandler.maxAttempts := 3; ErrorHandler.delay := 1000;
     ErrorHandler.backoff := backoff;
     ErrorHandler.recoveryActions := None |}.

(** The double quote. *)
Definition quote : string := String (ascii_of_nat 34) EmptyString.

(** Two documents and their texts. In the first the value typed is the
    empty string; in the second the [click] step has no selector and the
    last step is [null]. *)
Definition open_login : Parser.Json Z :=
  Parser.JObject [("type", Parser.JString "navigate");
                  ("url", Parser.JString "https://example.com/login")].

Definition login_document : Parser.Json Z :=
  Parser.JObject
    [("name", Parser.JString "login");
     ("steps",
      Parser.JArray
        [open_login;
         Parser.JObject [("type", Parser.JString "type");
                         ("selector", Parser.JString "#user");
                         ("value", Parser.JString "")];
         Parser.JObject [("type", Parser.JString "wait");
                         ("timeout", Parser.JNumber 500)]])].

Definition login_text : string :=
  "{" +:+ quote +:+ "name" +:+ quote +:+ ":" +:+ quote +:+ "login" +:+
  quote +:+ "," +:+ quote +:+ "steps" +:+ quote +:+ ":[{" +:+ quote +:+
  "type" +:+ quote +:+ ":" +:+ quote +:+ "navigate" +:+ quote +:+ "," +:+
  quote +:+ "url" +:+ quote +:+ ":" +:+ quote +:+
  "https://example.com/login" +:+ quote +:+ "},{" +:+ quote +:+ "type" +:+
  quote +:+ ":" +:+ quote +:+ "type" +:+ quote +:+ "," +:+ quote +:+
  "selector" +:+ quote +:+ ":" +:+ quote +:+ "#user" +:+ quote +:+ "," +:+
  quote +:+ "value" +:+ quote +:+ ":" +:+ quote +:+ quote +:+ "},{" +:+
  quote +:+ "type" +:+ quote +:+ ":" +:+ quote +:+ "wait" +:+ quote +:+
  "," +:+ quote +:+ "timeout" +:+ quote +:+ ":500}]}".

Definition bare_click : Parser.Json Z :=
  Parser.JObject [("type", Parser.JString "click")].

Definition broken_document : Parser.Json Z :=
  Parser.JObject
    [("name", Parser.JString "login");
     ("steps", Parser.JArray [open_login; bare_click; Parser.JNull])].

Definition broken_text : string :=
  "{" +:+ quote +:+ "name" +:+ quote +:+ ":" +:+ quote +:+ "login" +:+
  quote +:+ "," +:+ quote +:+ "steps" +:+ quote +:+ ":[{" +:+ quote +:+
  "type" +:+ quote +:+ ":" +:+ quote +:+ "navigate" +:+ quote +:+ "," +:+
  quote +:+ "url" +:+ quote +:+ ":" +:+ quote +:+
  "https://example.com/login" +:+ quote +:+ "},{" +:+ quote +:+ "type" +:+
  quote +:+ ":" +:+ quote +:+ "click" +:+ quote +:+ "},null]}".

(** A runtime with whole numbers that parses the two texts. *)
Definition runtime : Parser.Runtime Z :=
  {| Parser.number_falsy := λ n, n =? 0;
     Parser.number_le_zero := λ n, n <=? 0;
     Parser.to_text := λ _, "[object Object]";
     Parser.TypeError_null := λ k,
       "TypeError: Cannot read properties of null (reading '" +:+ k +:+ "')";
     Parser.JSON_parse := λ jsonContent,
       if String.eqb jsonContent login_text then Returns login_document
       else if String.eqb jsonContent broken_text
            then Returns broken_document
            else Throws "SyntaxError: Unexpected end of JSON input" |}.

End Scenario.

(* ===================================================================== *)
(** * Properties *)
(* ===================================================================== *)

(** ** Strings *)

Lemma startsWith_spec (s p : string) :
  startsWith s p = true ↔ ∃ post, s = p +:+ post.
Proof.
  revert s. induction p as [|b p IH]; intros s; simpl.
  - split; [intros _; by exists s | done].
  - destruct s as [|a s].
    + split; [done | intros [post H]; discriminate].
    + rewrite andb_true_iff, Ascii.eqb_eq, IH. split.
      * intros [-> [post ->]]. by exists post.
      * intros [post [= -> ->]]. split; [done | by exists post].
Qed.

Lemma includes_spec (s needle : string) :
  includes s needle = true ↔ ∃ pre post, s = pre +:+ needle +:+ post.
Proof.
  induction s as [|a s IH]; simpl; rewrite orb_true_iff, startsWith_spec.
  - split.
    + intros [[post H]|?]; [|done]. by exists "", post.
    + intros [pre [post H]]. left. destruct pre; [by exists post|done].
  - rewrite IH. split.
    + intros [[post H]|[pre [post ->]]].
      * by exists "", post.
      * by exists (String a pre), post.
    + intros [[|c pre] [post H]].
      * left. by exists post.
      * right. injection H as -> ->. by exists pre, post.
Qed.

Lemma toLowerCase_app (s t : string) :
  toLowerCase (s +:+ t) = toLowerCase s +:+ toLowerCase t.
Proof. induction s as [|a s IH]; simpl; [done | by rewrite IH]. Qed.

Lemma toLowerCase_split (s u v : string) :
  toLowerCase s = u +:+ v →
  ∃ s1 s2, s = s1 +:+ s2 ∧ toLowerCase s1 = u ∧ toLowerCase s2 = v.
Proof.
  revert s. induction u as [|b u IH]; intros s H; simpl in H.
  - by exists "", s.
  - destruct s as [|a s]; [done|]. simpl in H. injection H as Ha Hs.
    destruct (IH _ Hs) as (s1 & s2 & -> & H1 & H2).
    exists (String a s1), s2. simpl. by rewrite Ha, H1.
Qed.

Lemma contains_ci_includes (e marker : string) :
  contains_ci e marker ↔ includes (toLowerCase e) marker = true.
Proof.
  rewrite includes_spec. split.
  - intros (pre & mid & post & -> & <-).
    exists (toLowerCase pre), (toLowerCase post).
    by rewrite !toLowerCase_app.
  - intros (pre' & post' & H).
    apply toLowerCase_split in H as (pre & rest & -> & Hpre & H).
    apply toLowerCase_split in H as (mid & post & -> & Hmid & Hpost).
    by exists pre, mid, post.
Qed.

(** ** The error classifier *)

Section ClassifierProps.
Import ErrorHandler.
Context {St : Type}.
#[local] Abbreviation classify := (classifyError (St:=St)).

(** Every classification carries the table's strategy for its kind. *)
Lemma classifyError_strategy error step stepNumber :
  strategy (classify error step stepNumber)
  = Some (DEFAULT_RETRY_STRATEGIES
            (type (classify error step stepNumber))).
Proof. unfold classifyError. by repeat case_match. Qed.

(** Only validation errors are not retryable. *)
Lemma classifyError_isRetryable error step stepNumber :
  isRetryable (classify error step stepNumber)
  = bool_decide (type (classify error step stepNumber) ≠ VALIDATION_ERROR).
Proof. unfold classifyError. by repeat case_match. Qed.

(** No entry of the strategy table allows more than five attempts, and
    every retryable kind allows at least two. *)
Lemma DEFAULT_RETRY_STRATEGIES_maxAttempts (t : ErrorType) :
  1 ≤ maxAttempts (DEFAULT_RETRY_STRATEGIES (St:=St) t) ≤ 5
  ∧ (t ≠ VALIDATION_ERROR →
     2 ≤ maxAttempts (DEFAULT_RETRY_STRATEGIES (St:=St) t)).
Proof. destruct t; simpl; split; (lia || done). Qed.

Lemma DEFAULT_RETRY_STRATEGIES_no_recovery (t : ErrorType) :
  recoveryActions (DEFAULT_RETRY_STRATEGIES (St:=St) t) = None.
Proof. by destruct t. Qed.

Lemma not_network_marker error :
  (∀ m, m ∈ network_markers → ¬ contains_ci error m) →
  includes (toLowerCase error) "net::"
  || includes (toLowerCase error) "network"
  || includes (toLowerCase error) "connection"
  || includes (toLowerCase error) "dns"
  || includes (toLowerCase error) "refused" = false.
Proof.
  intros H. rewrite !orb_false_iff.
  repeat split; apply not_true_is_false; rewrite <-contains_ci_includes;
    apply H; unfold network_markers; set_solver.
Qed.

(** C3, as amended. A raw error message that contains ["timeout"] up to
    letter case, and none of the network keywords (["net::"], ["network"],
    ["connection"], ["dns"], ["refused"]) up to letter case, is classified
    as [TIMEOUT_ERROR] and is retryable. The element-not-found keywords
    play no role: the timeout test comes before theirs. *)
Theorem classifyError_timeout error step stepNumber :
  contains_ci error "timeout" →
  (∀ m, m ∈ network_markers → ¬ contains_ci error m) →
  type (classify error step stepNumber) = TIMEOUT_ERROR
  ∧ isRetryable (classify error step stepNumber) = true.
Proof.
  intros Ht Hn. apply contains_ci_includes in Ht.
  apply not_network_marker in Hn.
  unfold classifyError. rewrite Hn, Ht. done.
Qed.


End ClassifierProps.

(** ** The retry executor *)

Section RetryProps.
Import ErrorHandler.
Context {St T : Type} (env : RetryEnv St) (operation : M St (Result T))
        (config : Config.AutoConfig) (step : option ActionStep)
        (stepNumber : option Z).

#[local] Abbreviation classify := (classifyError (St:=St)).
#[local] Abbreviation budget := (Config.retryAttempts (Config.actions config)).
#[local] Abbreviation body := (loop_body env operation config step stepNumber).
#[local] Abbreviation table := (DEFAULT_RETRY_STRATEGIES (St:=St)).

Lemma loop_body_success σ σ' data attempt :
  operation σ = (Ok (success data), σ') →
  body attempt σ
  = (Ok (Return (success data)),
     if (1 <? attempt) && is_verbose config
     then console_log env (SucceededOnAttempt stepNumber attempt) σ'
     else σ').
Proof.
  intros H. unfold loop_body, try_catch, bind. rewrite H.
  unfold when. by destruct ((1 <? attempt) && is_verbose config).
Qed.

Lemma loop_body_throw σ σ' e attempt :
  operation σ = (Throw e, σ') →
  body attempt σ = (Ok (Break (Some (classify e step stepNumber))), σ').
Proof. intros H. unfold loop_body, try_catch, bind. by rewrite H. Qed.

Lemma loop_body_out_of_fuel σ σ' attempt :
  operation σ = (OutOfFuel, σ') → body attempt σ = (OutOfFuel, σ').
Proof. intros H. unfold loop_body, try_catch, bind. by rewrite H. Qed.

(** A declared failure stops the loop when it is not retryable or when the
    attempts allowed by its kind and by the budget are used up. *)
Lemma loop_body_failure_break σ σ' msg attempt :
  operation σ = (Ok (failure msg), σ') →
  let ce := classify msg step stepNumber in
  isRetryable ce = false
  ∨ Z.min (maxAttempts (table (type ce))) budget
    ≤ attempt →
  body attempt σ = (Ok (Break (Some ce)), σ').
Proof.
  intros H ce Hstop. unfold loop_body, try_catch, bind. rewrite H.
  rewrite (classifyError_strategy msg step stepNumber). fold ce.
  destruct Hstop as [-> | Hle]; [done|].
  apply Z.leb_le in Hle. rewrite Hle, orb_true_r. done.
Qed.

(** Otherwise the body pauses and falls through to [attempt++]. *)
Lemma loop_body_failure_next σ σ' msg attempt :
  operation σ = (Ok (failure msg), σ') →
  let ce := classify msg step stepNumber in
  isRetryable ce = true →
  attempt < Z.min (maxAttempts (table (type ce))) budget →
  body attempt σ
  = (Ok (Next (Some ce)), retry_pause env config stepNumber ce attempt σ').
Proof.
  intros H ce Hretry Hlt. unfold loop_body, try_catch, bind. rewrite H.
  rewrite (classifyError_strategy msg step stepNumber). fold ce.
  rewrite Hretry. apply Z.leb_gt in Hlt. rewrite Hlt. simpl.
  rewrite DEFAULT_RETRY_STRATEGIES_no_recovery.
  unfold retry_pause, when, modify, ret, is_verbose.
  destruct (Config.verbose _); simpl;
    destruct (0 <? calculateRetryDelay _ _); done.
Qed.

End RetryProps.

Section RetryLoopProps.
Import ErrorHandler.
Context {St T : Type} (env : RetryEnv St) (operation : M St (Result T))
        (config : Config.AutoConfig) (step : option ActionStep)
        (stepNumber : option Z).

#[local] Abbreviation body := (loop_body env operation config step stepNumber).
#[local] Abbreviation loop := (retry_loop env operation config step stepNumber).
#[local] Abbreviation retry :=
  (executeWithSmartRetry env operation config step stepNumber).
#[local] Abbreviation classify := (classifyError (St:=St)).
#[local] Abbreviation table := (DEFAULT_RETRY_STRATEGIES (St:=St)).
#[local] Abbreviation budget := (Config.retryAttempts (Config.actions config)).

Lemma retry_loop_return fuel attempt σ σ' result :
  body attempt σ = (Ok (Return result), σ') →
  loop (S fuel) attempt σ = (Ok (Returned result), σ').
Proof. intros H. simpl. unfold bind. by rewrite H. Qed.

Lemma retry_loop_break fuel attempt σ σ' lastError :
  body attempt σ = (Ok (Break lastError), σ') →
  loop (S fuel) attempt σ = (Ok (Broke lastError attempt), σ').
Proof. intros H. simpl. unfold bind. by rewrite H. Qed.

Lemma retry_loop_next fuel attempt σ σ' lastError :
  body attempt σ = (Ok (Next lastError), σ') →
  loop (S fuel) attempt σ = loop fuel (attempt + 1) σ'.
Proof. intros H. simpl. unfold bind. by rewrite H. Qed.

Lemma retry_loop_S fuel attempt σ :
  loop (S fuel) attempt σ
  = (let (r, σ') := body attempt σ in
     match r with
     | Ok (Return result) => (Ok (Returned result), σ')
     | Ok (Break lastError) => (Ok (Broke lastError attempt), σ')
     | Ok (Next _) => loop fuel (attempt + 1) σ'
     | Throw e => (Throw e, σ')
     | OutOfFuel => (OutOfFuel, σ')
     end).
Proof.
  simpl. unfold bind. by destruct (body attempt σ) as [[[]| |] ?].
Qed.

(** The epilogue of [executeWithSmartRetry] leaves the store alone. *)
Lemma executeWithSmartRetry_store σ :
  (retry σ).2 = (loop retry_fuel 1 σ).2.
Proof.
  unfold executeWithSmartRetry, bind.
  by destruct (loop retry_fuel 1 σ) as [[[]| |] ?].
Qed.

Lemma executeWithSmartRetry_broke σ σ' ce attempt :
  loop retry_fuel 1 σ = (Ok (Broke (Some ce) attempt), σ') →
  retry σ = (Ok (failure (message ce +:+ " (" +:+ ErrorType_value (type ce)
                          +:+ ", attempted " +:+ show attempt +:+ " times)")),
             σ').
Proof. intros H. unfold executeWithSmartRetry, bind. by rewrite H. Qed.

Lemma executeWithSmartRetry_returned σ σ' result :
  loop retry_fuel 1 σ = (Ok (Returned result), σ') →
  retry σ = (Ok result, σ').
Proof. intros H. unfold executeWithSmartRetry, bind. by rewrite H. Qed.

(** The body of the loop never throws, and runs out of fuel only if the
    operation does. *)
Lemma loop_body_completes attempt σ :
  (∃ exit σ', body attempt σ = (Ok exit, σ'))
  ∨ (∃ σ', operation σ = (OutOfFuel, σ')).
Proof.
  destruct (operation σ) as [[[data|msg]|e|] σ'] eqn:H.
  - left. erewrite loop_body_success by done. eauto.
  - left.
    destruct (isRetryable (classify msg step stepNumber)) eqn:Hr.
    + destruct (Z.lt_ge_cases attempt
        (Z.min (maxAttempts (table (type (classify msg step stepNumber))))
               budget)).
      * erewrite loop_body_failure_next by done. eauto.
      * erewrite loop_body_failure_break by eauto. eauto.
    + erewrite loop_body_failure_break by eauto. eauto.
  - left. erewrite loop_body_throw by done. eauto.
  - right. eauto.
Qed.

(** The body falls through to the next attempt only below the fifth. *)
Lemma loop_body_next_bound attempt σ σ' lastError :
  body attempt σ = (Ok (Next lastError), σ') → attempt < 5.
Proof.
  intros H.
  destruct (operation σ) as [[[data|msg]|e|] σ1] eqn:Hop.
  - by erewrite loop_body_success in H.
  - destruct (isRetryable (classify msg step stepNumber)) eqn:Hr.
    + destruct (Z.lt_ge_cases attempt
        (Z.min (maxAttempts (table (type (classify msg step stepNumber))))
               budget)) as [Hlt|Hge].
      * pose proof (DEFAULT_RETRY_STRATEGIES_maxAttempts (St:=St)
                      (type (classify msg step stepNumber))). lia.
      * by erewrite loop_body_failure_break in H by eauto.
    + by erewrite loop_body_failure_break in H by eauto.
  - by erewrite loop_body_throw in H.
  - by erewrite loop_body_out_of_fuel in H.
Qed.

(** Termination of [while (true)]: started at attempt 1 with the fuel of
    [executeWithSmartRetry], or anywhere with [5 < attempt + fuel], the
    loop leaves by [return] or [break] unless the operation itself does
    not terminate. *)
Lemma retry_loop_enough_fuel (fuel : nat) attempt σ :
  (0 < fuel)%nat → 5 < attempt + Z.of_nat fuel →
  (∀ σ0, (operation σ0).1 ≠ OutOfFuel) →
  ∃ exit σ', loop fuel attempt σ = (Ok exit, σ').
Proof.
  intros Hpos Hfuel Hop. revert attempt σ Hpos Hfuel.
  induction fuel as [|fuel IH]; intros attempt σ Hpos Hfuel; [lia|].
  destruct (loop_body_completes attempt σ) as [(exit & σ' & H)|[σ' H]].
  - destruct exit as [result|lastError|lastError].
    + erewrite retry_loop_return by done. eauto.
    + erewrite retry_loop_break by done. eauto.
    + erewrite retry_loop_next by done.
      apply loop_body_next_bound in H. apply IH; lia.
  - specialize (Hop σ). rewrite H in Hop. done.
Qed.

Lemma executeWithSmartRetry_terminates σ :
  (∀ σ0, (operation σ0).1 ≠ OutOfFuel) →
  ∃ result σ', retry σ = (Ok result, σ').
Proof.
  intros Hop.
  destruct (retry_loop_enough_fuel retry_fuel 1 σ) as (exit & σ' & H);
    [unfold retry_fuel; lia | unfold retry_fuel; lia | done |].
  unfold executeWithSmartRetry, bind. rewrite H.
  destruct exit as [result|lastError attempt]; simpl; eauto.
Qed.

End RetryLoopProps.

(** ** Counting invocations *)

Section RetryCounting.
Import ErrorHandler.
Context {St T : Type} (env : RetryEnv St) (operation : M St (Result T))
        (config : Config.AutoConfig) (step : option ActionStep)
        (stepNumber : option Z).

#[local] Abbreviation classify := (classifyError (St:=St * nat)).
#[local] Abbreviation table := (DEFAULT_RETRY_STRATEGIES (St:=St * nat)).
#[local] Abbreviation budget := (Config.retryAttempts (Config.actions config)).
#[local] Abbreviation body :=
  (loop_body (counting_env env) (counted operation) config step stepNumber).
#[local] Abbreviation loop :=
  (retry_loop (counting_env env) (counted operation) config step stepNumber).
#[local] Abbreviation retry :=
  (executeWithSmartRetry (counting_env env) (counted operation) config step
     stepNumber).

Lemma counted_eq σ σ' (k : nat) r :
  operation σ = (r, σ') → counted operation (σ, k) = (r, (σ', S k)).
Proof. intros H. unfold counted. by rewrite H. Qed.

Lemma retry_pause_counting ce attempt σ (k : nat) :
  (retry_pause (counting_env env) config stepNumber ce attempt (σ, k)).2 = k.
Proof.
  unfold retry_pause. simpl.
  destruct (Config.verbose _); simpl; by destruct (0 <? _).
Qed.

(** One pass through the loop invokes the operation exactly once. *)
Lemma loop_body_counts attempt σ (k : nat) :
  (body attempt (σ, k)).2.2 = S k.
Proof.
  destruct (operation σ) as [[[data|msg]|e|] σ'] eqn:H;
    apply (counted_eq _ _ k) in H.
  - erewrite loop_body_success by done. simpl. by destruct (_ && _).
  - destruct (isRetryable (classify msg step stepNumber)) eqn:Hr.
    + destruct (Z.lt_ge_cases attempt
        (Z.min (maxAttempts (table (type (classify msg step stepNumber))))
               budget)).
      * erewrite loop_body_failure_next by done. simpl.
        apply retry_pause_counting.
      * by erewrite loop_body_failure_break by eauto.
    + by erewrite loop_body_failure_break by eauto.
  - by erewrite loop_body_throw by done.
  - by erewrite loop_body_out_of_fuel by done.
Qed.

Lemma retry_loop_counts fuel attempt σ (k : nat) :
  (k < (loop (S fuel) attempt (σ, k)).2.2)%nat.
Proof.
  revert attempt σ k. induction fuel as [|fuel IH]; intros attempt σ k;
    pose proof (loop_body_counts attempt σ k) as Hk;
    rewrite retry_loop_S;
    destruct (body attempt (σ, k)) as [[[result|le|le]|e|] [σ' k']];
    simpl in Hk; subst k'; try (simpl; lia).
  specialize (IH (attempt + 1) σ' (S k)). lia.
Qed.


(** C4. An operation whose declared failure is classified as a validation
    error is invoked exactly once, whatever the global retry budget, and
    the executor returns a failure. *)
Theorem executeWithSmartRetry_validation_once σ σ' msg :
  operation σ = (Ok (failure msg), σ') →
  type (classify msg step stepNumber) = VALIDATION_ERROR →
  retry (σ, 0%nat)
  = (Ok (failure
           "Script validation failed (validation_error, attempted 1 times)"),
     (σ', 1%nat)).
Proof.
  intros H Hv. apply (counted_eq _ _ 0) in H.
  assert (Hm : message (classify msg step stepNumber)
               = "Script validation failed").
  { revert Hv. unfold classifyError. by repeat case_match. }
  rewrite (executeWithSmartRetry_broke _ _ _ _ _ _ (σ', 1%nat)
             (classify msg step stepNumber) 1).
  - rewrite Hv, Hm. reflexivity.
  - unfold retry_fuel. apply retry_loop_break.
    apply loop_body_failure_break; [done|]. left.
    rewrite classifyError_isRetryable, Hv. done.
Qed.

(** C10. The operation is invoked at least once on every input; when the
    global retry budget is at most 1 (0 included), an operation that fails
    (by a declared failure or by throwing) is invoked exactly once and the
    returned failure message reports [attempted 1 times]. *)
Theorem executeWithSmartRetry_at_least_once :
  (∀ σ k, (k < (retry (σ, k)).2.2)%nat)
  ∧ (budget ≤ 1 →
     ∀ σ σ' msg, fails_with operation σ msg σ' →
       let ce := classify msg step stepNumber in
       retry (σ, 0%nat)
       = (Ok (failure (message ce +:+ " (" +:+ ErrorType_value (type ce)
                       +:+ ", attempted 1 times)")),
          (σ', 1%nat))).
Proof.
  split.
  - intros σ k. rewrite executeWithSmartRetry_store.
    apply retry_loop_counts.
  - intros Hbudget σ σ' msg Hfail ce.
    apply (executeWithSmartRetry_broke _ _ _ _ _ _ _ _ 1). unfold retry_fuel.
    apply retry_loop_break. destruct Hfail as [H|H].
    + apply (counted_eq _ _ 0) in H.
      apply loop_body_failure_break; [done|]. right. lia.
    + apply (counted_eq _ _ 0) in H. by apply loop_body_throw.
Qed.

End RetryCounting.

(** ** Rules for runs *)

Section RunRules.
Context {St : Type} (tr : St → list Event).

Lemma runs_weaken {A} (c : M St A) σ (Q Q' : Res A → St → list Event → Prop) :
  runs tr c σ Q → (∀ r σ' evs, Q r σ' evs → Q' r σ' evs) → runs tr c σ Q'.
Proof. intros (evs & Htr & HQ) Himp. exists evs. eauto. Qed.

Lemma runs_ret {A} (a : A) σ (Q : Res A → St → list Event → Prop) :
  Q (Ok a) σ [] → runs tr (ret a) σ Q.
Proof. intros H. exists []. simpl. by rewrite app_nil_r. Qed.

Lemma runs_throw {A} e σ (Q : Res A → St → list Event → Prop) :
  Q (Throw e) σ [] → runs tr (throw e) σ Q.
Proof. intros H. exists []. simpl. by rewrite app_nil_r. Qed.

Lemma runs_gets {A} (f : St → A) σ (Q : Res A → St → list Event → Prop) :
  Q (Ok (f σ)) σ [] → runs tr (gets f) σ Q.
Proof. intros H. exists []. simpl. by rewrite app_nil_r. Qed.

Lemma runs_modify (f : St → St) σ (Q : Res unit → St → list Event → Prop) evs :
  tr (f σ) = tr σ ++ evs → Q (Ok ()) (f σ) evs → runs tr (modify f) σ Q.
Proof. intros H1 H2. by exists evs. Qed.

Lemma runs_bind {A B} (c : M St A) (k : A → M St B) σ
    (Q : Res B → St → list Event → Prop) :
  runs tr c σ (λ r σ1 evs1,
    match r with
    | Ok a => runs tr (k a) σ1 (λ r' σ2 evs2, Q r' σ2 (evs1 ++ evs2))
    | Throw e => Q (Throw e) σ1 evs1
    | OutOfFuel => Q OutOfFuel σ1 evs1
    end) →
  runs tr (bind c k) σ Q.
Proof.
  intros (evs1 & H1 & H). unfold runs, bind.
  destruct (c σ) as [[a|e|] σ1]; simpl in *; [|by exists evs1..].
  destruct H as (evs2 & H2 & H). exists (evs1 ++ evs2).
  by rewrite H2, H1, app_assoc.
Qed.

Lemma runs_try_catch {A} (c : M St A) (h : string → M St A) σ
    (Q : Res A → St → list Event → Prop) :
  runs tr c σ (λ r σ1 evs1,
    match r with
    | Throw e => runs tr (h e) σ1 (λ r' σ2 evs2, Q r' σ2 (evs1 ++ evs2))
    | _ => Q r σ1 evs1
    end) →
  runs tr (try_catch c h) σ Q.
Proof.
  intros (evs1 & H1 & H). unfold runs, try_catch.
  destruct (c σ) as [[a|e|] σ1]; simpl in *; [by exists evs1| |by exists evs1].
  destruct H as (evs2 & H2 & H). exists (evs1 ++ evs2).
  by rewrite H2, H1, app_assoc.
Qed.

Lemma runs_try_finally {A} (c : M St A) (f : M St unit) σ
    (Q : Res A → St → list Event → Prop) :
  runs tr c σ (λ r σ1 evs1,
    match r with
    | OutOfFuel => Q OutOfFuel σ1 evs1
    | _ => runs tr f σ1 (λ r' σ2 evs2,
             match r' with
             | Ok _ => Q r σ2 (evs1 ++ evs2)
             | Throw e => Q (Throw e) σ2 (evs1 ++ evs2)
             | OutOfFuel => Q OutOfFuel σ2 (evs1 ++ evs2)
             end)
    end) →
  runs tr (try_finally c f) σ Q.
Proof.
  intros (evs1 & H1 & H). unfold runs, try_finally.
  destruct (c σ) as [[a|e|] σ1]; simpl in *; [| |by exists evs1].
  all: destruct H as (evs2 & H2 & H); exists (evs1 ++ evs2);
    rewrite app_assoc, <-H1;
    destruct (f σ1) as [[[]|e'|] σ2]; simpl in *; done.
Qed.

Lemma runs_when (b : bool) (c : M St unit) σ
    (Q : Res unit → St → list Event → Prop) :
  (if b then runs tr c σ Q else Q (Ok ()) σ []) → runs tr (when b c) σ Q.
Proof. destruct b; [done|]. apply runs_ret. Qed.

End RunRules.

(** ** The host *)

Section HostProps.
Context {World : Type} (env : Env World).

#[local] Abbreviation Sys := (Sys World).

Lemma runs_record ev (σ : Sys) (Q : Res unit → Sys → list Event → Prop) :
  Q (Ok ()) {| world := world σ; trace := trace σ ++ [ev] |} [ev] →
  runs trace (record ev) σ Q.
Proof. intros H. by exists [ev]. Qed.

Lemma runs_console method output (σ : Sys)
    (Q : Res unit → Sys → list Event → Prop) :
  Q (Ok ()) {| world := world σ;
               trace := trace σ ++ [EvConsole method output] |}
    [EvConsole method output] →
  runs trace (console method output) σ Q.
Proof. apply runs_record. Qed.

Lemma runs_ask {A} (f : World → A * World) (σ : Sys)
    (Q : Res A → Sys → list Event → Prop) :
  Q (Ok (f (world σ)).1)
    {| world := (f (world σ)).2; trace := trace σ |} [] →
  runs trace (ask f) σ Q.
Proof.
  intros H. exists []. unfold ask. destruct (f (world σ)) as [a w].
  simpl in *. by rewrite app_nil_r.
Qed.

Lemma runs_attempt {A} (f : World → Completion A * World) (σ : Sys)
    (Q : Res A → Sys → list Event → Prop) :
  Q (match (f (world σ)).1 with Returns a => Ok a | Throws e => Throw e end)
    {| world := (f (world σ)).2; trace := trace σ |} [] →
  runs trace (attempt f) σ Q.
Proof.
  intros H. exists []. unfold attempt. destruct (f (world σ)) as [a w].
  simpl in *. by rewrite app_nil_r.
Qed.

End HostProps.

(** Goals about the events of a run: membership in, and a class of, a
    concatenation of event lists. *)
Ltac events :=
  repeat match goal with
         | |- _ ∧ _ => split
         | |- Forall _ (_ ++ _) => apply Forall_app
         | |- Forall _ [] => apply Forall_nil_2
         | |- Forall _ (_ :: _) => apply Forall_cons
         | |- Forall _ _ => assumption
         | |- _ ∈ _ => set_solver
         | |- Is_true _ => done
         | |- _ = _ => done
         end.

(** ** The session logger *)

Section LoggerProps.
Import Logger.
Context {World : Type} (env : Env World).

#[local] Abbreviation Sys := (Sys World).

Lemma createLoggerConfig_info autoConfig :
  Config.level (Config.logging autoConfig) = "info" →
  cfg_level (createLoggerConfig autoConfig) = INFO.
Proof. intros H. unfold createLoggerConfig. by rewrite H. Qed.

Lemma createLoggerConfig_sinks autoConfig :
  enableConsoleLogging (createLoggerConfig autoConfig) = true
  ∧ enableFileLogging (createLoggerConfig autoConfig) = true
  ∧ format (createLoggerConfig autoConfig) = format_structured.
Proof. done. Qed.

Lemma writeToConsole_runs self entry (σ : Sys) :
  runs trace (writeToConsole (World:=World) self entry) σ (λ r _ evs,
    r = Ok () ∧ Forall logger_event evs
    ∧ EvConsole (console_method (level entry)) (OutEntry entry) ∈ evs).
Proof.
  unfold writeToConsole.
  destruct (level entry) eqn:Hl; simpl;
    try (apply runs_console; events);
    apply runs_bind, runs_console; simpl;
    (destruct (data entry) as [d|]; [apply runs_when; case_match|];
     [apply runs_console| |apply runs_ret]; events).
Qed.

Lemma writeToFile_runs self entry (σ : Sys) :
  runs trace (writeToFile env self entry) σ (λ r _ evs,
    r = Ok () ∧ Forall logger_event evs
    ∧ EvWriteFile (logFilePath self) (FileEntry (format (config self)) entry)
        true ∈ evs).
Proof.
  unfold writeToFile.
  apply runs_try_catch, runs_bind, runs_record; simpl.
  apply runs_bind, runs_attempt.
  destruct (writeFile env _ _ _ _).1; simpl.
  - apply runs_bind, runs_record; simpl. apply runs_ask. events.
  - apply runs_console. events.
Qed.

(** An emission below the minimum changes nothing at all. *)
Lemma log_dropped level category message data step duration self (σ : Sys) :
  below_minimum level self →
  log env level category message data step duration self σ = (Ok self, σ).
Proof.
  intros H. unfold log. apply Z.ltb_lt in H. by rewrite H.
Qed.

(** An admitted emission is appended to the buffer and handed to the
    enabled sinks. *)
Lemma log_admitted level category message data step duration self
    (σ : Sys) :
  ¬ below_minimum level self →
  runs trace (log env level category message data step duration self) σ
    (λ r _ evs,
       ∃ now,
         let entry :=
           entry_of now level category message data step duration in
         r = Ok (with_entry self entry)
         ∧ Forall logger_event evs
         ∧ (enableConsoleLogging (config self) = true →
            EvConsole (console_method level) (OutEntry entry) ∈ evs)
         ∧ (enableFileLogging (config self) = true →
            EvWriteFile (logFilePath self)
              (FileEntry (format (config self)) entry) true ∈ evs)).
Proof.
  intros H. unfold log. apply Z.ltb_nlt in H. rewrite H.
  apply runs_bind, runs_ask. simpl.
  set (now := (Date_now env (world σ)).1).
  apply runs_bind, runs_when.
  destruct (enableConsoleLogging (config self)); simpl.
  - eapply runs_weaken; [apply writeToConsole_runs|].
    intros r σ1 evs1 (-> & Hev1 & Hin1).
    apply runs_bind, runs_when.
    destruct (enableFileLogging (config self)); simpl.
    + apply runs_try_catch. eapply runs_weaken; [apply writeToFile_runs|].
      intros r σ2 evs2 (-> & Hev2 & Hin2).
      apply runs_ret. exists now. events; intros _; set_solver.
    + apply runs_ret. exists now. events; [intros _; set_solver|done].
  - apply runs_bind, runs_when.
    destruct (enableFileLogging (config self)); simpl.
    + apply runs_try_catch. eapply runs_weaken; [apply writeToFile_runs|].
      intros r σ2 evs2 (-> & Hev2 & Hin2).
      apply runs_ret. exists now. events; [done|intros _; set_solver].
    + apply runs_ret. exists now. events; done.
Qed.


(** C9. An emission below the configured minimum is not appended to the
    buffer: the logger that results is the one before, so the session
    summary (total and per-level counts), the execution timeline and the
    exports do not show it; the host is not touched either. *)
Theorem log_below_minimum_not_buffered level category message data step
    duration self (σ : Sys) :
  below_minimum level self →
  ∃ self',
    log env level category message data step duration self σ = (Ok self', σ)
    ∧ logBuffer self' = logBuffer self
    ∧ getSessionSummary self' = getSessionSummary self
    ∧ getExecutionTimeline self' = getExecutionTimeline self
    ∧ ∀ csv, exportLogs env csv self' = exportLogs env csv self.
Proof. intros H. exists self. by rewrite log_dropped. Qed.

(** The buffer only ever holds entries at or above the minimum. *)
Lemma log_buffer_levels level category message data step duration self
    (σ : Sys) :
  Forall (λ entry, ¬ below_minimum (LoggerTypes.level entry) self)
         (logBuffer self) →
  ∃ self' σ',
    log env level category message data step duration self σ = (Ok self', σ')
    ∧ config self' = config self
    ∧ Forall (λ entry, ¬ below_minimum (LoggerTypes.level entry) self')
             (logBuffer self').
Proof.
  intros Hinv.
  destruct (Z.lt_ge_cases (LogLevel_value level)
              (LogLevel_value (cfg_level (config self)))) as [Hlow|Hadm];
    [|apply Z.le_ngt in Hadm].
  - exists self, σ. by rewrite log_dropped.
  - destruct (log_admitted level category message data step duration
                self σ Hadm) as (evs & _ & now & Hr & _).
    destruct (log env level category message data step duration self σ)
      as [r σ'] eqn:Hlog.
    simpl in *. subst r. eexists _, σ'. split; [done|]. split; [done|].
    simpl. apply Forall_app. split; [done|]. by apply Forall_singleton.
Qed.

(** The per-level counts of the summary are the numbers of buffered
    entries of each level; a level without entries has no count. *)
Lemma getSessionSummary_counts self l :
  logsByLevel (getSessionSummary self) !! LogLevel_name l
  = let n := length (filter (λ entry, LoggerTypes.level entry = l)
                            (logBuffer self)) in
    if decide (n = 0%nat) then None else Some n.
Proof.
  unfold getSessionSummary. simpl.
  assert (∀ buffer (acc : gmap string nat),
    fold_left
      (λ (acc : gmap string nat) entry,
         <[ LogLevel_name (LoggerTypes.level entry)
            := (default 0%nat (acc !! LogLevel_name (LoggerTypes.level entry))
                + 1)%nat ]> acc)
      buffer acc !! LogLevel_name l
    = let n := length (filter (λ entry, LoggerTypes.level entry = l) buffer)
      in if decide (n = 0%nat) then acc !! LogLevel_name l
         else Some (default 0%nat (acc !! LogLevel_name l) + n)%nat) as H.
  { induction buffer as [|entry buffer IH]; intros acc; [done|].
    simpl fold_left. rewrite IH. clear IH. rewrite filter_cons.
    destruct (decide (LoggerTypes.level entry = l)) as [->|Hne].
    - rewrite lookup_insert_eq. simpl.
      repeat case_decide; try lia; f_equal; lia.
    - rewrite lookup_insert_ne; [done|].
      intros Heq. apply Hne.
      by destruct (LoggerTypes.level entry), l. }
  rewrite H. simpl. by case_decide.
Qed.

(** Hence a level below the minimum is never counted. *)
Lemma getSessionSummary_ignores_below_minimum self l :
  Forall (λ entry, ¬ below_minimum (LoggerTypes.level entry) self)
         (logBuffer self) →
  below_minimum l self →
  logsByLevel (getSessionSummary self) !! LogLevel_name l = None.
Proof.
  intros Hinv Hlow. rewrite getSessionSummary_counts. simpl.
  case_decide as Hn; [done|]. destruct Hn.
  induction Hinv as [|entry buffer Hentry _ IH]; [done|].
  rewrite filter_cons. case_decide as Heq; [|done]. by subst l.
Qed.

Lemma log_quiet level category message data step duration :
  quiet_method (log env level category message data step duration).
Proof.
  intros self σ.
  destruct (Z.lt_ge_cases (LogLevel_value level)
              (LogLevel_value (cfg_level (config self)))) as [Hlow|Hadm].
  - exists []. rewrite log_dropped by done. simpl. rewrite app_nil_r.
    split; [done|]. exists self. events.
  - apply Z.le_ngt in Hadm. eapply runs_weaken; [by apply log_admitted|].
    intros r σ' evs (now & -> & Hev & _). eexists. events.
Qed.

Lemma debug_quiet message data step :
  quiet_method (debug env message data step).
Proof. apply log_quiet. Qed.

Lemma info_quiet message data step :
  quiet_method (info env message data step).
Proof. apply log_quiet. Qed.

Lemma warn_quiet message data step :
  quiet_method (warn env message data step).
Proof. apply log_quiet. Qed.

Lemma error_quiet message data step :
  quiet_method (error env message data step).
Proof. apply log_quiet. Qed.

Lemma step_quiet stepNumber action message duration success :
  quiet_method (Logger.step env stepNumber action message duration success).
Proof. apply log_quiet. Qed.

Lemma browser_quiet action message data :
  quiet_method (Logger.browser env action message data).
Proof. apply log_quiet. Qed.

Lemma validation_quiet message errors warnings :
  quiet_method (validation env message errors warnings).
Proof. apply log_quiet. Qed.

Lemma screenshot_quiet screenshotPath step type :
  quiet_method (Logger.screenshot env screenshotPath step type).
Proof.
  intros self σ. unfold Logger.screenshot.
  apply runs_try_catch, runs_bind, runs_record. simpl.
  apply runs_bind, runs_attempt.
  destruct (stat_size env _ _).1; simpl.
  - apply runs_bind, runs_ask. simpl.
    eapply runs_weaken; [apply log_quiet|].
    intros r σ' evs (self' & -> & Hev & Hc & Hs & Hp). eexists. events.
  - eapply runs_weaken; [apply error_quiet|].
    intros r σ' evs (self' & -> & Hev & Hc & Hs & Hp). eexists. events.
Qed.

Lemma emit_quiet e : quiet_method (emit env e).
Proof.
  destruct e; simpl;
    auto using debug_quiet, info_quiet, warn_quiet, error_quiet,
               browser_quiet, screenshot_quiet.
Qed.

Lemma emit_all_quiet es : quiet_method (emit_all env es).
Proof.
  induction es as [|e es IH]; intros self σ; simpl.
  - apply runs_ret. exists self. events.
  - apply runs_bind. eapply runs_weaken; [apply emit_quiet|].
    intros r σ1 evs1 (self1 & -> & Hev1 & Hc1 & Hs1 & Hp1).
    eapply runs_weaken; [apply IH|].
    intros r σ2 evs2 (self2 & -> & Hev2 & Hc2 & Hs2 & Hp2).
    exists self2. events; congruence.
Qed.

(** An error-level emission is admitted whatever the minimum is. *)
Lemma error_logged message data step self (σ : Sys) :
  runs trace (error env message data step self) σ (λ r _ evs,
    ∃ self' entry,
      r = Ok self'
      ∧ Forall logger_event evs
      ∧ config self' = config self
      ∧ sessionId self' = sessionId self
      ∧ logFilePath self' = logFilePath self
      ∧ level entry = ERROR
      ∧ LoggerTypes.message entry = message
      ∧ entry ∈ logBuffer self'
      ∧ (enableConsoleLogging (config self) = true →
         EvConsole to_error (OutEntry entry) ∈ evs)).
Proof.
  eapply runs_weaken.
  - apply log_admitted. unfold below_minimum.
    destruct (cfg_level (config self)); simpl; lia.
  - intros r σ' evs (now & -> & Hev & Hconsole & _).
    exists (with_entry self
              (entry_of now ERROR "error" message (js_data data) step None)),
           (entry_of now ERROR "error" message (js_data data) step None).
    repeat split; try done. simpl. set_solver.
Qed.

Lemma cleanup_runs self (σ : Sys) :
  runs trace (cleanup env self) σ (λ r _ evs,
    r = Ok ()
    ∧ ∃ evs', evs = EvCall "Logger.cleanup" :: evs'
              ∧ Forall logger_event evs').
Proof.
  unfold cleanup. apply runs_bind, runs_record. simpl.
  apply runs_when. case_match.
  - apply runs_bind, runs_ask. simpl.
    eapply runs_weaken; [apply writeToFile_runs|].
    intros r σ' evs (-> & Hev & _). eauto.
  - split; [done|]. exists []. events.
Qed.

Lemma mkdir_runs dir (σ : Sys) :
  runs trace (exec record (EvMkdir dir) ;; attempt (mkdir env dir)) σ
    (λ r _ evs, (r = Ok () ∨ ∃ e, r = Throw e) ∧ Forall logger_event evs).
Proof.
  apply runs_bind, runs_record. simpl. apply runs_attempt. simpl.
  destruct (mkdir env dir (world σ)).1 as [[]|e]; split; eauto; events.
Qed.

Lemma ensureOutputDir_runs config (σ : Sys) :
  runs trace (ensureOutputDir env config) σ (λ r _ evs,
    r = Ok () ∧ Forall logger_event evs).
Proof.
  unfold ensureOutputDir.
  apply runs_try_catch, runs_bind, runs_gets, runs_bind, runs_when.
  assert (∀ (σ0 : Sys) evs0, Forall logger_event evs0 →
    runs trace
      (missing <- gets (λ σ1 : Sys,
         negb (existsSync env (join env (cfg_outputDir config) "screenshots")
                 (world σ1))) ;;
       when missing
         (exec record (EvMkdir (join env (cfg_outputDir config)
                                  "screenshots")) ;;
          attempt (mkdir env (join env (cfg_outputDir config)
                                "screenshots"))))
      σ0
      (λ r σ1 evs1,
         match r with
         | Throw e =>
             runs trace
               (console to_error
                  (OutText "Failed to create output directory:" e))
               σ1
               (λ r' _ evs2, r' = Ok ()
                             ∧ Forall logger_event (evs0 ++ evs1 ++ evs2))
         | _ => r = Ok () ∧ Forall logger_event (evs0 ++ evs1)
         end)) as Hsecond.
  { intros σ0 evs0 Hev0. apply runs_bind, runs_gets, runs_when.
    case_match.
    - eapply runs_weaken; [apply mkdir_runs|].
      intros r σ1 evs [[->|[e ->]] Hev]; [events|].
      apply runs_console. events.
    - events. }
  case_match.
  - eapply runs_weaken; [apply mkdir_runs|].
    intros r σ1 evs [[->|[e ->]] Hev].
    + eapply runs_weaken; [by apply (Hsecond σ1 evs)|].
      intros [[]|e|] σ2 evs2; simpl; try done.
      intros Hrun. eapply runs_weaken; [exact Hrun|].
      intros r' σ3 evs3 (-> & H3). by rewrite <-!app_assoc.
    + apply runs_console. events.
  - eapply runs_weaken; [by apply (Hsecond _ [])|].
    intros [[]|e|] σ2 evs2; simpl; try done.
Qed.

Lemma createLogger_runs autoConfig (σ : Sys) :
  runs trace (createLogger env autoConfig) σ (λ r _ evs,
    ∃ self, r = Ok self
            ∧ Forall logger_event evs
            ∧ config self = createLoggerConfig autoConfig).
Proof.
  unfold createLogger, new_Logger.
  apply runs_bind, runs_ask. simpl. apply runs_bind.
  eapply runs_weaken; [apply ensureOutputDir_runs|].
  intros r σ' evs (-> & Hev). apply runs_ret. eexists. events.
Qed.

End LoggerProps.

(** ** Rules for runs that return *)

Section ReturnRules.
Context {St : Type} (tr : St → list Event).

Lemma returns_weaken {A} (c : M St A) σ (Q Q' : A → St → list Event → Prop) :
  returns tr c σ Q → (∀ a σ' evs, Q a σ' evs → Q' a σ' evs) →
  returns tr c σ Q'.
Proof.
  intros Hc Himp. eapply runs_weaken; [exact Hc|].
  intros r σ' evs (a & -> & HQ). eauto.
Qed.

Lemma returns_ret {A} (a : A) σ (Q : A → St → list Event → Prop) :
  Q a σ [] → returns tr (ret a) σ Q.
Proof. intros HQ. apply runs_ret. eauto. Qed.

Lemma returns_gets {A} (f : St → A) σ (Q : A → St → list Event → Prop) :
  Q (f σ) σ [] → returns tr (gets f) σ Q.
Proof. intros HQ. apply runs_gets. eauto. Qed.

Lemma returns_modify (f : St → St) σ (Q : unit → St → list Event → Prop) :
  tr (f σ) = tr σ → Q () (f σ) [] → returns tr (modify f) σ Q.
Proof.
  intros Htr HQ. apply (runs_modify _ _ _ _ []); [by rewrite app_nil_r|eauto].
Qed.

Lemma returns_bind {A B} (c : M St A) (k : A → M St B) σ
    (Q : B → St → list Event → Prop) :
  returns tr c σ (λ a σ1 evs1,
    returns tr (k a) σ1 (λ b σ2 evs2, Q b σ2 (evs1 ++ evs2))) →
  returns tr (bind c k) σ Q.
Proof.
  intros Hc. apply runs_bind. eapply runs_weaken; [exact Hc|].
  intros r σ1 evs1 (a & -> & Hk). exact Hk.
Qed.

Lemma returns_when (b : bool) (c : M St unit) σ
    (Q : unit → St → list Event → Prop) :
  (if b then returns tr c σ Q else Q () σ []) → returns tr (when b c) σ Q.
Proof. destruct b; [done|]. apply returns_ret. Qed.

Lemma returns_when_modify (b : bool) (f : St → St) σ
    (Q : unit → St → list Event → Prop) :
  tr (f σ) = tr σ → Q () (if b then f σ else σ) [] →
  returns tr (when b (modify f)) σ Q.
Proof.
  intros Htr HQ. apply returns_when. destruct b; [|done].
  by apply returns_modify.
Qed.

(** A handler is not run when the body returns. *)
Lemma returns_try_catch {A} (c : M St A) (h : string → M St A) σ
    (Q : A → St → list Event → Prop) :
  returns tr c σ Q → returns tr (try_catch c h) σ Q.
Proof.
  intros Hc. apply runs_try_catch. eapply runs_weaken; [exact Hc|].
  intros r σ1 evs1 (a & -> & HQ). eauto.
Qed.

Lemma returns_try_finally {A} (c : M St A) (f : M St unit) σ
    (Q : A → St → list Event → Prop) :
  returns tr c σ (λ a σ1 evs1,
    returns tr f σ1 (λ _ σ2 evs2, Q a σ2 (evs1 ++ evs2))) →
  returns tr (try_finally c f) σ Q.
Proof.
  intros Hc. apply runs_try_finally. eapply runs_weaken; [exact Hc|].
  intros r σ1 evs1 (a & -> & Hf). eapply runs_weaken; [exact Hf|].
  intros r' σ2 evs2 (? & -> & HQ). eauto.
Qed.

(** The plain form of a run that returns. *)
Lemma returns_eq {A} (c : M St A) σ (Q : A → St → list Event → Prop) :
  returns tr c σ Q →
  ∃ a σ' evs, c σ = (Ok a, σ') ∧ tr σ' = tr σ ++ evs ∧ Q a σ' evs.
Proof.
  intros (evs & Htr & a & Hr & HQ). destruct (c σ) as [r σ'].
  simpl in *. subst r. eauto 10.
Qed.

End ReturnRules.

Lemma marks_app evs1 evs2 : marks (evs1 ++ evs2) = marks evs1 ++ marks evs2.
Proof. apply filter_app. Qed.

Lemma marks_nil : marks [] = [].
Proof. done. Qed.

Lemma marks_cons_plain ev evs :
  plain_event ev = true → marks (ev :: evs) = marks evs.
Proof.
  intros H. unfold marks. rewrite filter_cons. case_decide; [congruence|done].
Qed.

Lemma marks_cons_mark ev evs :
  plain_event ev = false → marks (ev :: evs) = ev :: marks evs.
Proof.
  intros H. unfold marks. rewrite filter_cons. by case_decide.
Qed.

Lemma marks_plain evs : Forall plain_event evs → marks evs = [].
Proof.
  induction 1 as [|ev evs Hev _ IH]; [done|].
  unfold marks. rewrite filter_cons. case_decide as Hp; [|done].
  rewrite Hp in Hev. done.
Qed.

Lemma logger_events_plain evs :
  Forall logger_event evs → Forall plain_event evs.
Proof.
  intros H. eapply Forall_impl; [exact H|].
  intros [? []| | | | | | | | | | |]; done.
Qed.

Lemma marks_logger evs : Forall logger_event evs → marks evs = [].
Proof. intros H. by apply marks_plain, logger_events_plain. Qed.

(** Computing the marks of a list of events given piece by piece. *)
Ltac simpl_marks :=
  repeat first
    [ rewrite marks_app
    | rewrite marks_nil
    | rewrite marks_cons_plain by reflexivity
    | rewrite marks_cons_mark by reflexivity
    | match goal with
      | H : Forall _ ?e |- context [marks ?e] => rewrite (marks_logger e H)
      | H : marks ?e = _ |- context [marks ?e] => rewrite H
      end
    | rewrite app_nil_r
    | rewrite app_nil_l ].

Lemma elem_of_marks ev evs :
  ev ∈ marks evs ↔ ev ∈ evs ∧ plain_event ev = false.
Proof. unfold marks. rewrite list_elem_of_filter. tauto. Qed.

(** ** [closeBrowser] *)

Section ControllerProps.
Import Controller.
Context {World : Type} (env : Env World).

#[local] Abbreviation Sys := (Sys World).

Lemma close_handle_runs target handle (σ : Sys) :
  runs trace (close_handle env target handle) σ (λ r _ evs,
    ∃ thrown, evs = [EvClose target thrown]
              ∧ r = match thrown with None => Ok () | Some e => Throw e end).
Proof.
  unfold close_handle. apply runs_bind, runs_ask. simpl.
  apply runs_bind, runs_record. simpl.
  destruct (close env target handle (world σ)).1 as [e|].
  - apply runs_throw. by exists (Some e).
  - apply runs_ret. by exists None.
Qed.

(** Closing one optional handle: nothing happens for [null]. *)
Lemma close_optional_runs target (field : option Handle) (σ : Sys) :
  runs trace (match field with
              | Some handle => close_handle env target handle
              | None => ret ()
              end) σ
    (λ r _ evs,
       match field with
       | Some _ =>
           ∃ thrown, evs = [EvClose target thrown]
                     ∧ r = match thrown with
                           | None => Ok () | Some e => Throw e end
       | None => evs = [] ∧ r = Ok ()
       end).
Proof.
  destruct field; [apply close_handle_runs | by apply runs_ret].
Qed.

Lemma close_attempts_marks targets closes :
  close_attempts targets closes → marks closes = closes.
Proof.
  revert closes. induction targets as [|t ts IH]; intros closes; simpl.
  - by intros ->.
  - intros (thrown & closes' & -> & H). unfold marks. rewrite filter_cons.
    simpl. f_equal. destruct thrown; [by subst|]. by apply IH.
Qed.

(** [closeBrowser] never throws. It closes the page, the context and the
    browser in that order, skipping the ones that are [null], and a close
    that throws ends it: the handles after it are not closed and the
    result is a failure. *)
Lemma closeBrowser_runs controller (σ : Sys) :
  returns trace (closeBrowser env controller) σ (λ result _ evs,
    release_marks controller evs
    ∧ match result with
      | Types.success _ => ∀ target e, EvClose target (Some e) ∉ evs
      | failure msg =>
          ∃ target e, last evs = Some (EvClose target (Some e))
                      ∧ msg = "Failed to close browser: " +:+ e
      end).
Proof.
  unfold returns, runs, release_marks, close_targets, closeBrowser,
    close_handle, try_catch, bind, record, modify, ask, throw, ret.
  destruct (page controller) as [hp|], (context controller) as [hc|],
    (browser controller) as [hb|]; simpl;
    repeat (match goal with
            | |- context [close env ?t ?h ?w] =>
                destruct (close env t h w) as [[?|] ?]; simpl
            end);
    (eexists; split; [rewrite <-?app_assoc; simpl; reflexivity|]);
    (eexists; split; [reflexivity|]);
    (split; [eexists; split; [reflexivity|]; simpl|]).
  all: first
    [ solve [repeat first [ reflexivity
                          | do 2 eexists; split; [reflexivity|]; simpl ]]
    | solve [intros target e Hin;
             repeat (apply elem_of_cons in Hin as [Hin|Hin];
                     [discriminate Hin|]);
             by apply elem_of_nil in Hin]
    | solve [do 2 eexists; split; reflexivity] ].
Qed.

End ControllerProps.

(** ** The execution engine *)

Section EngineProps.
Import Engine.
Context {World : Type} (env : Env World).

#[local] Abbreviation Run := (Run World).

Lemma frame_refl (r : Run) : frame r r.
Proof. by repeat split. Qed.

Lemma frame_trans (r1 r2 r3 : Run) : frame r1 r2 → frame r2 r3 → frame r1 r3.
Proof.
  unfold frame, framed. intros (?&?&?&?&?&?) (?&?&?&?&?&?).
  repeat split; congruence.
Qed.

Lemma framed_trans (r1 r2 r3 : Run) n shots :
  frame r1 r2 → framed r2 r3 n shots → framed r1 r3 n shots.
Proof.
  unfold frame, framed. intros (?&?&?&?&?&?) (?&?&?&?&?&?).
  repeat split; congruence.
Qed.

Lemma framed_compose (r1 r2 r3 : Run) n shots n' shots' :
  framed r1 r2 n shots → framed r2 r3 n' shots' → framed r1 r3 n' shots'.
Proof.
  unfold framed. intros (?&?&?&?&?&?) (?&?&?&?&?&?).
  repeat split; congruence.
Qed.

Lemma framed_frame (r1 r2 r3 : Run) n shots :
  framed r1 r2 n shots → frame r2 r3 → framed r1 r3 n shots.
Proof.
  unfold frame, framed. intros (?&?&?&?&?&?) (?&?&?&?&?&?).
  repeat split; congruence.
Qed.

Lemma in_session_framed (r r' : Run) n shots :
  in_session r → framed r r' n shots → in_session r'.
Proof.
  unfold in_session, framed.
  intros [(c & Hc & Hp) Hl] (Hb & _ & _ & Hcfg & _). split.
  - exists c. by rewrite Hb.
  - by rewrite Hcfg.
Qed.

Lemma capture_shape_mono config K shots capture shots' evs evs' :
  capture_shape config K shots capture shots' evs → evs ⊆ evs' →
  capture_shape config K shots capture shots' evs'.
Proof.
  unfold capture_shape. intros H Hsub.
  destruct (Config.screenshotOnError _); [|done].
  destruct H as (filename & [[path|e]|e] & -> & H); exists filename;
    eexists; (split; [done|]); simpl; [done|..];
    destruct H as (-> & entry & ? & ? & Hin); (split; [done|]);
    exists entry; repeat split; try done; by apply Hsub.
Qed.

Lemma returns_on_host {A} (c : M (Sys World) A) (r : Run)
    (Q : A → Run → list Event → Prop) :
  returns trace c (sys r) (λ a σ evs, Q a (set_sys σ r) evs) →
  returns run_trace (on_host c) r Q.
Proof.
  intros (evs & Htr & a & Hr & HQ). exists evs. unfold on_host, run_trace.
  destruct (c (sys r)) as [res σ]. simpl in *. subst res. eauto.
Qed.

Lemma runs_on_host {A} (c : M (Sys World) A) (r : Run)
    (Q : Res A → Run → list Event → Prop) :
  runs trace c (sys r) (λ res σ evs, Q res (set_sys σ r) evs) →
  runs run_trace (on_host c) r Q.
Proof.
  intros (evs & Htr & HQ). exists evs. unfold on_host, run_trace.
  destruct (c (sys r)) as [res σ]. simpl in *. eauto.
Qed.

Lemma returns_on_logger method (r : Run) :
  quiet_method method →
  returns run_trace (on_logger method) r (λ _ r' evs,
    Forall logger_event evs ∧ frame r r').
Proof.
  intros Hm. destruct (Hm (logger r) (sys r))
    as (evs & Htr & self' & Hr & Hev & Hc & Hs & Hp).
  exists evs. unfold on_logger, run_trace.
  destruct (method (logger r) (sys r)) as [res σ]. simpl in *. subst res.
  split; [done|]. exists (). by repeat split.
Qed.

Lemma returns_now (r : Run) :
  returns run_trace (now env) r (λ _ r' evs, evs = [] ∧ frame r r').
Proof.
  apply returns_on_host. unfold returns. apply runs_ask.
  eexists. by repeat split.
Qed.

Lemma returns_log_entry step action status message duration (r : Run) :
  returns run_trace (log_entry env step action status message duration) r
    (λ _ r' evs, evs = [] ∧ frame r r').
Proof.
  unfold log_entry. apply returns_bind.
  eapply returns_weaken; [apply returns_now|].
  intros t r1 evs1 (-> & Hf). apply returns_modify; [done|].
  split; [done|]. destruct Hf as (?&?&?&?&?&?). by repeat split.
Qed.

(** Reading, cleaning up and returning at the end of a run that began. *)
Lemma returns_finish script ok stepsExecuted' executionTime error (r : Run) :
  returns run_trace
    (finish env script ok stepsExecuted' executionTime error) r
    (λ result r' evs,
       marks evs = [EvCall "Logger.cleanup"]
       ∧ frame r r'
       ∧ ∃ payload,
           result = Types.success payload
           ∧ success payload = ok
           ∧ res_stepsExecuted payload = stepsExecuted' r'
           ∧ totalSteps payload = Z.of_nat (length (steps script))
           ∧ Engine.error payload = error
           ∧ res_screenshots payload = screenshots r').
Proof.
  unfold finish. apply returns_bind, returns_gets.
  apply returns_bind, returns_bind, returns_gets.
  apply returns_on_host.
  eapply runs_weaken; [apply cleanup_runs|].
  intros res σ evs (-> & evs' & -> & Hev). eexists. split; [done|].
  apply returns_bind, returns_gets, returns_ret.
  split; [|split; [by repeat split|by eexists]].
  by simpl_marks.
Qed.

(** ** The collaborators *)

Lemma runs_call_executeActionStep page step config stepNumber (r : Run) :
  runs run_trace (call_executeActionStep env page step config stepNumber) r
    (λ res r' evs, res ≠ OutOfFuel ∧ marks evs = [] ∧ frame r r').
Proof.
  unfold call_executeActionStep.
  apply runs_bind, runs_on_host, runs_record. simpl.
  apply runs_bind, runs_on_host, runs_ask. simpl.
  destruct (executeActionStep env page step config stepNumber (world (sys r)))
    as [[outcome emissions] w]. simpl.
  apply runs_bind. eapply runs_weaken.
  { apply (returns_on_logger _ _ (emit_all_quiet env emissions)). }
  intros res r1 evs1 (a & -> & Hev & Hf).
  assert (marks (([EvExecuteActionStep step stepNumber] ++ []) ++ evs1) = [])
    as Hmarks.
  { by simpl_marks. }
  destruct outcome; [apply runs_ret|apply runs_throw];
    rewrite app_nil_r; (split; [done|]); (split; [done|]);
    (eapply frame_trans; [|exact Hf]); by repeat split.
Qed.

Lemma runs_the_page (r : Run) :
  runs run_trace the_page r (λ res r' evs,
    r' = r ∧ evs = []
    ∧ match browserController r with
      | Some controller => res = Ok (page controller)
      | None => res = Throw TypeError_page
      end).
Proof.
  unfold the_page. apply runs_bind, runs_gets.
  destruct (browserController r); [apply runs_ret|apply runs_throw]; done.
Qed.

(** The operation that [executeScript] hands to the retry executor. *)
Lemma runs_operation step config stepNumber (r : Run) :
  runs run_trace
    (page <- the_page ;;
     call_executeActionStep env page step config stepNumber) r
    (λ res r' evs, res ≠ OutOfFuel ∧ marks evs = [] ∧ frame r r').
Proof.
  apply runs_bind. eapply runs_weaken; [apply runs_the_page|].
  intros res r' evs (-> & -> & Hres).
  destruct (browserController r); subst res.
  - apply runs_call_executeActionStep.
  - split; [done|]. split; [done|]. apply frame_refl.
Qed.

Lemma runs_call_takeScreenshot page config path stepNumber (r : Run) :
  runs run_trace (call_takeScreenshot env page config path stepNumber) r
    (λ res r' evs,
       ∃ outcome,
         marks evs = [EvTakeScreenshot path stepNumber outcome]
         ∧ frame r r'
         ∧ res = match outcome with
                 | Returns result => Ok result
                 | Throws e => Throw e
                 end).
Proof.
  unfold call_takeScreenshot.
  apply runs_bind, runs_on_host, runs_ask. simpl.
  destruct (takeScreenshot env page config path stepNumber (world (sys r)))
    as [[outcome emissions] w]. simpl.
  apply runs_bind, runs_on_host, runs_record. simpl.
  apply runs_bind. eapply runs_weaken.
  { apply (returns_on_logger _ _ (emit_all_quiet env emissions)). }
  intros res r1 evs1 (a & -> & Hev & Hf).
  assert (marks (([] ++ [EvTakeScreenshot path stepNumber outcome]) ++ evs1)
          = [EvTakeScreenshot path stepNumber outcome]) as Hmarks.
  { by simpl_marks. }
  destruct outcome; [apply runs_ret|apply runs_throw];
    rewrite app_nil_r; eexists; (split; [done|]);
    (split; [|done]); (eapply frame_trans; [|exact Hf]); by repeat split.
Qed.

Lemma runs_call_initializeBrowser config (r : Run) :
  runs run_trace (call_initializeBrowser env config) r
    (λ res r' evs,
       ∃ outcome,
         marks evs = [EvInitializeBrowser outcome]
         ∧ frame r r'
         ∧ res = match outcome with
                 | Returns result => Ok result
                 | Throws e => Throw e
                 end).
Proof.
  unfold call_initializeBrowser.
  apply runs_bind, runs_on_host, runs_ask. simpl.
  destruct (initializeBrowser env config (world (sys r)))
    as [[outcome emissions] w]. simpl.
  apply runs_bind, runs_on_host, runs_record. simpl.
  apply runs_bind. eapply runs_weaken.
  { apply (returns_on_logger _ _ (emit_all_quiet env emissions)). }
  intros res r1 evs1 (a & -> & Hev & Hf).
  assert (marks (([] ++ [EvInitializeBrowser outcome]) ++ evs1)
          = [EvInitializeBrowser outcome]) as Hmarks.
  { by simpl_marks. }
  destruct outcome; [apply runs_ret|apply runs_throw];
    rewrite app_nil_r; eexists; (split; [done|]);
    (split; [|done]); (eapply frame_trans; [|exact Hf]); by repeat split.
Qed.

(** ** The retry executor inside the engine *)

Lemma retry_env_console_log notice (r : Run) :
  run_trace (ErrorHandler.console_log (retry_env env) notice r)
  = run_trace r ++ [EvConsole to_log (OutRetry notice)]
  ∧ frame r (ErrorHandler.console_log (retry_env env) notice r).
Proof. by repeat split. Qed.

Lemma retry_env_sleep ms (r : Run) :
  run_trace (ErrorHandler.sleep (retry_env env) ms r)
  = run_trace r ++ [EvSetTimeout ms]
  ∧ frame r (ErrorHandler.sleep (retry_env env) ms r).
Proof. by repeat split. Qed.

Lemma retry_pause_plain config stepNumber ce attempt (r : Run) :
  ∃ evs,
    run_trace (retry_pause (retry_env env) config stepNumber ce attempt r)
    = run_trace r ++ evs
    ∧ marks evs = []
    ∧ frame r (retry_pause (retry_env env) config stepNumber ce attempt r).
Proof.
  unfold retry_pause.
  destruct (Config.verbose (Config.logging config)); simpl;
    destruct (0 <? _); simpl; unfold run_trace; simpl;
    eexists;
    (split; [first [ reflexivity
                   | rewrite <-!app_assoc; reflexivity
                   | symmetry; apply app_nil_r ]|]);
    (split; [reflexivity|]); by repeat split.
Qed.

Section RunRetry.
Context {T : Type} (operation : M Run (Result T))
        (config : Config.AutoConfig) (step : option ActionStep)
        (stepNumber : option Z).
Hypothesis operation_plain :
  ∀ r, runs run_trace operation r (λ res r' evs,
         res ≠ OutOfFuel ∧ marks evs = [] ∧ frame r r').

Lemma returns_loop_body attempt (r : Run) :
  returns run_trace
    (ErrorHandler.loop_body (retry_env env) operation config step stepNumber
       attempt) r
    (λ exit r' evs,
       marks evs = [] ∧ frame r r'
       ∧ ∀ lastError, exit = ErrorHandler.Next lastError → attempt < 5).
Proof.
  destruct (operation_plain r) as (evs1 & Htr & Hres & Hm & Hf).
  unfold returns, runs.
  destruct (operation r) as [[[data|msg]|e|] r1] eqn:Hop; simpl in *;
    [| | |done].
  - erewrite loop_body_success by done. simpl.
    destruct (_ && _).
    + exists (evs1 ++ [EvConsole to_log
                         (OutRetry (ErrorHandler.SucceededOnAttempt
                                      stepNumber attempt))]).
      unfold run_trace in *. simpl. rewrite Htr, <-app_assoc.
      split; [done|]. eexists. split; [done|]. split; [by simpl_marks|].
      split; [|done]. eapply frame_trans; [exact Hf|]. by repeat split.
    + exists evs1. split; [done|]. eexists.
      split; [reflexivity|]. split; [assumption|]. split; [assumption|done].
  - destruct (ErrorHandler.isRetryable
                (ErrorHandler.classifyError (St:=Run) msg step stepNumber))
      eqn:Hr.
    + destruct (Z.lt_ge_cases attempt
        (Z.min (ErrorHandler.maxAttempts
                  (ErrorHandler.DEFAULT_RETRY_STRATEGIES (St:=Run)
                     (ErrorHandler.type
                        (ErrorHandler.classifyError (St:=Run) msg step
                           stepNumber))))
               (Config.retryAttempts (Config.actions config))))
        as [Hlt|Hge].
      * erewrite loop_body_failure_next by done. simpl.
        destruct (retry_pause_plain config stepNumber
                    (ErrorHandler.classifyError (St:=Run) msg step
                       stepNumber)
                    attempt r1) as (evs2 & Htr2 & Hm2 & Hf2).
        exists (evs1 ++ evs2). rewrite Htr2, Htr, <-app_assoc.
        split; [done|]. eexists. split; [done|].
        split; [by simpl_marks|].
        split; [by eapply frame_trans|]. intros _ _.
        pose proof (DEFAULT_RETRY_STRATEGIES_maxAttempts (St:=Run)
                      (ErrorHandler.type
                         (ErrorHandler.classifyError (St:=Run) msg step
                            stepNumber))).
        lia.
      * erewrite loop_body_failure_break by eauto. simpl.
        exists evs1. split; [done|]. eexists.
      split; [reflexivity|]. split; [assumption|]. split; [assumption|done].
    + erewrite loop_body_failure_break by eauto. simpl.
      exists evs1. split; [done|]. eexists.
      split; [reflexivity|]. split; [assumption|]. split; [assumption|done].
  - erewrite loop_body_throw by done. simpl.
    exists evs1. split; [done|]. eexists.
      split; [reflexivity|]. split; [assumption|]. split; [assumption|done].
Qed.

Lemma returns_retry_loop (fuel : nat) attempt (r : Run) :
  (0 < fuel)%nat → 5 < attempt + Z.of_nat fuel →
  returns run_trace
    (ErrorHandler.retry_loop (retry_env env) operation config step
       stepNumber fuel attempt) r
    (λ _ r' evs, marks evs = [] ∧ frame r r').
Proof.
  revert attempt r. induction fuel as [|fuel IH]; intros attempt r Hpos Hfuel;
    [lia|].
  simpl. apply returns_bind.
  eapply returns_weaken; [apply returns_loop_body|].
  intros exit r1 evs1 (Hm1 & Hf1 & Hnext).
  destruct exit as [result|lastError|lastError].
  - apply returns_ret. rewrite app_nil_r. done.
  - apply returns_ret. rewrite app_nil_r. done.
  - specialize (Hnext _ eq_refl).
    eapply returns_weaken; [apply IH; lia|].
    intros exit' r2 evs2 (Hm2 & Hf2). split.
    + by simpl_marks.
    + by eapply frame_trans.
Qed.

(** Inside the engine the retry executor always returns a result, and it
    leaves no mark. *)
Lemma returns_retry (r : Run) :
  returns run_trace
    (ErrorHandler.executeWithSmartRetry (retry_env env) operation config
       step stepNumber) r
    (λ _ r' evs, marks evs = [] ∧ frame r r').
Proof.
  unfold ErrorHandler.executeWithSmartRetry. apply returns_bind.
  eapply returns_weaken.
  { apply returns_retry_loop; unfold ErrorHandler.retry_fuel; lia. }
  intros exit r1 evs1 (Hm1 & Hf1).
  destruct exit; apply returns_ret; by rewrite app_nil_r.
Qed.

End RunRetry.

(** ** One step *)

Lemma returns_on_logger_error message data step (r : Run) :
  enableConsoleLogging (config (logger r)) = true →
  returns run_trace (on_logger (Logger.error env message data step)) r
    (λ _ r' evs,
       marks evs = [] ∧ frame r r'
       ∧ ∃ entry, level entry = ERROR
                  ∧ LoggerTypes.message entry = message
                  ∧ EvConsole to_error (OutEntry entry) ∈ evs).
Proof.
  intros Hconsole.
  destruct (error_logged env message data step (logger r) (sys r))
    as (evs & Htr & self' & entry & Hr & Hev & Hc & Hs & Hp & Hl & Hm & _
        & Hin).
  exists evs. unfold on_logger, run_trace.
  destruct (Logger.error env message data step (logger r) (sys r))
    as [res σ].
  simpl in *. subst res. split; [done|]. exists ().
  split; [done|]. split; [by apply marks_logger|].
  split; [by repeat split|]. exists entry. auto.
Qed.

Lemma returns_error_screenshot config K (r : Run) :
  in_session r →
  returns run_trace (error_screenshot env config K) r (λ _ r' evs,
    capture_shape config K (screenshots r) (marks evs) (screenshots r') evs
    ∧ framed r r' (stepsExecuted r) (screenshots r')).
Proof.
  intros [(controller & Hctrl & Hpage) Hconsole].
  unfold error_screenshot, capture_shape.
  destruct (Config.screenshotOnError (Config.actions config));
    [|apply returns_ret; by repeat split].
  unfold returns. apply runs_bind.
  eapply runs_weaken; [apply runs_the_page|].
  intros res r' evs (-> & -> & Hres). rewrite Hctrl in Hres. subst res.
  destruct (page controller) as [handle|]; [clear Hpage|done].
  apply runs_try_catch, runs_bind.
  eapply runs_weaken; [apply returns_now|].
  intros res r1 evs1 (time & -> & -> & Hf1).
  apply runs_bind. eapply runs_weaken; [apply runs_call_takeScreenshot|].
  intros res r2 evs2 (outcome & Hm2 & Hf2 & ->).
  assert (enableConsoleLogging (LoggerTypes.config (logger r2)) = true)
    as Hconsole2.
  { destruct Hf1 as (_&_&_&Hc1&_), Hf2 as (_&_&_&Hc2&_). congruence. }
  pose proof (frame_trans _ _ _ Hf1 Hf2) as Hf12.
  destruct outcome as [[path|e]|e].
  - apply (runs_modify _ _ _ _ []); [by rewrite app_nil_r|].
    eexists. split; [done|]. simpl_marks. split.
    + eexists _, _. split; [done|]. simpl.
      destruct Hf12 as (_&_&->&_). done.
    + destruct Hf12 as (?&?&?&?&?&?). by repeat split.
  - eapply runs_weaken; [by apply returns_on_logger_error|].
    intros res r3 evs3 (a & -> & Hm3 & Hf3 & entry & Hl & Hmsg & Hin).
    eexists. split; [done|]. simpl_marks.
    pose proof (frame_trans _ _ _ Hf12 Hf3) as Hf.
    split.
    + eexists _, _. split; [done|]. simpl.
      split; [by destruct Hf as (_&_&->&_)|].
      exists entry. repeat split; try done. set_solver.
    + destruct Hf as (?&?&?&?&?&?). by repeat split.
  - eapply runs_weaken; [by apply returns_on_logger_error|].
    intros res r3 evs3 (a & -> & Hm3 & Hf3 & entry & Hl & Hmsg & Hin).
    eexists. split; [done|]. simpl_marks.
    pose proof (frame_trans _ _ _ Hf12 Hf3) as Hf.
    split.
    + eexists _, _. split; [done|]. simpl.
      split; [by destruct Hf as (_&_&->&_)|].
      exists entry. repeat split; try done. set_solver.
    + destruct Hf as (?&?&?&?&?&?). by repeat split.
Qed.

Section RunSteps.
Context (script : AutomationScript) (cfg : Config.AutoConfig)
        (startTime : Z).

#[local] Abbreviation N := (Z.of_nat (length (steps script))).

(** The step with number [K] either succeeds with some data [d], or it
    fails with a message and ends the run. *)
Lemma returns_step_try step K stepStartTime stepSummary (r : Run) :
  in_session r →
  returns run_trace
    (step_try env script cfg startTime step K stepStartTime stepSummary) r
    (λ returned r' evs,
       match returned with
       | None =>
           ∃ d, marks evs = [EvStepResult K (Types.success d)]
                ∧ framed r r' (stepsExecuted r + 1)
                    (screenshots r ++ step_shots [step] [d])
       | Some result =>
           ∃ msg capture payload,
             marks evs = [EvStepResult K (failure msg)] ++ capture
                         ++ [EvCall "Logger.cleanup"]
             ∧ result = Types.success payload
             ∧ success payload = false
             ∧ res_stepsExecuted payload = stepsExecuted r
             ∧ totalSteps payload = N
             ∧ Engine.error payload = Some msg
             ∧ res_screenshots payload = screenshots r'
             ∧ capture_shape cfg K (screenshots r) capture
                             (screenshots r') evs
             ∧ framed r r' (stepsExecuted r) (screenshots r')
       end).
Proof.
  intros Hsession. unfold step_try. apply returns_bind.
  eapply returns_weaken.
  { apply returns_retry. intros r0. apply runs_operation. }
  intros stepResult r1 evs1 (Hm1 & Hf1).
  apply returns_bind, returns_on_host. unfold returns.
  apply runs_record. eexists. split; [done|].
  apply returns_bind. eapply returns_weaken; [apply returns_now|].
  intros time r2 evs2 (-> & Hf2).
  assert (frame r r2) as Hf12.
  { eapply frame_trans; [exact Hf1|]. eapply frame_trans; [|exact Hf2].
    by repeat split. }
  clear Hf1 Hf2.
  destruct stepResult as [d|msg].
  - apply returns_bind, returns_modify; [done|].
    apply returns_bind, returns_when_modify; [done|].
    set (r3 := if truthy_str d
                  && bool_decide (Types.type step = Types.screenshot)
               then push_screenshot (or_str d "")
                      (set_stepsExecuted (stepsExecuted r2 + 1) r2)
               else set_stepsExecuted (stepsExecuted r2 + 1) r2).
    assert (framed r r3 (stepsExecuted r + 1)
                   (screenshots r ++ step_shots [step] [d])) as Hf3.
    { destruct Hf12 as (?&Hs&Hshots&?&?&?). subst r3. simpl step_shots.
      rewrite app_nil_r.
      destruct (truthy_str d && _); repeat split; simpl; try done;
        rewrite ?Hs, ?Hshots, ?app_nil_r; done. }
    clearbody r3.
    apply returns_bind.
    eapply returns_weaken; [apply returns_on_logger, step_quiet|].
    intros _ r5 evs5 (Hev5 & Hf5).
    apply returns_bind.
    eapply returns_weaken; [apply returns_log_entry|].
    intros _ r6 evs6 (-> & Hf6). apply returns_ret.
    exists d. split.
    + by simpl_marks.
    + eapply framed_frame; [|exact Hf6].
      eapply framed_frame; [|exact Hf5]. done.
  - apply returns_bind.
    eapply returns_weaken; [apply returns_on_logger, step_quiet|].
    intros _ r3 evs3 (Hev3 & Hf3).
    apply returns_bind.
    eapply returns_weaken; [apply returns_log_entry|].
    intros _ r4 evs4 (-> & Hf4).
    pose proof (frame_trans _ _ _ Hf12 (frame_trans _ _ _ Hf3 Hf4)) as Hf14.
    apply returns_bind.
    eapply returns_weaken.
    { apply returns_error_screenshot. by eapply in_session_framed. }
    intros _ r5 evs5 (Hshape & Hf5).
    apply returns_bind. eapply returns_weaken; [apply returns_now|].
    intros time' r6 evs6 (-> & Hf6).
    apply returns_bind. eapply returns_weaken; [apply returns_finish|].
    intros result r7 evs7
      (Hm7 & Hf7 & payload & -> & Hok & Hsteps & Htotal & Herr & Hshots).
    apply returns_ret.
    pose proof (framed_trans _ _ _ _ _ Hf14 Hf5) as Hf15.
    pose proof (framed_frame _ _ _ _ _ Hf15 (frame_trans _ _ _ Hf6 Hf7))
      as Hf17.
    exists msg, (marks evs5), payload.
    assert (screenshots r7 = screenshots r5) as Hs75.
    { by destruct Hf17 as (_&_&->&_). }
    assert (stepsExecuted r4 = stepsExecuted r
            ∧ screenshots r4 = screenshots r) as [Hn4 Hs4].
    { by destruct Hf14 as (_&->&->&_). }
    rewrite Hn4 in Hf17. rewrite Hs4 in Hshape. rewrite <-Hs75 in Hf17.
    split; [by simpl_marks|]. split; [done|]. split; [done|].
    split; [rewrite Hsteps; by destruct Hf17 as (_&->&_)|].
    split; [done|]. split; [done|]. split; [done|]. split; [|done].
    rewrite Hs75. eapply capture_shape_mono; [exact Hshape|]. set_solver.
Qed.

(** The loop over the steps from index [i] on: either all the steps
    [rest] succeed, or the first one that fails ends the run. *)
Lemma returns_steps_loop rest (i : nat) (r : Run) :
  in_session r → stepsExecuted r = Z.of_nat i →
  returns run_trace (steps_loop env script cfg startTime i rest) r
    (λ returned r' evs,
       match returned with
       | None =>
           ∃ ds, length ds = length rest
                 ∧ marks evs = success_marks (Z.of_nat i) ds
                 ∧ framed r r' (Z.of_nat i + Z.of_nat (length rest))
                     (screenshots r ++ step_shots rest ds)
       | Some result =>
           ∃ ds K msg capture payload,
             (length ds < length rest)%nat
             ∧ K = Z.of_nat i + Z.of_nat (length ds) + 1
             ∧ marks evs = success_marks (Z.of_nat i) ds
                           ++ [EvStepResult K (failure msg)] ++ capture
                           ++ [EvCall "Logger.cleanup"]
             ∧ result = Types.success payload
             ∧ success payload = false
             ∧ res_stepsExecuted payload = K - 1
             ∧ totalSteps payload = N
             ∧ Engine.error payload = Some msg
             ∧ res_screenshots payload = screenshots r'
             ∧ capture_shape cfg K (screenshots r ++ step_shots rest ds)
                             capture (screenshots r') evs
             ∧ framed r r' (K - 1) (screenshots r')
       end).
Proof.
  revert i r. induction rest as [|step rest IH]; intros i r Hsession Hi.
  { apply returns_ret. exists []. split; [done|]. split; [done|].
    simpl. rewrite app_nil_r, Z.add_0_r, <-Hi. by repeat split. }
  simpl steps_loop. apply returns_bind.
  eapply returns_weaken; [apply returns_now|].
  intros stepStartTime r1 evs1 (-> & Hf1).
  apply returns_bind.
  eapply returns_weaken; [apply returns_on_logger, info_quiet|].
  intros _ r2 evs2 (Hev2 & Hf2).
  pose proof (frame_trans _ _ _ Hf1 Hf2) as Hf12.
  apply returns_bind, returns_try_catch.
  eapply returns_weaken.
  { apply returns_step_try. by eapply in_session_framed. }
  intros [result|] r3 evs3.
  - intros (msg & capture & payload & Hm3 & -> & Hok & Hsteps & Htotal
            & Herr & Hshots & Hshape & Hf3).
    apply returns_ret.
    exists [], (Z.of_nat i + 1), msg, capture, payload.
    assert (stepsExecuted r2 = Z.of_nat i ∧ screenshots r2 = screenshots r)
      as [Hn2 Hs2].
    { destruct Hf12 as (_&->&->&_). done. }
    rewrite Hn2 in Hf3, Hsteps. rewrite Hs2 in Hshape.
    split; [simpl; lia|]. split; [simpl; lia|].
    split; [by simpl_marks|]. split; [done|]. split; [done|].
    split; [lia|]. split; [done|]. split; [done|]. split; [done|].
    split.
    + simpl step_shots. rewrite !app_nil_r.
      eapply capture_shape_mono; [exact Hshape|]. set_solver.
    + replace (Z.of_nat i + 1 - 1) with (Z.of_nat i) by lia.
      by eapply framed_trans.
  - intros (d & Hm3 & Hf3).
    pose proof (framed_trans _ _ _ _ _ Hf12 Hf3) as Hf13.
    assert (stepsExecuted r2 = Z.of_nat i ∧ screenshots r2 = screenshots r)
      as [Hn2 Hs2].
    { destruct Hf12 as (_&->&->&_). done. }
    rewrite Hn2, Hs2 in Hf13.
    assert (stepsExecuted r3 = Z.of_nat (S i)
            ∧ screenshots r3 = screenshots r ++ step_shots [step] [d])
      as [Hn3 Hs3].
    { destruct Hf13 as (_&->&->&_). split; [lia|done]. }
    eapply returns_weaken.
    { apply (IH (S i) r3); [by eapply in_session_framed|done]. }
    intros [result|] r4 evs4.
    + intros (ds & K & msg & capture & payload & Hlen & HK & Hm4 & -> & Hok
              & Hsteps & Htotal & Herr & Hshots & Hshape & Hf4).
      exists (d :: ds), K, msg, capture, payload.
      split; [simpl; lia|]. split; [simpl length; lia|].
      split.
      { simpl_marks. simpl success_marks.
        replace (Z.of_nat i + 1) with (Z.of_nat (S i)) by lia. done. }
      split; [done|]. split; [done|]. split; [done|]. split; [done|].
      split; [done|]. split; [done|]. split.
      * rewrite Hs3 in Hshape. simpl step_shots in *.
        rewrite app_nil_r, <-app_assoc in Hshape.
        eapply capture_shape_mono; [exact Hshape|]. set_solver.
      * by eapply framed_compose.
    + intros (ds & Hlen & Hm4 & Hf4).
      exists (d :: ds). split; [simpl; lia|]. split.
      { simpl_marks. simpl success_marks.
        replace (Z.of_nat i + 1) with (Z.of_nat (S i)) by lia. done. }
      rewrite Hs3 in Hf4. simpl step_shots in *.
      rewrite app_nil_r, <-app_assoc in Hf4.
      replace (Z.of_nat i + Z.of_nat (length (step :: rest)))
        with (Z.of_nat (S i) + Z.of_nat (length rest))
        by (simpl length; lia).
      by eapply framed_compose.
Qed.

Lemma release_marks_marks controller released :
  release_marks controller released → marks released = released.
Proof.
  intros (closes & -> & Hcloses). rewrite marks_cons_mark by done.
  f_equal. by eapply close_attempts_marks.
Qed.

(** [finally] releases the browser session if there is one. *)
Lemma returns_run_finally (r : Run) :
  returns run_trace (run_finally env) r (λ _ r' evs,
    frame r r'
    ∧ match browserController r with
      | Some controller => release_marks controller (marks evs)
      | None => evs = []
      end).
Proof.
  unfold run_finally. apply returns_bind, returns_gets.
  destruct (browserController r) as [controller|] eqn:Hctrl;
    [|apply returns_ret; split; [apply frame_refl|done]].
  apply returns_bind, returns_on_host.
  eapply returns_weaken; [apply closeBrowser_runs|].
  intros result σ evs1 (Hrel & _).
  apply returns_bind.
  eapply returns_weaken; [apply returns_on_logger, browser_quiet|].
  intros _ r2 evs2 (Hev2 & Hf2).
  eapply returns_weaken; [apply returns_log_entry|].
  intros _ r3 evs3 (-> & Hf3). split.
  - eapply frame_trans; [|eapply frame_trans; [exact Hf2|exact Hf3]].
    by repeat split.
  - simpl_marks. by rewrite (release_marks_marks controller).
Qed.

(** The outer [catch]. *)
Lemma returns_run_catch e (r : Run) :
  returns run_trace (run_catch env script startTime e) r
    (λ result r' evs,
       marks evs = [EvCall "Logger.cleanup"]
       ∧ frame r r'
       ∧ ∃ payload,
           result = Types.success payload
           ∧ success payload = false
           ∧ res_stepsExecuted payload = 0
           ∧ totalSteps payload = N
           ∧ Engine.error payload = Some e).
Proof.
  unfold run_catch. apply returns_bind.
  eapply returns_weaken; [apply returns_now|].
  intros time r1 evs1 (-> & Hf1).
  apply returns_bind.
  eapply returns_weaken; [apply returns_on_logger, error_quiet|].
  intros _ r2 evs2 (Hev2 & Hf2).
  eapply returns_weaken; [apply returns_finish|].
  intros result r3 evs3
    (Hm3 & Hf3 & payload & -> & Hok & Hsteps & Htotal & Herr & _).
  split; [by simpl_marks|].
  split; [by eapply frame_trans; [|eapply frame_trans]|].
  by exists payload.
Qed.

(** Once all steps succeeded. *)
Lemma returns_completed (r : Run) :
  returns run_trace (completed env script startTime) r
    (λ result r' evs,
       marks evs = [EvCall "Logger.cleanup"]
       ∧ frame r r'
       ∧ ∃ payload,
           result = Types.success payload
           ∧ success payload = true
           ∧ res_stepsExecuted payload = stepsExecuted r'
           ∧ totalSteps payload = N
           ∧ Engine.error payload = None).
Proof.
  unfold completed. apply returns_bind.
  eapply returns_weaken; [apply returns_now|].
  intros time r1 evs1 (-> & Hf1).
  apply returns_bind, returns_gets, returns_bind, returns_gets.
  apply returns_bind.
  eapply returns_weaken; [apply returns_on_logger, info_quiet|].
  intros _ r2 evs2 (Hev2 & Hf2).
  apply returns_bind.
  eapply returns_weaken; [apply returns_log_entry|].
  intros _ r3 evs3 (-> & Hf3).
  apply returns_bind, returns_gets.
  apply returns_bind, returns_bind, returns_gets, returns_on_host.
  eapply runs_weaken; [apply cleanup_runs|].
  intros res σ evs4 (-> & evs' & -> & Hev'). eexists. split; [done|].
  apply returns_bind, returns_gets, returns_ret.
  split; [by simpl_marks|]. split.
  - eapply frame_trans; [exact Hf1|]. eapply frame_trans; [exact Hf2|].
    eapply frame_trans; [exact Hf3|]. by repeat split.
  - by eexists.
Qed.

(** The body of the outer [try] with its [catch]. *)
Lemma returns_run_body (r : Run) :
  browserController r = None → screenshots r = [] →
  enableConsoleLogging (config (logger r)) = true →
  returns run_trace
    (try_catch (run_script env script cfg startTime)
               (run_catch env script startTime)) r
    (λ result r' evs,
       body_shape (URL_parses env) script cfg result (browserController r')
                  (screenshots r') evs).
Proof.
  intros Hctrl Hshots Hconsole. unfold returns.
  apply runs_try_catch. unfold run_script. apply runs_bind.
  eapply runs_weaken; [apply returns_on_logger, info_quiet|].
  intros res r1 evs1 (a & -> & Hev1 & Hf1).
  destruct (Validator.errors (Validator.validateScript (URL_parses env)
                                script)) as [|verr verrs] eqn:Herr.
  2:{ apply runs_bind.
      eapply runs_weaken; [apply returns_on_logger, validation_quiet|].
      intros res r2 evs2 (a2 & -> & Hev2 & Hf2).
      apply runs_ret. eexists. split; [done|].
      pose proof (frame_trans _ _ _ Hf1 Hf2) as (Hc&_&Hs&_).
      rewrite Hc, Hs, Hctrl, Hshots.
      apply body_invalid; [by rewrite Herr|by simpl_marks]. }
  apply runs_bind.
  assert (returns run_trace
            (match Validator.warnings
                     (Validator.validateScript (URL_parses env) script) with
             | [] =>
                 on_logger
                   (Logger.validation env "Script validation passed" None
                      None)
             | _ :: _ =>
                 exec on_logger
                        (Logger.validation env
                           "Script validation completed with warnings"
                           (Some [])
                           (Some (Validator.warnings
                                    (Validator.validateScript
                                       (URL_parses env) script)))) ;;
                 when (Config.verbose (Config.logging cfg))
                   (log_entry env 0 "validation" status_warning
                      (Validator.formatValidationResults
                         (Validator.validateScript (URL_parses env) script))
                      None)
             end) r1
            (λ _ r' evs, marks evs = [] ∧ frame r1 r')) as Hwarn.
  { destruct (Validator.warnings _).
    - eapply returns_weaken; [apply returns_on_logger, validation_quiet|].
      intros _ r2 evs2 (Hev2 & Hf2). split; [by simpl_marks|done].
    - apply returns_bind.
      eapply returns_weaken; [apply returns_on_logger, validation_quiet|].
      intros _ r2 evs2 (Hev2 & Hf2). apply returns_when.
      destruct (Config.verbose _).
      + eapply returns_weaken; [apply returns_log_entry|].
        intros _ r3 evs3 (-> & Hf3).
        split; [by simpl_marks|by eapply frame_trans].
      + split; [by simpl_marks|done]. }
  eapply runs_weaken; [exact Hwarn|]. clear Hwarn.
  intros res r2 evs2 (a2 & -> & Hm2 & Hf2).
  pose proof (frame_trans _ _ _ Hf1 Hf2) as Hf12. clear Hf1 Hf2.
  apply runs_bind.
  eapply runs_weaken; [apply runs_call_initializeBrowser|].
  intros res r3 evs3 (outcome & Hm3 & Hf3 & ->).
  pose proof (frame_trans _ _ _ Hf12 Hf3) as Hf13. clear Hf12 Hf3.
  assert (browserController r3 = None ∧ screenshots r3 = []
          ∧ stepsExecuted r3 = stepsExecuted r
          ∧ enableConsoleLogging (config (logger r3)) = true)
    as (Hc3 & Hs3 & Hn3 & Hl3).
  { destruct Hf13 as (->&->&->&->&_). done. }
  destruct outcome as [[controller|e]|e].
  - (* a browser session *)
    apply runs_bind, runs_modify with (evs := []);
      [by rewrite app_nil_r|].
    set (r4 := set_browserController controller r3).
    destruct (page controller) as [handle|] eqn:Hpage.
    + apply runs_bind.
      eapply runs_weaken; [apply returns_log_entry|].
      intros res r5 evs5 (a5 & -> & -> & Hf5).
      apply runs_bind, runs_modify with (evs := []);
        [by rewrite app_nil_r|].
      set (r6 := set_stepsExecuted 0 r5).
      assert (in_session r6 ∧ stepsExecuted r6 = Z.of_nat 0
              ∧ screenshots r6 = []
              ∧ browserController r6 = Some controller)
        as (Hsession & Hn6 & Hs6 & Hc6).
      { destruct Hf5 as (Hc5&_&Hs5&Hl5&_). subst r6 r4.
        unfold in_session. simpl in *.
        rewrite Hc5, Hs5, Hl5. repeat split; try done.
        exists controller. split; [done|]. by rewrite Hpage. }
      clearbody r6. apply runs_bind.
      eapply runs_weaken; [by apply returns_steps_loop|].
      intros res r7 evs7 (returned & -> & Hloop).
      destruct returned as [result|].
      * destruct Hloop as (ds & K & msg & capture & payload & Hlen & HK & Hm7
                           & -> & Hok & Hsteps & Htotal & Herror & Hres
                           & Hshape & Hf7).
        apply runs_ret. eexists. split; [done|].
        destruct Hf7 as (Hc7&_&_). rewrite Hc7, Hc6.
        rewrite Hs6 in Hshape. simpl in Hshape.
        eapply (body_step_failed _ _ _ _ _ ds K msg capture); try done.
        -- by rewrite Hpage.
        -- by simpl_marks.
        -- lia.
        -- eapply capture_shape_mono; [exact Hshape|]. set_solver.
      * destruct Hloop as (ds & Hlen & Hm7 & Hf7).
        eapply runs_weaken; [apply returns_completed|].
        intros res r8 evs8
          (result & -> & Hm8 & Hf8 & payload & -> & Hok & Hsteps & Htotal
           & Herror).
        eexists. split; [done|].
        pose proof (framed_frame _ _ _ _ _ Hf7 Hf8) as (Hc8&Hn8&Hs8&_).
        rewrite Hc8, Hc6, Hs8, Hs6. simpl.
        eapply (body_completed _ _ _ _ _ ds); try done.
        -- by rewrite Hpage.
        -- by simpl_marks.
        -- rewrite Hsteps, Hn8. simpl. lia.
    + apply runs_bind.
      eapply runs_weaken; [apply returns_on_logger, error_quiet|].
      intros res r5 evs5 (a5 & -> & Hev5 & Hf5).
      apply runs_ret. eexists. split; [done|].
      destruct Hf5 as (Hc5&_&Hs5&_). rewrite Hc5, Hs5. subst r4. simpl.
      rewrite Hs3. apply body_no_page; [done..|by simpl_marks].
  - (* initializeBrowser returned a failure *)
    apply runs_bind.
    eapply runs_weaken; [apply returns_on_logger, error_quiet|].
    intros res r5 evs5 (a5 & -> & Hev5 & Hf5).
    apply runs_ret. eexists. split; [done|].
    destruct Hf5 as (Hc5&_&Hs5&_). rewrite Hc5, Hs5, Hc3, Hs3.
    apply body_init_failed; [done|by simpl_marks].
  - (* initializeBrowser threw *)
    eapply runs_weaken; [apply returns_run_catch|].
    intros res r5 evs5
      (result & -> & Hm5 & Hf5 & payload & -> & Hok & Hsteps & Htotal
       & Herror).
    eexists. split; [done|].
    destruct Hf5 as (Hc5&_&Hs5&_). rewrite Hc5, Hs5, Hc3, Hs3.
    apply (body_init_thrown _ _ _ _ e); try done. by simpl_marks.
Qed.

End RunSteps.

(** Every run of [executeScript] returns, and takes one of the courses of
    [run_shape]. *)
Lemma executeScript_shape script cfg (σ : Sys World) :
  returns trace (executeScript env script cfg) σ (λ result _ evs,
    run_shape (URL_parses env) script cfg (Ok result) evs).
Proof.
  unfold executeScript. apply returns_bind. unfold returns at 1.
  apply runs_ask. eexists. split; [done|].
  set (startTime := (Date_now env (world σ)).1).
  apply returns_bind.
  eapply runs_weaken; [apply createLogger_runs|].
  intros res σ1 evs1 (self & -> & Hev1 & Hconfig). eexists. split; [done|].
  set (r0 := {| sys := σ1; logger := self; logs := []; screenshots := [];
                browserController := None; stepsExecuted := 0 |}).
  assert (returns run_trace
            (try_finally
               (try_catch (run_script env script cfg startTime)
                          (run_catch env script startTime))
               (run_finally env)) r0
            (λ result r' evs,
               run_shape (URL_parses env) script cfg
                 (Ok (shared_arrays r' result)) (evs1 ++ evs))) as Hrun.
  { apply returns_try_finally.
    eapply returns_weaken.
    { apply returns_run_body; [done|done|]. simpl. by rewrite Hconfig. }
    intros result r1 evs2 Hbody.
    eapply returns_weaken; [apply returns_run_finally|].
    intros _ r2 evs3 (Hf & Hrelease).
    destruct Hf as (Hc2 & _ & Hs2 & _).
    remember (browserController r1) as bc eqn:Hbc.
    remember (screenshots r1) as sh eqn:Hsh.
    destruct Hbody
      as [evs Herr Hm|evs e Herr Hm|evs e payload Herr Hm Hok Hn Ht He
         |evs controller Herr Hpage Hm
         |evs controller ds K msg capture payload shots Herr Hpage Hm HK HKN
            Hok Hn Ht He Hshape
         |evs controller ds payload Herr Hpage Hlen Hm Hok Hn Ht He];
      simpl; subst bc sh; simpl in Hrelease.
    - subst evs3. apply shape_invalid; [done|by simpl_marks].
    - subst evs3. eapply shape_init_failed; [done|by simpl_marks].
    - subst evs3. apply (shape_init_thrown _ _ _ _ e); try done.
      by simpl_marks.
    - eapply shape_no_page; [done..| |exact Hrelease]. by simpl_marks.
    - eapply (shape_step_failed _ _ _ _ controller ds K msg capture
                (marks evs3));
        try done.
      + simpl_marks. simpl. f_equal.
        by repeat (rewrite <-?app_assoc; simpl).
      + simpl. rewrite Hs2.
        eapply capture_shape_mono; [exact Hshape|]. set_solver.
    - eapply (shape_completed _ _ _ _ controller ds (marks evs3)); try done.
      simpl_marks. simpl. f_equal.
      by repeat (rewrite <-?app_assoc; simpl). }
  apply returns_eq in Hrun as (result & r' & evs & Hrun & Htr & Hshape).
  subst r0. unfold returns, runs. rewrite Hrun. simpl. exists evs.
  split; [exact Htr|]. eexists. split; [done|]. exact Hshape.
Qed.

End EngineProps.

(** ** Observations on the marks *)

Lemma new_events_app {World} (σ σ' : Sys World) evs :
  trace σ' = trace σ ++ evs → new_events σ σ' = evs.
Proof. intros H. unfold new_events. rewrite H. apply drop_app_length. Qed.

Lemma omap_marks {A} (f : Event → option A) evs :
  (∀ ev, plain_event ev = true → f ev = None) →
  omap f evs = omap f (marks evs).
Proof.
  intros Hf. induction evs as [|ev evs IH]; [done|].
  destruct (plain_event ev) eqn:Hp.
  - rewrite marks_cons_plain by done. simpl. rewrite (Hf ev Hp). exact IH.
  - rewrite marks_cons_mark by done. simpl.
    destruct (f ev); [f_equal|]; exact IH.
Qed.

Lemma step_results_marks evs : step_results evs = step_results (marks evs).
Proof. apply omap_marks. by intros []. Qed.

Lemma closes_of_marks evs : closes_of evs = closes_of (marks evs).
Proof. apply omap_marks. by intros []. Qed.

Lemma calls_of_marks evs : calls_of evs = calls_of (marks evs).
Proof. apply omap_marks. by intros []. Qed.

Lemma sessions_of_marks evs : sessions_of evs = sessions_of (marks evs).
Proof. apply omap_marks. by intros []. Qed.

Lemma screenshot_calls_marks evs :
  screenshot_calls evs = screenshot_calls (marks evs).
Proof. apply omap_marks. by intros []. Qed.

Lemma first_failure_marks evs : first_failure evs = first_failure (marks evs).
Proof.
  induction evs as [|ev evs IH]; [done|].
  destruct (plain_event ev) eqn:Hp.
  - rewrite marks_cons_plain by done. by destruct ev.
  - rewrite marks_cons_mark by done. destruct ev as [| | | | | | | | | | |? []];
      simpl; by rewrite ?IH.
Qed.

Lemma first_failure_app evs1 evs2 :
  first_failure (evs1 ++ evs2)
  = match first_failure evs1 with
    | Some found => Some found
    | None => first_failure evs2
    end.
Proof.
  induction evs1 as [|ev evs1 IH]; [done|].
  destruct ev as [| | | | | | | | | | |? []]; simpl; by rewrite ?IH.
Qed.

(** The steps that succeeded. *)
Lemma first_failure_success_marks i ds : first_failure (success_marks i ds) = None.
Proof. revert i. induction ds as [|d ds IH]; intros i; simpl; by rewrite ?IH. Qed.

Lemma step_results_success_marks i ds :
  step_results (success_marks i ds) = successes i ds.
Proof.
  revert i. induction ds as [|d ds IH]; intros i; [done|].
  simpl. f_equal. apply IH.
Qed.

Lemma closes_of_success_marks i ds : closes_of (success_marks i ds) = [].
Proof. revert i. induction ds as [|d ds IH]; intros i; [done|]. apply IH. Qed.

Lemma calls_of_success_marks i ds : calls_of (success_marks i ds) = [].
Proof. revert i. induction ds as [|d ds IH]; intros i; [done|]. apply IH. Qed.

Lemma sessions_of_success_marks i ds : sessions_of (success_marks i ds) = [].
Proof. revert i. induction ds as [|d ds IH]; intros i; [done|]. apply IH. Qed.

Lemma screenshot_calls_success_marks i ds :
  screenshot_calls (success_marks i ds) = [].
Proof. revert i. induction ds as [|d ds IH]; intros i; [done|]. apply IH. Qed.

(** The close calls of [closeBrowser]. *)
Lemma close_attempts_observed targets closes :
  close_attempts targets closes →
  first_failure closes = None
  ∧ step_results closes = []
  ∧ calls_of closes = []
  ∧ sessions_of closes = []
  ∧ screenshot_calls closes = []
  ∧ closed_until_throw (closes_of closes) targets.
Proof.
  revert closes. induction targets as [|t ts IH]; intros closes; simpl.
  - by intros ->.
  - intros (thrown & closes' & -> & H). simpl.
    destruct thrown as [e|].
    + subst closes'. repeat split; try done. by exists (Some e), [].
    + destruct (IH _ H) as (? & ? & ? & ? & ? & ?).
      repeat split; try done. by exists None, (closes_of closes').
Qed.

Lemma release_marks_observed controller released :
  release_marks controller released →
  first_failure released = None
  ∧ step_results released = []
  ∧ calls_of released = ["closeBrowser"]
  ∧ sessions_of released = []
  ∧ screenshot_calls released = []
  ∧ closed_until_throw (closes_of released) (close_targets controller).
Proof.
  intros (closes & -> & H).
  destruct (close_attempts_observed _ _ H) as (? & ? & Hc & ? & ? & ?).
  repeat split; try done.
  change (calls_of (EvCall "closeBrowser" :: closes))
    with ("closeBrowser" :: calls_of closes).
  by rewrite Hc.
Qed.

(** The capture of the error screenshot. *)
Lemma capture_shape_observed config K shots capture shots' evs :
  capture_shape config K shots capture shots' evs →
  first_failure capture = None
  ∧ step_results capture = []
  ∧ calls_of capture = []
  ∧ sessions_of capture = []
  ∧ closes_of capture = []
  ∧ (screenshot_calls evs = screenshot_calls capture →
     error_capture config K shots shots' evs).
Proof.
  unfold capture_shape, error_capture.
  destruct (Config.screenshotOnError _).
  - intros (filename & outcome & -> & H). repeat split; try done.
    intros ->. by exists filename, outcome.
  - intros (-> & ->). repeat split; try done.
Qed.

(** Distributes the observations over the pieces of a list of marks. *)
Ltac observe :=
  pose proof first_failure_success_marks;
  pose proof step_results_success_marks;
  pose proof closes_of_success_marks;
  pose proof calls_of_success_marks;
  pose proof sessions_of_success_marks;
  pose proof screenshot_calls_success_marks;
  unfold step_results, closes_of, calls_of, sessions_of, screenshot_calls
    in *;
  repeat first
    [ progress simpl
    | match goal with
      | |- context [list_omap ?A ?B ?f ?l] =>
          change (list_omap A B f l) with (omap f l)
      end
    | rewrite omap_app
    | match goal with
      | H : ∀ i ds, omap ?f (success_marks i ds) = _
        |- context [omap ?f (success_marks _ _)] => rewrite H
      end ].

(** ** Runs of [executeScript] *)

Section EngineClaims.
Import Engine.
Context {World : Type} (env : Env World).

(** Every run returns; its new events have one of the shapes. *)
Lemma executeScript_run script cfg (σ : Sys World) :
  ∃ result,
    (executeScript env script cfg σ).1 = Ok result
    ∧ trace (executeScript env script cfg σ).2
      = trace σ ++ new_events σ (executeScript env script cfg σ).2
    ∧ run_shape (URL_parses env) script cfg (Ok result)
                (new_events σ (executeScript env script cfg σ).2).
Proof.
  destruct (returns_eq _ _ _ _ (executeScript_shape env script cfg σ))
    as (result & σ' & evs & Hrun & Htr & Hshape).
  rewrite Hrun. simpl. rewrite (new_events_app _ _ _ Htr). eauto.
Qed.

(** C5. When the validator reports an error for the script,
    [executeScript] returns a function-level failure with the formatted
    validation errors, and [initializeBrowser] is not called: among the
    events of the run there is no call of [initializeBrowser], and no
    screenshot, close or step either. *)
Theorem executeScript_invalid_no_browser script cfg (σ : Sys World) :
  Validator.errors (Validator.validateScript (URL_parses env) script) ≠ [] →
  (executeScript env script cfg σ).1
  = Ok (failure
          ("Script validation failed:" +:+ nl
           +:+ Validator.formatValidationResults
                 (Validator.validateScript (URL_parses env) script)))
  ∧ Forall (λ ev, browser_opening ev = false)
           (new_events σ (executeScript env script cfg σ).2)
  ∧ marks (new_events σ (executeScript env script cfg σ).2) = [].
Proof.
  intros Herr.
  destruct (executeScript_run script cfg σ) as (result & -> & _ & Hshape).
  inversion Hshape as [evs ? Hm| | | | |]; subst; try done.
  split; [done|]. split; [|done].
  apply Forall_forall. intros ev Hev.
  destruct (browser_opening ev) eqn:Hopen; [|done].
  assert (ev ∈ marks (new_events σ (executeScript env script cfg σ).2))
    as Hin by (apply elem_of_marks; split; [done|by destruct ev]).
  rewrite Hm in Hin. by apply elem_of_nil in Hin.
Qed.


(** C1, as amended. When step [K] is the first step for which the retry
    executor returns a failure, with message [msg], [executeScript] returns
    a function-level success whose payload has [success = false],
    [stepsExecuted] equal to the number of steps before [K], all of which
    succeeded, [totalSteps] equal to the number of steps of the script and
    [error] equal to [msg]. With [screenshotOnError] one capture is
    attempted: the path it returns is appended to [screenshots]; when the
    capture returns a failure or throws, that is logged at error level,
    the run still returns the payload, and [screenshots] holds no entry for
    the error. *)
Theorem executeScript_step_failure script cfg (σ : Sys World) K msg :
  let evs := new_events σ (executeScript env script cfg σ).2 in
  first_failure evs = Some (K, msg) →
  ∃ payload ds,
    (executeScript env script cfg σ).1 = Ok (Types.success payload)
    ∧ step_results evs = successes 0 ds ++ [(K, failure msg)]
    ∧ K = Z.of_nat (length ds) + 1
    ∧ K ≤ Z.of_nat (length (steps script))
    ∧ success payload = false
    ∧ res_stepsExecuted payload = Z.of_nat (length ds)
    ∧ totalSteps payload = Z.of_nat (length (steps script))
    ∧ error payload = Some msg
    ∧ error_capture cfg K (step_shots (steps script) ds)
                    (res_screenshots payload) evs.
Proof.
  intros evs Hfirst.
  destruct (executeScript_run script cfg σ) as (result & Hrun & _ & Hshape).
  fold evs in Hshape. clearbody evs.
  rewrite first_failure_marks in Hfirst.
  inversion Hshape
    as [? Herr Hm|? e Herr Hm|? e payload Herr Hm
       |? controller released Herr Hpage Hm Hrel
       |? controller ds K' msg' capture released payload Herr Hpage Hm HK HKN
          Hrel Hok Hn Ht He Hcap
       |? controller ds released payload Herr Hpage Hlen Hm Hrel];
    subst; rewrite Hm in Hfirst; try done.
  - destruct (release_marks_observed _ _ Hrel) as (Hf & _).
    simpl in Hfirst. congruence.
  - destruct (release_marks_observed _ _ Hrel) as (Hf & Hr & _ & _ & Hs & _).
    destruct (capture_shape_observed _ _ _ _ _ _ Hcap)
      as (Hf' & Hr' & _ & _ & _ & Hshots).
    simpl in Hfirst.
    rewrite first_failure_app, first_failure_success_marks in Hfirst.
    injection Hfirst as <- <-.
    exists payload, ds. split; [done|].
    split.
    { rewrite step_results_marks, Hm. observe. by rewrite Hr, Hr'. }
    repeat (split; [done || lia|]).
    apply Hshots. rewrite screenshot_calls_marks, Hm. observe.
    by rewrite Hs, app_nil_r.
  - destruct (release_marks_observed _ _ Hrel) as (Hf & _).
    simpl in Hfirst.
    rewrite first_failure_app, first_failure_success_marks in Hfirst.
    simpl in Hfirst. congruence.
Qed.

End EngineClaims.

(* ===================================================================== *)
(** * Concrete runs *)
(* ===================================================================== *)

Section ClassifierRuns.
Import ErrorHandler.

(** A message with a timeout keyword and a not-found keyword, and no
    network keyword, is a timeout. *)
Lemma classifyError_timeout_witness :
  contains_ci "Timeout: element not found" "timeout"
  ∧ (∀ m, m ∈ network_markers →
          ¬ contains_ci "Timeout: element not found" m)
  ∧ type (classifyError (St:=unit) "Timeout: element not found" None None)
    = TIMEOUT_ERROR
  ∧ isRetryable
      (classifyError (St:=unit) "Timeout: element not found" None None)
    = true.
Proof.
  assert (contains_ci "Timeout: element not found" "timeout") as H1
    by (apply contains_ci_includes; reflexivity).
  assert (∀ m, m ∈ network_markers →
               ¬ contains_ci "Timeout: element not found" m) as H2.
  { intros m Hm Hc. apply contains_ci_includes in Hc.
    unfold network_markers in Hm.
    repeat (apply elem_of_cons in Hm as [->|Hm]; [by vm_compute in Hc|]).
    by apply elem_of_nil in Hm. }
  split; [exact H1|]. split; [exact H2|].
  exact (classifyError_timeout "Timeout: element not found" None None H1 H2).
Defined.

(** C3, counterexample. [Connection timeout] contains the timeout keyword
    and no element-not-found keyword, and is classified as a network
    error: the network test comes first. *)
Lemma classifyError_connection_timeout :
  contains_ci "Connection timeout" "timeout"
  ∧ (∀ m, m ∈ not_found_markers → ¬ contains_ci "Connection timeout" m)
  ∧ type (classifyError (St:=unit) "Connection timeout" None None)
    = NETWORK_ERROR.
Proof.
  split; [apply contains_ci_includes; reflexivity|]. split; [|reflexivity].
  intros m Hm Hc. apply contains_ci_includes in Hc.
  unfold not_found_markers in Hm.
  repeat (apply elem_of_cons in Hm as [->|Hm]; [by vm_compute in Hc|]).
  by apply elem_of_nil in Hm.
Qed.


End ClassifierRuns.

Section RetryRuns.
Import ErrorHandler Scenario.

#[local] Abbreviation classify_counted :=
  (classifyError (St:=list Z * nat)).
#[local] Abbreviation retry_counted operation config :=
  (executeWithSmartRetry (counting_env pauses) (counted operation) config
                         None (Some 1)).


(** An invalid selector, budget 5: one invocation. *)
Lemma executeWithSmartRetry_validation_once_witness :
  failing "Invalid selector" [] = (Ok (failure "Invalid selector"), [])
  ∧ type (classify_counted "Invalid selector" None (Some 1))
    = VALIDATION_ERROR
  ∧ retry_counted (failing "Invalid selector") (budget 5) ([], 0%nat)
    = (Ok (failure
             "Script validation failed (validation_error, attempted 1 times)"),
       ([], 1%nat)).
Proof.
  assert (failing "Invalid selector" []
          = (Ok (failure "Invalid selector"), [])) as H1 by reflexivity.
  assert (type (classify_counted "Invalid selector" None (Some 1))
          = VALIDATION_ERROR) as H2 by reflexivity.
  split; [exact H1|]. split; [exact H2|].
  exact (executeWithSmartRetry_validation_once pauses
           (failing "Invalid selector") (budget 5) None (Some 1) [] []
           "Invalid selector" H1 H2).
Defined.

(** A refused connection, budget 0: still one invocation. *)
Lemma executeWithSmartRetry_at_least_once_witness :
  (0 < (retry_counted (failing "Connection refused") (budget 0)
                      ([], 0%nat)).2.2)%nat
  ∧ Config.retryAttempts (Config.actions (budget 0)) ≤ 1
  ∧ fails_with (failing "Connection refused") [] "Connection refused" []
  ∧ retry_counted (failing "Connection refused") (budget 0) ([], 0%nat)
    = (Ok (failure
             "Network connection issue detected (network_error, attempted 1 times)"),
       ([], 1%nat)).
Proof.
  assert (Config.retryAttempts (Config.actions (budget 0)) ≤ 1) as H1
    by (simpl; lia).
  assert (fails_with (failing "Connection refused") []
                     "Connection refused" []) as H2
    by (apply fails_declared; reflexivity).
  pose proof (executeWithSmartRetry_at_least_once pauses
                (failing "Connection refused") (budget 0) None
                (Some 1)) as [Hany Hone].
  split; [exact (Hany [] 0%nat)|]. split; [exact H1|]. split; [exact H2|].
  exact (Hone H1 [] [] "Connection refused" H2).
Defined.

End RetryRuns.

Section LoggerRuns.
Import Scenario.

#[local] Abbreviation quiet_host := (host (Returns (failure "disk full")) None).


(** An info emission on a logger with the minimum level [WARN]. *)
Lemma log_below_minimum_not_buffered_witness :
  below_minimum INFO warn_logger
  ∧ ∃ self',
      Logger.log quiet_host INFO "engine" "started" None None None
                 warn_logger start
      = (Ok self', start)
      ∧ logBuffer self' = logBuffer warn_logger
      ∧ Logger.getSessionSummary self' = Logger.getSessionSummary warn_logger
      ∧ Logger.getExecutionTimeline self'
        = Logger.getExecutionTimeline warn_logger
      ∧ ∀ csv, Logger.exportLogs quiet_host csv self'
               = Logger.exportLogs quiet_host csv warn_logger.
Proof.
  assert (below_minimum INFO warn_logger) as H1
    by (unfold below_minimum; simpl; lia).
  split; [exact H1|].
  exact (log_below_minimum_not_buffered quiet_host INFO "engine" "started"
           None None None warn_logger start H1).
Defined.

End LoggerRuns.

Section EngineRuns.
Import Engine Scenario.

(** A script without steps is rejected before any browser is opened. *)
Lemma executeScript_invalid_no_browser_witness :
  let env := host (Returns (failure "disk full")) None in
  Validator.errors (Validator.validateScript (URL_parses env) empty_script)
  ≠ []
  ∧ (executeScript env empty_script config start).1
    = Ok (failure
            ("Script validation failed:" +:+ nl
             +:+ Validator.formatValidationResults
                   (Validator.validateScript (URL_parses env) empty_script)))
  ∧ Forall (λ ev, browser_opening ev = false)
           (new_events start (executeScript env empty_script config start).2)
  ∧ marks (new_events start (executeScript env empty_script config start).2)
    = [].
Proof.
  intros env.
  assert (Validator.errors
            (Validator.validateScript (URL_parses env) empty_script) ≠ [])
    as H1 by (vm_compute; discriminate).
  split; [exact H1|].
  exact (executeScript_invalid_no_browser env empty_script config start H1).
Defined.

(** The second of three steps fails and the error screenshot is taken. *)
Lemma executeScript_step_failure_witness :
  let env := host (Returns (Types.success "shots/error-step-2.png")) None in
  let msg :=
    "Unknown error: Element is detached (unknown_error, attempted 2 times)" in
  let evs := new_events start (executeScript env script config start).2 in
  first_failure evs = Some (2, msg)
  ∧ ∃ payload ds,
      (executeScript env script config start).1 = Ok (Types.success payload)
      ∧ step_results evs = successes 0 ds ++ [(2, failure msg)]
      ∧ 2 = Z.of_nat (length ds) + 1
      ∧ 2 ≤ Z.of_nat (length (steps script))
      ∧ success payload = false
      ∧ res_stepsExecuted payload = Z.of_nat (length ds)
      ∧ totalSteps payload = Z.of_nat (length (steps script))
      ∧ error payload = Some msg
      ∧ error_capture config 2 (step_shots (steps script) ds)
                      (res_screenshots payload) evs.
Proof.
  intros env msg evs.
  assert (first_failure evs = Some (2, msg)) as H1
    by (vm_compute; reflexivity).
  split; [exact H1|].
  exact (executeScript_step_failure env script config start 2 msg H1).
Defined.

(** C1, counterexample. [screenshotOnError] is set, the second of three
    steps fails, and [takeScreenshot] returns a failure: the payload is
    returned with an empty [screenshots] list, without an entry for the
    error. *)
Lemma executeScript_capture_fails :
  let env := host (Returns (failure "disk full")) None in
  let run := executeScript env script config start in
  Config.screenshotOnError (Config.actions config) = true
  ∧ first_failure (new_events start run.2)
    = Some (2, "Unknown error: Element is detached (unknown_error, attempted 2 times)")
  ∧ ∃ payload,
      run.1 = Ok (Types.success payload)
      ∧ success payload = false
      ∧ res_stepsExecuted payload = 1
      ∧ totalSteps payload = 3
      ∧ res_screenshots payload = [].
Proof.
  vm_compute. split; [reflexivity|]. split; [reflexivity|].
  eexists. repeat split; reflexivity.
Qed.


End EngineRuns.

(* ===================================================================== *)
(** * Further properties *)
(* ===================================================================== *)

(** ** The classifier *)

Section ClassifierMore.
Import ErrorHandler.
Context {St : Type}.
#[local] Abbreviation classify := (classifyError (St:=St)).
#[local] Abbreviation table := (DEFAULT_RETRY_STRATEGIES (St:=St)).

(** The kind and the human message of a classification do not depend on
    the store of the recovery actions. *)
Lemma classifyError_store {St' : Type} error step stepNumber :
  type (classifyError (St:=St') error step stepNumber)
  = type (classify error step stepNumber)
  ∧ message (classifyError (St:=St') error step stepNumber)
    = message (classify error step stepNumber)
  ∧ isRetryable (classifyError (St:=St') error step stepNumber)
    = isRetryable (classify error step stepNumber).
Proof.
  unfold classifyError.
  repeat match goal with
         | |- context [if ?b then _ else _] => destruct b
         end; done.
Qed.

(** Whatever the message, the classification keeps the raw message, the
    step and the step number, carries the strategy that the table gives
    for its kind, and is marked as not retryable exactly when its kind is
    [VALIDATION_ERROR]. *)
Theorem classifyError_invariants error step stepNumber :
  let ce := classify error step stepNumber in
  originalError ce = error
  ∧ strategy ce = Some (table (type ce))
  ∧ (isRetryable ce = false ↔ type ce = VALIDATION_ERROR)
  ∧ ∃ c, context ce = Some c
         ∧ ctx_step c = step ∧ ctx_stepNumber c = stepNumber.
Proof.
  unfold classifyError.
  repeat match goal with
         | |- context [if ?b then _ else _] => destruct b
         end; simpl; (repeat split; [done..|eauto]).
Qed.

(** A message with a network keyword is a network error, whatever else it
    contains: it is retryable with up to five attempts even when it also
    has a validation keyword. *)
Theorem classifyError_network_first error step stepNumber m :
  m ∈ network_markers → contains_ci error m →
  let ce := classify error step stepNumber in
  type ce = NETWORK_ERROR
  ∧ isRetryable ce = true
  ∧ message ce = "Network connection issue detected"
  ∧ (maxAttempts <$> strategy ce) = Some 5.
Proof.
  intros Hm Hc. apply contains_ci_includes in Hc.
  unfold classifyError, network_markers in *.
  repeat (apply elem_of_cons in Hm as [->|Hm];
          [rewrite Hc, ?orb_true_r; done|]).
  by apply elem_of_nil in Hm.
Qed.

(** Of the classifications that [classifyError] produces, the critical
    ones are the validation errors and the browser errors. *)
Theorem isCriticalError_classifyError error step stepNumber :
  let ce := classify error step stepNumber in
  isCriticalError ce = true
  ↔ type ce = VALIDATION_ERROR ∨ type ce = BROWSER_ERROR.
Proof.
  unfold classifyError.
  repeat match goal with
         | |- context [if ?b then _ else _] => destruct b
         end; simpl; unfold isCriticalError; simpl; split;
    (done || (intros [?|?]; done) || eauto).
Qed.

End ClassifierMore.

(** ** The retry executor *)

Section RetryBudget.
Import ErrorHandler.
Context {St T : Type} (env : RetryEnv St) (operation : M St (Result T))
        (config : Config.AutoConfig) (step : option ActionStep)
        (stepNumber : option Z).

#[local] Abbreviation classify := (classifyError (St:=St)).
#[local] Abbreviation table := (DEFAULT_RETRY_STRATEGIES (St:=St)).
#[local] Abbreviation budget := (Config.retryAttempts (Config.actions config)).
#[local] Abbreviation body := (loop_body env operation config step stepNumber).

(** The body falls through to the next attempt only below the budget and
    below the fifth attempt. *)
Lemma loop_body_next_budget attempt σ σ' lastError :
  body attempt σ = (Ok (Next lastError), σ') → attempt < Z.min 5 budget.
Proof.
  intros H.
  destruct (operation σ) as [[[data|msg]|e|] σ1] eqn:Hop.
  - by erewrite loop_body_success in H.
  - destruct (isRetryable (classify msg step stepNumber)) eqn:Hr.
    + destruct (Z.lt_ge_cases attempt
        (Z.min (maxAttempts (table (type (classify msg step stepNumber))))
               budget)) as [Hlt|Hge].
      * pose proof (DEFAULT_RETRY_STRATEGIES_maxAttempts (St:=St)
                      (type (classify msg step stepNumber))). lia.
      * by erewrite loop_body_failure_break in H by eauto.
    + by erewrite loop_body_failure_break in H by eauto.
  - by erewrite loop_body_throw in H.
  - by erewrite loop_body_out_of_fuel in H.
Qed.

End RetryBudget.

Section RetryMore.
Import ErrorHandler.
Context {St T : Type} (env : RetryEnv St) (operation : M St (Result T))
        (config : Config.AutoConfig) (step : option ActionStep)
        (stepNumber : option Z).

#[local] Abbreviation classify := (classifyError (St:=St)).
#[local] Abbreviation table := (DEFAULT_RETRY_STRATEGIES (St:=St)).
#[local] Abbreviation budget := (Config.retryAttempts (Config.actions config)).
#[local] Abbreviation body :=
  (loop_body (counting_env env) (counted operation) config step stepNumber).
#[local] Abbreviation loop :=
  (retry_loop (counting_env env) (counted operation) config step stepNumber).
#[local] Abbreviation retry :=
  (executeWithSmartRetry (counting_env env) (counted operation) config step
     stepNumber).

(** An operation that succeeds at once is invoked once and its result is
    handed through: nothing is printed and there is no pause, whatever
    the budget and the verbosity. *)
Theorem executeWithSmartRetry_first_success σ σ' data :
  operation σ = (Ok (Types.success data), σ') →
  executeWithSmartRetry (counting_env env) (counted operation) config step
    stepNumber (σ, 0%nat) = (Ok (Types.success data), (σ', 1%nat)).
Proof.
  intros H. apply (counted_eq _ _ _ 0) in H.
  apply executeWithSmartRetry_returned.
  eapply retry_loop_return. erewrite loop_body_success by done. done.
Qed.

(** An operation that throws is not retried: it is invoked once and the
    executor returns a failure that reports one attempt, whatever the
    budget and even when the message thrown is of a retryable kind. *)
Theorem executeWithSmartRetry_throw_not_retried σ σ' e :
  operation σ = (Throw e, σ') →
  let ce := classify e step stepNumber in
  executeWithSmartRetry (counting_env env) (counted operation) config step
    stepNumber (σ, 0%nat)
  = (Ok (failure (message ce +:+ " (" +:+ ErrorType_value (type ce)
                  +:+ ", attempted 1 times)")),
     (σ', 1%nat)).
Proof.
  intros H ce. apply (counted_eq _ _ _ 0) in H.
  destruct (classifyError_store (St:=St) (St':=St * nat) e step stepNumber)
    as (Ht & Hm & _).
  unfold ce. rewrite <-Ht, <-Hm.
  apply (executeWithSmartRetry_broke _ _ _ _ _ _ _ _ 1).
  eapply retry_loop_break. by erewrite loop_body_throw.
Qed.

(** The invocations made by the loop started at [attempt]. *)
Lemma retry_loop_invocations fuel attempt σ (k : nat) exit σ' (k' : nat) :
  loop fuel attempt (σ, k) = (Ok exit, (σ', k')) →
  (k < k')%nat
  ∧ Z.of_nat k' - Z.of_nat k ≤ Z.max 1 (Z.min 5 budget - attempt + 1).
Proof.
  revert attempt σ k. induction fuel as [|fuel IH]; intros attempt σ k;
    [done|].
  pose proof (loop_body_counts env operation config step stepNumber
                attempt σ k) as Hk.
  rewrite retry_loop_S.
  destruct (body attempt (σ, k)) as [[[result|le|le]|e|] [σ1 k1]] eqn:Hbody;
    simpl in Hk; subst k1; try done.
  - intros [= _ _ <-]. lia.
  - intros [= _ _ <-]. lia.
  - apply loop_body_next_budget in Hbody. intros Hloop.
    apply IH in Hloop. lia.
Qed.


(** A transient failure: without verbosity, when the first attempt returns
    a failure of a retryable kind, the budget is at least 2 and the
    operation succeeds after the pause, the executor returns that success
    after exactly two invocations; the pause is the base delay of the
    kind. *)
Theorem executeWithSmartRetry_second_attempt σ σ1 σ2 msg data :
  Config.verbose (Config.logging config) = false →
  2 ≤ budget →
  operation σ = (Ok (failure msg), σ1) →
  let ce := classify msg step stepNumber in
  isRetryable ce = true →
  operation (sleep env (delay (table (type ce))) σ1)
  = (Ok (Types.success data), σ2) →
  executeWithSmartRetry (counting_env env) (counted operation) config step
    stepNumber (σ, 0%nat) = (Ok (Types.success data), (σ2, 2%nat)).
Proof.
  intros Hquiet Hbudget H1 ce Hretry H2.
  apply (counted_eq _ _ _ 0) in H1. apply (counted_eq _ _ _ 1) in H2.
  destruct (classifyError_store (St:=St) (St':=St * nat) msg step stepNumber)
    as (Ht & _ & Hr).
  fold ce in Ht, Hr.
  set (ce' := classifyError (St:=St * nat) msg step stepNumber) in *.
  assert (type ce ≠ VALIDATION_ERROR) as Hkind.
  { intros Hv. pose proof (classifyError_isRetryable (St:=St) msg step
                             stepNumber) as Hi.
    fold ce in Hi. rewrite Hv, Hretry in Hi. by vm_compute in Hi. }
  pose proof (DEFAULT_RETRY_STRATEGIES_maxAttempts (St:=St * nat) (type ce))
    as [_ Hmax]. specialize (Hmax Hkind).
  assert (body 1 (σ, 0%nat)
          = (Ok (Next (Some ce')),
             (sleep env (delay (table (type ce))) σ1, 1%nat))) as Hbody.
  { erewrite loop_body_failure_next; [|done|fold ce'; congruence|].
    - f_equal. fold ce'. unfold retry_pause. rewrite Hquiet, Ht. simpl.
      by destruct (type ce).
    - fold ce'. rewrite Ht. lia. }
  apply executeWithSmartRetry_returned.
  unfold retry_fuel. erewrite retry_loop_next by exact Hbody.
  eapply retry_loop_return. erewrite loop_body_success by done.
  unfold is_verbose. rewrite Hquiet. by rewrite andb_false_r.
Qed.

End RetryMore.

Section RetryMoreRuns.
Import ErrorHandler Scenario.

#[local] Abbreviation retry_counted operation config :=
  (executeWithSmartRetry (counting_env pauses) (counted operation) config
                         None (Some 1)).

(** A validation message that mentions the connection is a network
    error. *)
Lemma classifyError_network_first_witness :
  "connection" ∈ network_markers
  ∧ contains_ci "Invalid connection string" "connection"
  ∧ type (classifyError (St:=unit) "Invalid connection string" None None)
    = NETWORK_ERROR
  ∧ isRetryable
      (classifyError (St:=unit) "Invalid connection string" None None)
    = true.
Proof.
  assert ("connection" ∈ network_markers) as H1
    by (unfold network_markers; set_solver).
  assert (contains_ci "Invalid connection string" "connection") as H2
    by (apply contains_ci_includes; reflexivity).
  split; [exact H1|]. split; [exact H2|].
  pose proof (classifyError_network_first (St:=unit)
                "Invalid connection string" None None "connection" H1 H2)
    as (Ht & Hr & _).
  split; [exact Ht|exact Hr].
Defined.

Lemma executeWithSmartRetry_first_success_witness :
  succeeding [] = (Ok (Types.success ()), [])
  ∧ retry_counted succeeding (budget 3) ([], 0%nat)
    = (Ok (Types.success ()), ([], 1%nat)).
Proof.
  assert (succeeding [] = (Ok (Types.success ()), [])) as H1 by reflexivity.
  split; [exact H1|].
  exact (executeWithSmartRetry_first_success pauses succeeding (budget 3)
           None (Some 1) [] [] () H1).
Defined.

(** A thrown refusal with budget 5: one invocation. *)
Lemma executeWithSmartRetry_throw_not_retried_witness :
  throwing "Connection refused" [] = (Throw "Connection refused", [])
  ∧ retry_counted (throwing "Connection refused") (budget 5) ([], 0%nat)
    = (Ok (failure
             "Network connection issue detected (network_error, attempted 1 times)"),
       ([], 1%nat)).
Proof.
  assert (throwing "Connection refused" [] = (Throw "Connection refused", []))
    as H1 by reflexivity.
  split; [exact H1|].
  exact (executeWithSmartRetry_throw_not_retried pauses
           (throwing "Connection refused") (budget 5) None (Some 1) [] []
           "Connection refused" H1).
Defined.


(** Refused once, then accepted after the pause of 2000 ms. *)
Lemma executeWithSmartRetry_second_attempt_witness :
  Config.verbose (Config.logging (budget 3)) = false
  ∧ 2 ≤ Config.retryAttempts (Config.actions (budget 3))
  ∧ flaky [] = (Ok (failure "Connection refused"), [])
  ∧ isRetryable
      (classifyError (St:=list Z) "Connection refused" None (Some 1))
    = true
  ∧ flaky [2000] = (Ok (Types.success ()), [2000])
  ∧ retry_counted flaky (budget 3) ([], 0%nat)
    = (Ok (Types.success ()), ([2000], 2%nat)).
Proof.
  assert (Config.verbose (Config.logging (budget 3)) = false) as H1
    by reflexivity.
  assert (2 ≤ Config.retryAttempts (Config.actions (budget 3))) as H2
    by (simpl; lia).
  assert (flaky [] = (Ok (failure "Connection refused"), [])) as H3
    by reflexivity.
  assert (isRetryable
            (classifyError (St:=list Z) "Connection refused" None (Some 1))
          = true) as H4 by reflexivity.
  assert (flaky [2000] = (Ok (Types.success ()), [2000])) as H5
    by reflexivity.
  repeat (split; [assumption|]).
  exact (executeWithSmartRetry_second_attempt pauses flaky (budget 3) None
           (Some 1) [] [] [2000] "Connection refused" () H1 H2 H3 H4 H5).
Defined.

End RetryMoreRuns.

(** ** The error report *)

Section ReportProps.
Import ErrorHandler.
Context {St : Type}.

#[local] Abbreviation Classified := (ClassifiedError St).
#[local] Abbreviation of_kind t :=
  (filter (λ e : Classified, type e = t)).

(** One step of the [reduce] of [generateErrorReport]. *)
#[local] Abbreviation add_error :=
  (λ (acc : list (ErrorType * list Classified)) (error : Classified),
     if existsb (λ g, bool_decide (g.1 = type error)) acc
     then (λ g : ErrorType * list Classified,
             if bool_decide (g.1 = type error)
             then (g.1, g.2 ++ [error]) else g) <$> acc
     else acc ++ [(type error, [error])]).

Lemma existsb_kind (acc : list (ErrorType * list Classified)) t :
  existsb (λ g, bool_decide (g.1 = t)) acc = true ↔ t ∈ acc.*1.
Proof.
  rewrite existsb_exists, list_elem_of_fmap. split.
  - intros ([t' es] & Hin & Hb). apply bool_decide_eq_true in Hb.
    exists (t', es). split; [by simpl in *|]. by apply list_elem_of_In.
  - intros ([t' es] & -> & Hin). exists (t', es).
    split; [by apply list_elem_of_In|]. by apply bool_decide_eq_true.
Qed.

Lemma add_error_keys (acc : list (ErrorType * list Classified)) x :
  ((λ g : ErrorType * list Classified,
      if bool_decide (g.1 = type x) then (g.1, g.2 ++ [x]) else g)
   <$> acc).*1 = acc.*1.
Proof.
  induction acc as [|[t es] acc IH]; [done|]. simpl. f_equal; [|exact IH].
  by case_bool_decide.
Qed.

Lemma add_error_other (acc : list (ErrorType * list Classified)) x :
  type x ∉ acc.*1 →
  (λ g : ErrorType * list Classified,
     if bool_decide (g.1 = type x) then (g.1, g.2 ++ [x]) else g) <$> acc
  = acc.
Proof.
  induction acc as [|[t es] acc IH]; [done|].
  intros [Hne Hrest]%not_elem_of_cons. rewrite fmap_cons.
  rewrite bool_decide_false by (simpl in *; congruence).
  f_equal. by apply IH.
Qed.

Lemma add_error_sizes (acc : list (ErrorType * list Classified)) x :
  NoDup acc.*1 → type x ∈ acc.*1 →
  sum_list (length <$> ((λ g : ErrorType * list Classified,
                           if bool_decide (g.1 = type x)
                           then (g.1, g.2 ++ [x]) else g) <$> acc).*2)
  = S (sum_list (length <$> acc.*2)).
Proof.
  induction acc as [|[t es] acc IH]; [by intros _ ?%elem_of_nil|].
  rewrite !fmap_cons. intros [Hnotin Hnodup]%NoDup_cons Hin.
  change ((t, es).1) with t in *. change ((t, es).2) with es.
  case_bool_decide as Ht.
  - subst t. rewrite add_error_other by done.
    change ((type x, es ++ [x]).2) with (es ++ [x]).
    rewrite length_app. simpl. lia.
  - apply elem_of_cons in Hin as [Heq|Hin]; [congruence|].
    change ((t, es).2) with es. simpl. rewrite IH by done. lia.
Qed.

Lemma grouped_step acc seen x :
  grouped acc seen → grouped (add_error acc x) (seen ++ [x]).
Proof.
  intros (Hnodup & Hgroups & Hseen & Hsum).
  destruct (existsb (λ g, bool_decide (g.1 = type x)) acc) eqn:Hex.
  - apply existsb_kind in Hex.
    split; [by rewrite add_error_keys|]. split; [|split].
    + intros t es ([t' es'] & Heq & Hin)%list_elem_of_fmap.
      destruct (Hgroups _ _ Hin) as [Hne ->].
      rewrite filter_app, filter_cons, filter_nil.
      simpl in Heq. case_bool_decide as Ht; simplify_eq/=.
      * rewrite decide_True by done.
        split; [by destruct (of_kind _ seen)|done].
      * rewrite decide_False by done. by rewrite app_nil_r.
    + rewrite add_error_keys. intros e He.
      apply elem_of_app in He as [He|He]; [by apply Hseen|].
      apply list_elem_of_singleton in He. by subst e.
    + rewrite add_error_sizes by done. rewrite length_app. simpl. lia.
  - assert (type x ∉ acc.*1) as Hnew.
    { intros Hin%existsb_kind. congruence. }
    split; [|split; [|split]].
    + rewrite fmap_app. apply NoDup_app. split; [done|]. split.
      * intros t Ht Hin. apply list_elem_of_singleton in Hin.
        simpl in Hin. by subst t.
      * apply NoDup_singleton.
    + intros t es Hin. apply elem_of_app in Hin as [Hin|Hin].
      * destruct (Hgroups _ _ Hin) as [Hne ->]. split; [done|].
        rewrite filter_app, filter_cons, filter_nil.
        rewrite decide_False; [by rewrite app_nil_r|].
        intros Heq. apply Hnew. rewrite Heq.
        apply list_elem_of_fmap. by exists (t, of_kind t seen).
      * apply list_elem_of_singleton in Hin. simplify_eq. split; [done|].
        rewrite filter_app, filter_cons, filter_nil, decide_True by done.
        destruct (of_kind (type x) seen) as [|e l] eqn:Hf; [done|].
        assert (e ∈ of_kind (type x) seen) as He by (rewrite Hf; left).
        apply list_elem_of_filter in He as [Heq He].
        exfalso. apply Hnew. rewrite <-Heq. by apply Hseen.
    + rewrite fmap_app. intros e He.
      apply elem_of_app in He as [He|He].
      * apply elem_of_app. left. by apply Hseen.
      * apply list_elem_of_singleton in He. subst e.
        apply elem_of_app. right. by apply list_elem_of_singleton.
    + rewrite <-length_join in Hsum.
      rewrite <-length_join, !fmap_app, join_app, !length_app, Hsum.
      done.
Qed.

Lemma grouped_fold errors acc seen :
  grouped acc seen → grouped (fold_left add_error errors acc) (seen ++ errors).
Proof.
  revert acc seen. induction errors as [|x errors IH]; intros acc seen H.
  - by rewrite app_nil_r.
  - simpl. rewrite (assoc_L (++) seen [x] errors : seen ++ x :: errors = _).
    apply IH. by apply grouped_step.
Qed.

(** The groups of the error report: the kinds are listed once each, every
    group holds exactly the errors of its kind, in the order given and
    never empty, so that the occurrence counts add up to the total; and a
    kind has a group (and with it its recommendation line) exactly when
    some error is of that kind. *)
Theorem group_by_type_partition (errors : list Classified) :
  let groups := group_by_type errors in
  NoDup groups.*1
  ∧ (∀ t es, (t, es) ∈ groups → es ≠ [] ∧ es = of_kind t errors)
  ∧ sum_list (length <$> groups.*2) = length errors
  ∧ ∀ t, has_errors_of t groups = true ↔ ∃ e, e ∈ errors ∧ type e = t.
Proof.
  assert (grouped (group_by_type errors) errors)
    as (Hnodup & Hgroups & Hseen & Hsum).
  { apply (grouped_fold errors [] []). split; [apply NoDup_nil_2|].
    split; [by intros t es ?%elem_of_nil|].
    split; [by intros e ?%elem_of_nil|done]. }
  intros groups. split; [exact Hnodup|]. split; [exact Hgroups|].
  split; [exact Hsum|]. intros t. split.
  - unfold has_errors_of. rewrite existsb_exists.
    intros ([t' es] & Hin%list_elem_of_In & Hb).
    apply andb_true_iff in Hb as [Ht Hne].
    apply bool_decide_eq_true in Ht. simpl in Ht. subst t'.
    destruct (Hgroups _ _ Hin) as [Hne' Hes].
    destruct es as [|e l]; [done|].
    assert (e ∈ of_kind t errors) as He by (rewrite <-Hes; left).
    apply list_elem_of_filter in He as [? ?]. eauto.
  - intros (e & He & Ht). apply Hseen in He. rewrite Ht in He.
    apply list_elem_of_fmap in He as ([t' es] & Heq & Hin). simpl in Heq.
    subst t'. unfold has_errors_of. rewrite existsb_exists.
    exists (t, es). split; [by apply list_elem_of_In|].
    destruct (Hgroups _ _ Hin) as [Hne _].
    apply andb_true_iff. split; by apply bool_decide_eq_true.
Qed.

End ReportProps.

(** ** The session logger *)

Section LoggerMore.
Import Logger.
Context {World : Type} (env : Env World).

#[local] Abbreviation Sys := (Sys World).


(** A method that returns a logger with the same configuration whose
    buffer is the old one with at most one admitted entry appended. *)
#[local] Abbreviation appends method :=
  (∀ (self : Logger) (σ : Sys), ∃ self' σ' added,
     method self σ = (Ok self', σ')
     ∧ config self' = config self
     ∧ logBuffer self' = logBuffer self ++ added
     ∧ (length added ≤ 1)%nat
     ∧ Forall (λ entry, ¬ below_minimum (level entry) self) added).

Lemma log_appends level category message data step duration :
  appends (log env level category message data step duration).
Proof.
  intros self σ.
  destruct (Z.lt_ge_cases (LogLevel_value level)
              (LogLevel_value (cfg_level (config self)))) as [Hlow|Hadm].
  - exists self, σ, []. rewrite log_dropped by done.
    rewrite app_nil_r. repeat split; try done. simpl. lia.
  - apply Z.le_ngt in Hadm.
    destruct (log_admitted env level category message data step duration
                self σ Hadm) as (evs & _ & now & Hr & _).
    destruct (log env level category message data step duration self σ)
      as [r σ'] eqn:Hlog.
    simpl in Hr. subst r. eexists _, σ', [_]. split; [done|].
    split; [done|]. split; [done|]. split; [simpl; lia|].
    by apply Forall_singleton.
Qed.

Lemma screenshot_appends screenshotPath step type :
  appends (Logger.screenshot env screenshotPath step type).
Proof.
  intros self σ.
  unfold Logger.screenshot, try_catch, bind, record, modify, attempt, ask.
  destruct (stat_size env _ _) as [[size|e] w]; simpl.
  - destruct (Date_now env w) as [now w'].
    match goal with
    | |- context [log env ?l ?c ?m ?d ?s ?du ?self2 ?σ2] =>
        destruct (log_appends l c m d s du self2 σ2)
          as (self' & σ' & added & -> & Hc & Hb & Hlen & Hadm)
    end.
    by exists self', σ', added.
  - match goal with
    | |- context [error env ?m ?d ?s ?self2 ?σ2] =>
        destruct (log_appends ERROR "error" m (js_data d) s None self2 σ2)
          as (self' & σ' & added & Heq & Hc & Hb & Hlen & Hadm)
    end.
    unfold error. rewrite Heq. by exists self', σ', added.
Qed.

Lemma perform_appends call : appends (perform env call).
Proof.
  destruct call; simpl; try apply log_appends. apply screenshot_appends.
Qed.

(** Through any sequence of calls of the public methods ([debug], [info],
    [warn], [error], [step], [browser], [validation], [screenshot]) the
    logger never throws and keeps its configuration; the buffer only
    grows at its end, by at most one entry per call; and when it held
    only entries at or above the minimum before, so it does after, and
    the summary counts no level below the minimum. *)
Theorem perform_all_buffer calls self (σ : Sys) :
  buffer_admitted self →
  ∃ self' σ' added,
    perform_all env calls self σ = (Ok self', σ')
    ∧ config self' = config self
    ∧ logBuffer self' = logBuffer self ++ added
    ∧ (length added ≤ length calls)%nat
    ∧ buffer_admitted self'
    ∧ ∀ l, below_minimum l self →
           logsByLevel (getSessionSummary self') !! LogLevel_name l = None.
Proof.
  assert (∀ calls self (σ : Sys), ∃ self' σ' added,
            perform_all env calls self σ = (Ok self', σ')
            ∧ config self' = config self
            ∧ logBuffer self' = logBuffer self ++ added
            ∧ (length added ≤ length calls)%nat
            ∧ Forall (λ entry, ¬ below_minimum (level entry) self) added)
    as Hall.
  { clear. induction calls as [|call calls IH]; intros self σ.
    - exists self, σ, []. rewrite app_nil_r. repeat split; done.
    - destruct (perform_appends call self σ)
        as (self1 & σ1 & added1 & Heq1 & Hc1 & Hb1 & Hlen1 & Hadm1).
      destruct (IH self1 σ1)
        as (self2 & σ2 & added2 & Heq2 & Hc2 & Hb2 & Hlen2 & Hadm2).
      exists self2, σ2, (added1 ++ added2). simpl. unfold bind.
      rewrite Heq1, Heq2. split; [done|]. split; [congruence|].
      split; [by rewrite Hb2, Hb1, <-app_assoc|].
      split; [rewrite length_app; simpl; lia|].
      apply Forall_app. split; [done|].
      eapply Forall_impl; [exact Hadm2|]. unfold below_minimum.
      intros entry. by rewrite Hc1. }
  intros Hinv.
  destruct (Hall calls self σ)
    as (self' & σ' & added & Heq & Hc & Hb & Hlen & Hadm).
  assert (buffer_admitted self') as Hinv'.
  { unfold buffer_admitted, below_minimum in *. rewrite Hb, Hc.
    apply Forall_app. by split. }
  exists self', σ', added. repeat (split; [done|]).
  intros l Hl. apply getSessionSummary_ignores_below_minimum; [done|].
  unfold below_minimum in *. by rewrite Hc.
Qed.

(** The totals of the session summary: [totalLogs] is the length of the
    buffer, every level is counted with the number of its buffered
    entries, the counts of the four levels add up to [totalLogs], and the
    duration is the time from the first to the last buffered entry (0 for
    an empty buffer). *)
Theorem getSessionSummary_totals self :
  let summary := getSessionSummary self in
  let count l := default 0%nat (logsByLevel summary !! LogLevel_name l) in
  totalLogs summary = length (logBuffer self)
  ∧ (∀ l, count l
          = length (filter (λ entry, level entry = l) (logBuffer self)))
  ∧ (count DEBUG + count INFO + count WARN + count ERROR)%nat
    = totalLogs summary
  ∧ sum_duration summary
    = match logBuffer self with
      | [] => 0
      | first :: _ =>
          timestamp (default first (last (logBuffer self))) - timestamp first
      end.
Proof.
  intros summary count.
  assert (∀ l, count l
               = length (filter (λ entry, level entry = l) (logBuffer self)))
    as Hcount.
  { intros l. unfold count, summary. rewrite getSessionSummary_counts.
    simpl. by case_decide. }
  split; [done|]. split; [exact Hcount|]. split.
  - rewrite !Hcount. unfold summary. simpl. generalize (logBuffer self).
    clear. intros buffer. induction buffer as [|entry buffer IH]; [done|].
    rewrite !filter_cons.
    destruct (level entry); repeat case_decide; try done; simpl; lia.
  - unfold summary. simpl. destruct (logBuffer self) as [|first buffer] eqn:Hb;
      [done|].
    simpl head. destruct (last (first :: buffer)) as [lastLog|] eqn:Hlast.
    + done.
    + by apply last_None in Hlast.
Qed.

#[local] Ltac created made failed :=
  eexists _, made, failed; simpl; rewrite <-?app_assoc, ?app_nil_r; simpl;
  repeat split; eauto; try done.



End LoggerMore.

(** ** The validator *)

Section ValidatorProps.
Import Validator.
Context (URL_parses : string → bool).

#[local] Abbreviation checks := (step_checks URL_parses).

Lemma validateStep_errors step stepNumber :
  (validateStep URL_parses step stepNumber).1 = [] ↔ checks step = true.
Proof.
  unfold validateStep, step_checks, isValidUrl.
  destruct (truthy_str (selector step)), (isValidSelector _),
    (truthy_str (url step)), (URL_parses _), (timeout step) as [t|];
    simpl; try destruct (Z.ltb_spec t 0); try destruct (60000 <? t);
    simpl; try tauto;
    try (split; [done|intros ?%Z.leb_le; lia]);
    try (split; [intros _; apply Z.leb_le; lia|done]);
    split; done.
Qed.

Lemma validateStep_step step stepNumber e :
  e ∈ (validateStep URL_parses step stepNumber).1 →
  Validator.step e = Some stepNumber
  ∧ field e ∈ ["selector"; "url"; "timeout"].
Proof.
  unfold validateStep, isValidUrl.
  destruct (truthy_str (selector step) && _), (truthy_str (url step) && _),
    (timeout step) as [t|]; simpl;
    try destruct (t <? 0); try destruct (60000 <? t); simpl;
    intros He;
    repeat (apply elem_of_cons in He as [->|He]; [split; [done|set_solver]|]);
    by apply elem_of_nil in He.
Qed.

(** The errors of [validateEach] point at the steps that fail a check. *)
Lemma validateEach_errors index steps :
  (∀ e, e ∈ (validateEach URL_parses index steps).1 →
        ∃ i s, Validator.step e = Some (index + Z.of_nat i + 1)
               ∧ steps !! i = Some s ∧ checks s = false
               ∧ field e ∈ ["selector"; "url"; "timeout"])
  ∧ (∀ i s, steps !! i = Some s → checks s = false →
            ∃ e, e ∈ (validateEach URL_parses index steps).1
                 ∧ Validator.step e = Some (index + Z.of_nat i + 1)).
Proof.
  revert index. induction steps as [|s0 steps IH]; intros index.
  { split; [by intros e ?%elem_of_nil|by intros i s ?]. }
  simpl. destruct (validateStep URL_parses s0 (index + 1)) as [es ws] eqn:H0.
  destruct (validateEach URL_parses (index + 1) steps) as [es' ws'] eqn:H1.
  destruct (IH (index + 1)) as [IH1 IH2]. rewrite H1 in IH1, IH2.
  simpl in *. split.
  - intros e [He|He]%elem_of_app.
    + exists 0%nat, s0.
      assert (e ∈ (validateStep URL_parses s0 (index + 1)).1) as He'
        by (by rewrite H0).
      destruct (validateStep_step _ _ _ He') as [Hs Hf].
      split; [rewrite Hs; f_equal; lia|]. split; [done|]. split; [|done].
      apply not_true_is_false. intros Hc%(validateStep_errors _ (index + 1)).
      rewrite H0 in Hc. simpl in Hc. subst es. by apply elem_of_nil in He.
    + destruct (IH1 e He) as (i & s & Hs & Hl & Hc & Hf).
      exists (S i), s. split; [rewrite Hs; f_equal; lia|]. done.
  - intros [|i] s Hl Hc; simpl in Hl.
    + injection Hl as ->.
      destruct es as [|e es].
      * assert (checks s = true); [|congruence].
        apply (validateStep_errors _ (index + 1)). by rewrite H0.
      * exists e. split; [apply elem_of_app; left; left|].
        assert (e ∈ (validateStep URL_parses s (index + 1)).1) as He'
          by (rewrite H0; left).
        destruct (validateStep_step _ _ _ He') as [Hs _].
        rewrite Hs. f_equal. lia.
    + destruct (IH2 i s Hl Hc) as (e & He & Hs).
      exists e. split; [apply elem_of_app; by right|].
      rewrite Hs. f_equal. lia.
Qed.

(** When [validateScript] reports no error. *)
Lemma validateScript_errors_nil script :
  errors (validateScript URL_parses script) = []
  ↔ trim (Types.name script) ≠ ""
    ∧ (truthy_str (baseUrl script) = true →
       URL_parses (or_str (baseUrl script) "") = true)
    ∧ steps script ≠ []
    ∧ Forall (λ step, checks step = true) (steps script).
Proof.
  unfold validateScript.
  destruct (validateSteps URL_parses (steps script)) as [stepErrors ws] eqn:Hs.
  simpl.
  assert (stepErrors = []
          ↔ steps script ≠ []
            ∧ Forall (λ step, checks step = true) (steps script)) as Hsteps.
  { unfold validateSteps in Hs.
    destruct (steps script) as [|s0 steps] eqn:Hsteps.
    - injection Hs as <- <-. split; [done|]. by intros [? _].
    - destruct (validateEach URL_parses 0 (s0 :: steps)) as [es ws'] eqn:He.
      injection Hs as <- <-.
      pose proof (validateEach_errors 0 (s0 :: steps)) as [H1 H2].
      rewrite He in H1, H2. simpl in H1, H2. split.
      + intros ->. split; [done|]. apply Forall_lookup. intros i s Hl.
        destruct (checks s) eqn:Hc; [done|].
        destruct (H2 i s Hl Hc) as (e & He' & _). by apply elem_of_nil in He'.
      + intros [_ Hall]. destruct es as [|e es]; [done|].
        destruct (H1 e) as (i & s & _ & Hl & Hc & _); [left|].
        rewrite Forall_lookup in Hall. specialize (Hall i s Hl). congruence. }
  unfold validateScriptFields, isValidUrl.
  case_bool_decide as Hname;
    destruct (truthy_str (baseUrl script)), (URL_parses _); simpl;
    (split; [intros H; try done;
             try (apply Hsteps in H; destruct H; repeat split; by auto)
            |intros (Hn & Hb & Hne & Hall); try done;
             try (by apply Hsteps); try (by specialize (Hb eq_refl))]).
Qed.

(** A script is valid exactly when its name is not blank, its base URL,
    if it has one, parses, it has at least one step, and every step passes
    the checks of its selector, URL and timeout. The warnings play no
    role. *)
Theorem validateScript_valid script :
  valid (validateScript URL_parses script) = true
  ↔ trim (Types.name script) ≠ ""
    ∧ (truthy_str (baseUrl script) = true →
       URL_parses (or_str (baseUrl script) "") = true)
    ∧ steps script ≠ []
    ∧ Forall (λ step, checks step = true) (steps script).
Proof.
  rewrite <-validateScript_errors_nil. unfold validateScript.
  destruct (validateSteps URL_parses (steps script)) as [stepErrors ws].
  simpl. apply bool_decide_eq_true.
Qed.

(** The errors of [validateScript] say where they are: an error without a
    step number is in one of the fields [name], [baseUrl], [steps]; an
    error with step number [k] is in the selector, the URL or the timeout
    of the [k]-th step, which fails a check; and every step that fails a
    check has an error with its number. *)
Theorem validateScript_errors_located script :
  let result := validateScript URL_parses script in
  (∀ e, e ∈ errors result →
     match Validator.step e with
     | None => field e ∈ ["name"; "baseUrl"; "steps"]
     | Some k =>
         1 ≤ k ≤ Z.of_nat (length (steps script))
         ∧ field e ∈ ["selector"; "url"; "timeout"]
         ∧ ∃ s, steps script !! Z.to_nat (k - 1) = Some s
                ∧ checks s = false
     end)
  ∧ (∀ i s, steps script !! i = Some s → checks s = false →
       ∃ e, e ∈ errors result ∧ Validator.step e = Some (Z.of_nat i + 1)).
Proof.
  unfold validateScript.
  destruct (validateSteps URL_parses (steps script)) as [stepErrors ws] eqn:Hs.
  simpl.
  assert (∀ e, e ∈ validateScriptFields URL_parses script →
               Validator.step e = None ∧ field e ∈ ["name"; "baseUrl"])
    as Hfields.
  { unfold validateScriptFields. intros e.
    case_bool_decide; destruct (_ && _); simpl; intros He;
      repeat (apply elem_of_cons in He as [->|He];
              [split; [done|set_solver]|]);
      by apply elem_of_nil in He. }
  unfold validateSteps in Hs.
  destruct (steps script) as [|s0 steps] eqn:Hsteps.
  - injection Hs as <- <-. split; [|by intros i s ?].
    intros e [He|He]%elem_of_app.
    + destruct (Hfields e He) as [-> Hf].
      rewrite !elem_of_cons in *. tauto.
    + apply list_elem_of_singleton in He. subst e. simpl.
      rewrite !elem_of_cons. auto.
  - destruct (validateEach URL_parses 0 (s0 :: steps)) as [es ws'] eqn:He.
    injection Hs as <- <-.
    pose proof (validateEach_errors 0 (s0 :: steps)) as [H1 H2].
    rewrite He in H1, H2. simpl in H1, H2. split.
    + intros e [Hin|Hin]%elem_of_app.
      * destruct (Hfields e Hin) as [-> Hf].
        rewrite !elem_of_cons in *. tauto.
      * destruct (H1 e Hin) as (i & s & -> & Hl & Hc & Hf).
        apply lookup_lt_Some in Hl as Hlt. simpl in Hlt.
        split; [simpl; lia|]. split; [done|]. exists s.
        replace (Z.to_nat (0 + Z.of_nat i + 1 - 1)) with i by lia. done.
    + intros i s Hl Hc. destruct (H2 i s Hl Hc) as (e & Hin & Hstep).
      exists e. split; [apply elem_of_app; by right|].
      rewrite Hstep. f_equal.
Qed.

End ValidatorProps.

(** ** Releasing the browser session *)

Section ControllerMore.
Import Controller.
Context {World : Type} (env : Env World).

(** [closeBrowser] never throws. It returns a success exactly when every
    handle of the session that is not [null] was closed, in the order
    page, context, browser, without a throw; otherwise the last close
    attempted is the one that threw, the handles after it were not
    closed, and the failure message carries what was thrown. *)
Theorem closeBrowser_result controller (σ : Sys World) :
  ∃ result σ',
    closeBrowser env controller σ = (Ok result, σ')
    ∧ let closes := closes_of (new_events σ σ') in
      closed_until_throw closes (close_targets controller)
      ∧ match result with
        | Types.success _ =>
            closes.*1 = close_targets controller
            ∧ Forall (λ c, c.2 = None) closes
        | failure msg =>
            ∃ target e,
              last closes = Some (target, Some e)
              ∧ msg = "Failed to close browser: " +:+ e
        end.
Proof.
  destruct σ as [w tr].
  unfold close_targets, closeBrowser, close_handle, try_catch, bind, record,
    modify, ask, throw, ret, new_events.
  destruct (page controller) as [hp|], (context controller) as [hc|],
    (browser controller) as [hb|]; simpl;
    repeat (match goal with
            | |- context [close env ?t ?h ?w] =>
                destruct (close env t h w) as [[?|] ?]; simpl
            end);
    (eexists _, _; split; [reflexivity|]); simpl;
    rewrite <-?app_assoc; simpl; rewrite drop_app_length; simpl;
    (split;
     [repeat first [ reflexivity
                   | do 2 eexists; split; [reflexivity|]; simpl ]|]);
    first [ solve [split; [reflexivity|repeat constructor]]
          | solve [do 2 eexists; split; reflexivity] ].
Qed.

End ControllerMore.

(** ** The courses of a run *)

Lemma browser_outcomes_marks evs :
  browser_outcomes evs = browser_outcomes (marks evs).
Proof. apply omap_marks. by intros []. Qed.

Lemma browser_outcomes_success_marks i ds :
  browser_outcomes (success_marks i ds) = [].
Proof. revert i. induction ds as [|d ds IH]; intros i; [done|]. apply IH. Qed.

Lemma browser_outcomes_closes targets closes :
  close_attempts targets closes → browser_outcomes closes = [].
Proof.
  revert closes. induction targets as [|t ts IH]; intros closes; simpl.
  - intros ->. reflexivity.
  - intros (thrown & closes' & -> & H). destruct thrown as [e|].
    + subst closes'. reflexivity.
    + exact (IH _ H).
Qed.

Lemma browser_outcomes_released controller released :
  release_marks controller released → browser_outcomes released = [].
Proof.
  intros (closes & -> & H). by apply browser_outcomes_closes in H.
Qed.

Lemma browser_outcomes_capture config K shots capture shots' evs :
  capture_shape config K shots capture shots' evs →
  browser_outcomes capture = [].
Proof.
  unfold capture_shape. destruct (Config.screenshotOnError _).
  - by intros (filename & outcome & -> & _).
  - by intros (-> & _).
Qed.

(** The observations, with those of the browser outcomes. *)
Ltac observe_all :=
  pose proof browser_outcomes_success_marks;
  unfold browser_outcomes in *;
  observe.

Section EngineCourses.
Import Engine.
Context {World : Type} (env : Env World).

Lemma run_shape_course script cfg result evs :
  run_shape (World:=World) (URL_parses env) script cfg (Ok result) evs →
  run_course (URL_parses env) script cfg result evs.
Proof.
  intros Hshape.
  pose proof (browser_outcomes_marks evs) as Ho.
  pose proof (step_results_marks evs) as Hsr.
  pose proof (calls_of_marks evs) as Hca.
  pose proof (closes_of_marks evs) as Hcl.
  pose proof (screenshot_calls_marks evs) as Hsc.
  inversion Hshape
    as [? Herr Hm|? e Herr Hm|? e payload Herr Hm Hok Hn Ht He
       |? controller released Herr Hpage Hm Hrel
       |? controller ds K msg capture released payload Herr Hpage Hm HK HKN
          Hrel Hok Hn Ht He Hcap
       |? controller ds released payload Herr Hpage Hlen Hm Hrel Hok Hn Ht
          He Hshots];
    subst; rewrite Hm in Ho, Hsr, Hca, Hcl, Hsc.
  - by apply course_invalid.
  - by apply (course_init_failed _ _ _ _ e).
  - by apply (course_init_thrown _ _ _ _ e).
  - destruct (release_marks_observed _ _ Hrel)
      as (_ & Hr & Hc & _ & Hs & Hx).
    pose proof (browser_outcomes_released _ _ Hrel) as Hb.
    apply (course_no_page _ _ _ _ controller); try done.
    + rewrite Ho. observe_all. by rewrite Hb.
    + rewrite Hsr. observe_all. by rewrite Hr.
    + rewrite Hca. observe_all. by rewrite Hc.
    + rewrite Hcl. by observe_all.
    + rewrite Hsc. observe_all. by rewrite Hs.
  - destruct (release_marks_observed _ _ Hrel)
      as (_ & Hr & Hc & _ & Hs & Hx).
    pose proof (browser_outcomes_released _ _ Hrel) as Hb.
    destruct (capture_shape_observed _ _ _ _ _ _ Hcap)
      as (_ & Hr' & Hc' & _ & Hx' & Hshots).
    pose proof (browser_outcomes_capture _ _ _ _ _ _ Hcap) as Hb'.
    eapply (course_step_failed _ _ _ _ controller ds); try done.
    + rewrite Ho. observe_all. by rewrite Hb, Hb'.
    + rewrite Hsr. observe_all. by rewrite Hr, Hr'.
    + rewrite Hca. observe_all. by rewrite Hc, Hc'.
    + rewrite Hcl. observe_all. by rewrite Hx'.
    + apply Hshots. rewrite Hsc. observe_all. by rewrite Hs, app_nil_r.
  - destruct (release_marks_observed _ _ Hrel)
      as (_ & Hr & Hc & _ & Hs & Hx).
    pose proof (browser_outcomes_released _ _ Hrel) as Hb.
    apply (course_completed _ _ _ _ controller ds); try done.
    + rewrite Ho. observe_all. by rewrite Hb.
    + rewrite Hsr. observe_all. by rewrite Hr, app_nil_r.
    + rewrite Hca. observe_all. by rewrite Hc.
    + rewrite Hcl. by observe_all.
    + rewrite Hsc. observe_all. by rewrite Hs.
Qed.

(** Every run returns and takes one of the courses. *)
Lemma executeScript_course script cfg (σ : Sys World) :
  ∃ result,
    (executeScript env script cfg σ).1 = Ok result
    ∧ run_course (URL_parses env) script cfg result
                 (new_events σ (executeScript env script cfg σ).2).
Proof.
  destruct (executeScript_run env script cfg σ) as (result & Hrun & _ & H).
  exists result. split; [done|]. by apply run_shape_course.
Qed.

(** A complete run: when [initializeBrowser] returns a session with a
    page and the retry executor returns a success for every step it was
    asked for, all steps of the script were executed, one after the other,
    and [executeScript] returns a function-level success whose payload has
    [success = true], [stepsExecuted] and [totalSteps] equal to the number
    of steps, no [error], and as [screenshots] the paths that the
    screenshot steps returned; the engine takes no screenshot of its
    own. *)
Theorem executeScript_completed script cfg (σ : Sys World) controller :
  let evs := new_events σ (executeScript env script cfg σ).2 in
  Returns (Types.success controller) ∈ browser_outcomes evs →
  page controller ≠ None →
  Forall (λ r, is_success r.2 = true) (step_results evs) →
  ∃ payload ds,
    (executeScript env script cfg σ).1 = Ok (Types.success payload)
    ∧ length ds = length (steps script)
    ∧ step_results evs = successes 0 ds
    ∧ success payload = true
    ∧ res_stepsExecuted payload = Z.of_nat (length (steps script))
    ∧ totalSteps payload = Z.of_nat (length (steps script))
    ∧ error payload = None
    ∧ res_screenshots payload = step_shots (steps script) ds
    ∧ screenshot_calls evs = [].
Proof.
  intros evs Hin Hpage Hall.
  destruct (executeScript_course script cfg σ) as (result & Hrun & Hcourse).
  fold evs in Hcourse. clearbody evs.
  destruct Hcourse
    as [evs Herr Ho|evs e Herr Ho|evs e payload Herr Ho
       |evs c Herr Hnone Ho
       |evs c ds K msg payload Herr Hsome Ho Hsr
       |evs c ds payload Herr Hsome Ho Hsr Hlen Hca Hcl Hsc Hok Hn Ht He Hsh];
    rewrite Ho in Hin;
    try (by apply elem_of_nil in Hin);
    apply list_elem_of_singleton in Hin; try done.
  - assert (controller = c) as -> by congruence. by destruct Hpage.
  - rewrite Hsr in Hall. apply Forall_app in Hall as [_ Hall].
    rewrite Forall_singleton in Hall. simpl in Hall. discriminate.
  - by exists payload, ds.
Qed.

(** [initializeBrowser] returns a failure: [executeScript] returns the
    function-level failure that carries its message, and nothing else
    happens: no step, no close, no cleanup of the logger. *)
Theorem executeScript_browser_refused script cfg (σ : Sys World) e :
  let evs := new_events σ (executeScript env script cfg σ).2 in
  Returns (failure e) ∈ browser_outcomes evs →
  (executeScript env script cfg σ).1
  = Ok (failure ("Failed to initialize browser: " +:+ e))
  ∧ step_results evs = [] ∧ calls_of evs = [] ∧ closes_of evs = []
  ∧ screenshot_calls evs = [].
Proof.
  intros evs Hin.
  destruct (executeScript_course script cfg σ) as (result & Hrun & Hcourse).
  fold evs in Hcourse. clearbody evs. rewrite Hrun.
  destruct Hcourse
    as [evs Herr Ho|evs e' Herr Ho|evs e' payload Herr Ho
       |evs c Herr Hnone Ho
       |evs c ds K msg payload Herr Hsome Ho
       |evs c ds payload Herr Hsome Ho];
    rewrite Ho in Hin;
    try (by apply elem_of_nil in Hin);
    apply list_elem_of_singleton in Hin; try done.
  by assert (e = e') as -> by congruence.
Qed.

(** [initializeBrowser] throws: the fault is caught, and [executeScript]
    returns a function-level success whose payload has [success = false],
    no step executed and the message thrown as [error]; the logger is
    cleaned up, and there is nothing to close. *)
Theorem executeScript_browser_threw script cfg (σ : Sys World) e :
  let evs := new_events σ (executeScript env script cfg σ).2 in
  Throws e ∈ browser_outcomes evs →
  ∃ payload,
    (executeScript env script cfg σ).1 = Ok (Types.success payload)
    ∧ success payload = false
    ∧ res_stepsExecuted payload = 0
    ∧ totalSteps payload = Z.of_nat (length (steps script))
    ∧ error payload = Some e
    ∧ step_results evs = [] ∧ calls_of evs = ["Logger.cleanup"]
    ∧ closes_of evs = [].
Proof.
  intros evs Hin.
  destruct (executeScript_course script cfg σ) as (result & Hrun & Hcourse).
  fold evs in Hcourse. clearbody evs. rewrite Hrun.
  destruct Hcourse
    as [evs Herr Ho|evs e' Herr Ho|evs e' payload Herr Ho
       |evs c Herr Hnone Ho
       |evs c ds K msg payload Herr Hsome Ho
       |evs c ds payload Herr Hsome Ho];
    rewrite Ho in Hin;
    try (by apply elem_of_nil in Hin);
    apply list_elem_of_singleton in Hin; try done.
  assert (e = e') as -> by congruence. by exists payload.
Qed.

(** A session without a page: no step is executed, [executeScript] returns
    a function-level failure, and the session is released. *)
Theorem executeScript_no_page script cfg (σ : Sys World) controller :
  let evs := new_events σ (executeScript env script cfg σ).2 in
  Returns (Types.success controller) ∈ browser_outcomes evs →
  page controller = None →
  (executeScript env script cfg σ).1
  = Ok (failure "Browser page is not available")
  ∧ step_results evs = [] ∧ calls_of evs = ["closeBrowser"]
  ∧ closed_until_throw (closes_of evs) (close_targets controller).
Proof.
  intros evs Hin Hpage.
  destruct (executeScript_course script cfg σ) as (result & Hrun & Hcourse).
  fold evs in Hcourse. clearbody evs. rewrite Hrun.
  destruct Hcourse
    as [evs Herr Ho|evs e' Herr Ho|evs e' payload Herr Ho
       |evs c Herr Hnone Ho
       |evs c ds K msg payload Herr Hsome Ho
       |evs c ds payload Herr Hsome Ho];
    rewrite Ho in Hin;
    try (by apply elem_of_nil in Hin);
    apply list_elem_of_singleton in Hin; try done;
    (assert (controller = c) as -> by congruence);
    done || by destruct Hsome.
Qed.

Lemma first_failure_step_results evs i ds K msg :
  step_results evs = successes i ds ++ [(K, failure msg)] →
  first_failure evs = Some (K, msg).
Proof.
  revert i ds. induction evs as [|ev evs IH]; intros i ds Hsr.
  - by destruct ds.
  - destruct ev as [| | | | | | | | | | |k [d|m]];
      try (by apply (IH i ds)).
    + destruct ds as [|d' ds]; [discriminate|].
      injection Hsr as _ _ Hsr. by apply (IH (i + 1) ds).
    + destruct ds as [|d' ds]; [|discriminate].
      by injection Hsr as -> ->.
Qed.


End EngineCourses.

(** ** The payload *)

Section Yields.
Context {St : Type}.

Lemma yields_ret {A} (a : A) (P : A → Prop) : P a → yields (St:=St) (ret a) P.
Proof. by intros H σ. Qed.

Lemma yields_bind {A B} (c : M St A) (k : A → M St B) (P : B → Prop) :
  (∀ a, yields (k a) P) → yields (bind c k) P.
Proof.
  intros H σ. unfold bind. destruct (c σ) as [[a|e|] σ']; simpl; [|done..].
  apply H.
Qed.

Lemma yields_seq {A B} (c : M St A) (k : A → M St B) (Q : A → Prop)
    (P : B → Prop) :
  yields c Q → (∀ a, Q a → yields (k a) P) → yields (bind c k) P.
Proof.
  intros Hc H σ. unfold bind. specialize (Hc σ).
  destruct (c σ) as [[a|e|] σ']; simpl in *; [|done..].
  by apply H.
Qed.

Lemma yields_try_catch {A} (c : M St A) (h : string → M St A)
    (P : A → Prop) :
  yields c P → (∀ e, yields (h e) P) → yields (try_catch c h) P.
Proof.
  intros Hc Hh σ. unfold try_catch. specialize (Hc σ).
  destruct (c σ) as [[a|e|] σ']; simpl in *; [done| |done]. apply Hh.
Qed.

End Yields.

Section EnginePayload.
Import Engine.
Context {World : Type} (env : Env World).

#[local] Abbreviation Run := (Run World).

(** One step through a sequence of which only the value matters. *)
#[local] Ltac skip_bind :=
  lazymatch goal with
  | |- yields (bind _ _) _ => apply yields_bind; intros ?
  end.

Lemma finish_no_analysis script ok stepsExecuted' executionTime error :
  yields (finish env script ok stepsExecuted' executionTime error)
         no_analysis.
Proof. unfold finish. repeat skip_bind. by apply yields_ret. Qed.

Lemma finish_returned script ok stepsExecuted' executionTime error :
  yields (result <- finish env script ok stepsExecuted' executionTime error ;;
          ret (Some result))
         (from_option no_analysis True).
Proof.
  eapply yields_seq; [apply finish_no_analysis|].
  intros result Hresult. by apply yields_ret.
Qed.

Lemma step_try_no_analysis script cfg startTime step stepNumber stepStartTime
    stepSummary :
  yields (step_try env script cfg startTime step stepNumber stepStartTime
                   stepSummary)
         (from_option no_analysis True).
Proof.
  unfold step_try. do 3 skip_bind.
  match goal with |- yields (match ?r with _ => _ end) _ => destruct r end.
  - repeat skip_bind. by apply yields_ret.
  - do 4 skip_bind. apply finish_returned.
Qed.

Lemma step_catch_no_analysis script startTime step stepNumber stepStartTime
    error :
  yields (step_catch env script startTime step stepNumber stepStartTime error)
         (from_option no_analysis True).
Proof. unfold step_catch. do 4 skip_bind. apply finish_returned. Qed.

Lemma steps_loop_no_analysis script cfg startTime i rest :
  yields (steps_loop env script cfg startTime i rest)
         (from_option no_analysis True).
Proof.
  revert i. induction rest as [|step rest IH]; intros i; simpl.
  { by apply yields_ret. }
  do 2 skip_bind.
  eapply yields_seq.
  { apply yields_try_catch; [apply step_try_no_analysis|].
    intros e. apply step_catch_no_analysis. }
  intros [result|] Hresult; [by apply yields_ret|apply IH].
Qed.

Lemma completed_no_analysis script startTime :
  yields (completed env script startTime) no_analysis.
Proof. unfold completed. repeat skip_bind. by apply yields_ret. Qed.

Lemma run_script_no_analysis script cfg startTime :
  yields (run_script env script cfg startTime) no_analysis.
Proof.
  unfold run_script. skip_bind.
  destruct (Validator.errors _).
  - do 2 skip_bind.
    match goal with |- yields (match ?r with _ => _ end) _ => destruct r end.
    + skip_bind. destruct (page _).
      * do 2 skip_bind.
        eapply yields_seq; [apply steps_loop_no_analysis|].
        intros [result|] Hresult; [by apply yields_ret|].
        apply completed_no_analysis.
      * skip_bind. by apply yields_ret.
    + skip_bind. by apply yields_ret.
  - skip_bind. by apply yields_ret.
Qed.

Lemma run_catch_no_analysis script startTime e :
  yields (run_catch env script startTime e) no_analysis.
Proof. unfold run_catch. do 2 skip_bind. apply finish_no_analysis. Qed.

(** No run returns an error analysis. *)
Lemma executeScript_no_analysis script cfg :
  yields (executeScript env script cfg) no_analysis.
Proof.
  unfold executeScript. do 2 skip_bind.
  intros σ.
  match goal with
  | |- context [try_finally ?c ?f ?r] =>
      pose proof (yields_try_catch _ _ _
                    (run_script_no_analysis script cfg a)
                    (run_catch_no_analysis script a) r) as Hbody;
      unfold try_finally;
      destruct (try_catch (run_script env script cfg a)
                          (run_catch env script a) r)
        as [[result|e|] r1]
  end; simpl in *; try done.
  - destruct (run_finally env r1) as [[[]|e|] r2]; simpl; try done.
    by destruct result.
  - by destruct (run_finally env r1) as [[[]|e'|] r2].
Qed.


End EnginePayload.

(** ** The shared array of logs *)

Section EngineLogs.
Import Engine.
Context {World : Type} (env : Env World).

#[local] Abbreviation Run := (Run World).
#[local] Abbreviation cleanup_log ts :=
  {| Engine.step := 0; action := "browser_cleanup";
     status := status_success; Engine.message := "Browser closed";
     Engine.timestamp := ts; Engine.duration := None |}.

(** With a session, [finally] pushes one entry to [logs]. *)
Lemma run_finally_logs (r : Run) controller :
  browserController r = Some controller →
  ∃ ts, logs (run_finally env r).2 = logs r ++ [cleanup_log ts].
Proof.
  intros Hctrl.
  destruct (closeBrowser_runs env controller (sys r))
    as (evs0 & _ & closed & Hclose & _).
  unfold run_finally, bind, gets, on_host. rewrite Hctrl. simpl.
  destruct (Controller.closeBrowser env controller (sys r)) as [res0 σ1].
  simpl in Hclose. subst res0. simpl.
  destruct (browser_quiet env "cleanup" "Browser closed" []
              (logger (set_sys σ1 r)) (sys (set_sys σ1 r)))
    as (evs & _ & self' & Hr & _).
  unfold on_logger.
  destruct (Logger.browser env "cleanup" "Browser closed" []
              (logger (set_sys σ1 r)) (sys (set_sys σ1 r))) as [res σ2].
  simpl in Hr. subst res.
  unfold log_entry, now, on_host, ask, bind, modify. simpl.
  destruct (Date_now env (world σ2)) as [ts w]. simpl. by exists ts.
Qed.

(** After a run that obtained a session and returns a payload, the last
    entry of the [logs] of the payload is the entry [browser_cleanup],
    which [finally] pushed after the value to return had been built: the
    payload holds the array [logs] itself. *)
Theorem executeScript_cleanup_logged script cfg (σ : Sys World) controller
    payload :
  let evs := new_events σ (executeScript env script cfg σ).2 in
  (executeScript env script cfg σ).1 = Ok (Types.success payload) →
  Returns (Types.success controller) ∈ browser_outcomes evs →
  ∃ ts, last (res_logs payload) = Some (cleanup_log ts).
Proof.
  intros evs. subst evs.
  assert (returns trace (executeScript env script cfg) σ (λ result _ evs,
            ∀ payload controller,
              result = Types.success payload →
              Returns (Types.success controller) ∈ browser_outcomes evs →
              ∃ ts, last (res_logs payload) = Some (cleanup_log ts)))
    as Hrun.
  { unfold executeScript. apply returns_bind. unfold returns at 1.
    apply runs_ask. eexists. split; [done|].
    set (startTime := (Date_now env (world σ)).1).
    apply returns_bind.
    eapply runs_weaken; [apply createLogger_runs|].
    intros res σ1 evs1 (self & -> & Hev1 & Hconfig). eexists.
    split; [done|].
    set (r0 := {| sys := σ1; logger := self; logs := []; screenshots := [];
                  browserController := None; stepsExecuted := 0 |}).
    assert (returns run_trace
              (try_finally
                 (try_catch (run_script env script cfg startTime)
                            (run_catch env script startTime))
                 (run_finally env)) r0
              (λ result r' evs,
                 ∀ controller,
                   Returns (Types.success controller)
                   ∈ browser_outcomes (evs1 ++ evs) →
                   ∃ ts, last (logs r') = Some (cleanup_log ts))) as Hbody.
    { apply returns_try_finally.
      eapply returns_weaken.
      { apply returns_run_body; [done|done|]. simpl. by rewrite Hconfig. }
      intros result r1 evs2 Hshape.
      pose proof (returns_run_finally env r1)
        as (evs3 & Htr & [] & Hr & _ & Hrel).
      exists evs3. split; [done|]. exists (). split; [done|].
      intros c Hin.
      assert (browser_outcomes evs1 = []) as Ho1.
      { rewrite browser_outcomes_marks. by rewrite (marks_logger _ Hev1). }
      unfold browser_outcomes in *.
      rewrite !omap_app, Ho1, app_nil_l in Hin.
      destruct (browserController r1) as [c1|] eqn:Hctrl.
      - destruct (run_finally_logs r1 c1 Hctrl) as [ts Hlogs].
        exists ts. rewrite Hlogs. apply last_snoc.
      - subst evs3. rewrite app_nil_r in Hin. exfalso.
        change (omap browser_outcome evs2) with (browser_outcomes evs2) in Hin.
        rewrite browser_outcomes_marks in Hin.
        remember (screenshots r1) as sh eqn:Hsh.
        remember (@None BrowserController) as bc eqn:Hbc.
        destruct Hshape
          as [evs Herr Hm|evs e Herr Hm|evs e p Herr Hm| | |];
          try discriminate; rewrite Hm in Hin; simpl in Hin.
        + by apply elem_of_nil in Hin.
        + apply list_elem_of_singleton in Hin. discriminate.
        + apply list_elem_of_singleton in Hin. discriminate. }
    apply returns_eq in Hbody as (result & r' & evs & Hbody & Htr & Hlast).
    subst r0. unfold returns, runs. rewrite Hbody. simpl. exists evs.
    split; [exact Htr|]. eexists. split; [done|].
    intros p c Hp Hin. destruct result as [p0|]; [|discriminate].
    injection Hp as <-. simpl. by apply (Hlast c). }
  apply returns_eq in Hrun as (result & σ' & evs & Heq & Htr & H).
  rewrite Heq. simpl. rewrite (new_events_app _ _ _ Htr).
  intros [= ->] Hin. by apply (H payload controller).
Qed.

End EngineLogs.

(** ** Concrete runs, continued *)

Section LoggerMoreRuns.
Import Scenario.

#[local] Abbreviation quiet_host := (host (Returns (failure "disk full")) None).


(** A debug call and a warning on the logger with the minimum [WARN]. *)
Lemma perform_all_buffer_witness :
  let calls := [Call_debug "detail" None None;
                Call_warn "slow page" None None] in
  buffer_admitted warn_logger
  ∧ ∃ self' σ' added,
      perform_all quiet_host calls warn_logger start = (Ok self', σ')
      ∧ LoggerTypes.config self' = LoggerTypes.config warn_logger
      ∧ logBuffer self' = logBuffer warn_logger ++ added
      ∧ (length added ≤ length calls)%nat
      ∧ buffer_admitted self'
      ∧ ∀ l, below_minimum l warn_logger →
             logsByLevel (Logger.getSessionSummary self') !! LogLevel_name l
             = None.
Proof.
  intros calls.
  assert (buffer_admitted warn_logger) as H1 by apply Forall_nil_2.
  split; [exact H1|].
  exact (perform_all_buffer quiet_host calls warn_logger start H1).
Defined.

End LoggerMoreRuns.

Section EngineMoreRuns.
Import Engine Scenario.

(** Three steps that all succeed. *)
Lemma executeScript_completed_witness :
  let env := opening_host (Returns (Types.success controller)) in
  let evs := new_events start (executeScript env script config start).2 in
  Returns (Types.success controller) ∈ browser_outcomes evs
  ∧ page controller ≠ None
  ∧ Forall (λ r, is_success r.2 = true) (step_results evs)
  ∧ ∃ payload ds,
      (executeScript env script config start).1 = Ok (Types.success payload)
      ∧ length ds = length (steps script)
      ∧ step_results evs = successes 0 ds
      ∧ success payload = true
      ∧ res_stepsExecuted payload = Z.of_nat (length (steps script))
      ∧ totalSteps payload = Z.of_nat (length (steps script))
      ∧ error payload = None
      ∧ res_screenshots payload = step_shots (steps script) ds
      ∧ screenshot_calls evs = [].
Proof.
  intros env evs.
  assert (Returns (Types.success controller) ∈ browser_outcomes evs) as H1
    by (vm_compute; left).
  assert (page controller ≠ None) as H2 by discriminate.
  assert (Forall (λ r, is_success r.2 = true) (step_results evs)) as H3
    by (vm_compute; repeat constructor).
  split; [exact H1|]. split; [exact H2|]. split; [exact H3|].
  exact (executeScript_completed env script config start controller H1 H2
           H3).
Defined.

(** The browser cannot be launched. *)
Lemma executeScript_browser_refused_witness :
  let env := opening_host (Returns (failure "no display")) in
  let evs := new_events start (executeScript env script config start).2 in
  Returns (failure "no display") ∈ browser_outcomes evs
  ∧ (executeScript env script config start).1
    = Ok (failure "Failed to initialize browser: no display")
  ∧ step_results evs = [] ∧ calls_of evs = [] ∧ closes_of evs = []
  ∧ screenshot_calls evs = [].
Proof.
  intros env evs.
  assert (Returns (failure "no display") ∈ browser_outcomes evs) as H1
    by (vm_compute; left).
  split; [exact H1|].
  exact (executeScript_browser_refused env script config start "no display"
           H1).
Defined.

(** The launch of the browser throws. *)
Lemma executeScript_browser_threw_witness :
  let env := opening_host (Throws "spawn ENOENT") in
  let evs := new_events start (executeScript env script config start).2 in
  Throws "spawn ENOENT" ∈ browser_outcomes evs
  ∧ ∃ payload,
      (executeScript env script config start).1 = Ok (Types.success payload)
      ∧ success payload = false
      ∧ res_stepsExecuted payload = 0
      ∧ totalSteps payload = Z.of_nat (length (steps script))
      ∧ error payload = Some "spawn ENOENT"
      ∧ step_results evs = [] ∧ calls_of evs = ["Logger.cleanup"]
      ∧ closes_of evs = [].
Proof.
  intros env evs.
  assert (Throws "spawn ENOENT" ∈ browser_outcomes evs) as H1
    by (vm_compute; left).
  split; [exact H1|].
  exact (executeScript_browser_threw env script config start "spawn ENOENT"
           H1).
Defined.

(** The session has no page. *)
Lemma executeScript_no_page_witness :
  let env := opening_host (Returns (Types.success pageless)) in
  let evs := new_events start (executeScript env script config start).2 in
  Returns (Types.success pageless) ∈ browser_outcomes evs
  ∧ page pageless = None
  ∧ (executeScript env script config start).1
    = Ok (failure "Browser page is not available")
  ∧ step_results evs = [] ∧ calls_of evs = ["closeBrowser"]
  ∧ closed_until_throw (closes_of evs) (close_targets pageless).
Proof.
  intros env evs.
  assert (Returns (Types.success pageless) ∈ browser_outcomes evs) as H1
    by (vm_compute; left).
  assert (page pageless = None) as H2 by reflexivity.
  split; [exact H1|]. split; [exact H2|].
  exact (executeScript_no_page env script config start pageless H1 H2).
Defined.

(** The entry pushed by [finally] is in the payload. *)
Lemma executeScript_cleanup_logged_witness :
  let env := opening_host (Returns (Types.success controller)) in
  let evs := new_events start (executeScript env script config start).2 in
  ∃ payload,
    (executeScript env script config start).1 = Ok (Types.success payload)
    ∧ Returns (Types.success controller) ∈ browser_outcomes evs
    ∧ ∃ ts, last (res_logs payload)
            = Some {| Engine.step := 0; action := "browser_cleanup";
                      status := status_success;
                      Engine.message := "Browser closed";
                      Engine.timestamp := ts; Engine.duration := None |}.
Proof.
  intros env evs.
  assert (∃ payload, (executeScript env script config start).1
                     = Ok (Types.success payload)) as [payload H1]
    by (eexists; vm_compute; reflexivity).
  assert (Returns (Types.success controller) ∈ browser_outcomes evs) as H2
    by (vm_compute; left).
  exists payload. split; [exact H1|]. split; [exact H2|].
  exact (executeScript_cleanup_logged env script config start controller
           payload H1 H2).
Defined.

End EngineMoreRuns.

(** ** The parser of script documents *)

Section ParserProps.
Import Parser.
Context {Num : Type} (rt : Runtime Num) {St : Type}.

#[local] Abbreviation Json := (Json Num).

Lemma is_string_true (v : option Json) name :
  is_string v name = true ↔ v = Some (JString name).
Proof.
  unfold is_string. destruct v as [[| | |s| |]|]; try (split; [done|congruence]).
  rewrite String.eqb_eq. split; congruence.
Qed.

(** A value that passes [!v || typeof v !== 'string'] is a string that is
    not empty. *)
Lemma nonempty_string (v : option Json) :
  negb (truthy rt v) || negb (String.eqb (typeof v) "string") = false →
  ∃ s, v = Some (JString s) ∧ s ≠ "".
Proof.
  destruct v as [[|b|n|[|a s]| |]|]; simpl; try done.
  - by destruct b.
  - by rewrite orb_true_r.
  - intros _. by eexists.
Qed.

Lemma requires_string_success fs n action field rest (σ σ' : St) :
  requires_string rt (JObject fs) n action field rest σ
  = (Ok (success ()), σ') →
  (∃ s, own fs field = Some (JString s) ∧ s ≠ "")
  ∧ rest σ = (Ok (success ()), σ').
Proof.
  unfold requires_string, step_failure, get, bind, ret.
  destruct (negb (truthy rt (own fs field)) || _) eqn:Hv; [done|].
  intros H. split; [|done]. by apply nonempty_string.
Qed.

Lemma requires_value_success fs n action rest (σ σ' : St) :
  requires_value rt (JObject fs) n action rest σ = (Ok (success ()), σ') →
  is_nullish (own fs "value") = false ∧ rest σ = (Ok (success ()), σ').
Proof.
  unfold requires_value, step_failure, get, bind, ret.
  by destruct (is_nullish (own fs "value")).
Qed.

Lemma timeout_if_provided_success fs n (σ σ' : St) :
  timeout_if_provided rt (JObject fs) n σ = (Ok (success ()), σ') →
  σ' = σ
  ∧ ∀ t, own fs "timeout" = Some t →
         ∃ m, t = JNumber m ∧ number_le_zero rt m = false.
Proof.
  unfold timeout_if_provided, step_failure, get, bind, ret.
  case_bool_decide as Ht; simpl.
  - destruct (not_positive_number rt (own fs "timeout")) eqn:Hp; [done|].
    intros [= <-]. split; [done|]. intros t Hs. rewrite Hs in Hp.
    destruct t; try done. by eexists.
  - intros [= <-]. split; [done|]. intros t Hs. by rewrite Hs in Ht.
Qed.

(** What an object that meets the requirements of its type has. *)
Lemma validateStepRequirements_success fs n (σ σ' : St) :
  validateStepRequirements rt (JObject fs) n σ = (Ok (success ()), σ') →
  σ' = σ
  ∧ ∃ ty, own fs "type" = Some (JString ty)
    ∧ ty ∈ validTypes
    ∧ (ty = "navigate" →
       ∃ u, own fs "url" = Some (JString u) ∧ u ≠ "")
    ∧ (ty = "click" ∨ ty = "type" ∨ ty = "scroll" ∨ ty = "select" →
       ∃ s, own fs "selector" = Some (JString s) ∧ s ≠ "")
    ∧ (ty = "type" ∨ ty = "select" → is_nullish (own fs "value") = false)
    ∧ (ty = "wait" → truthy rt (own fs "timeout") = true)
    ∧ ∀ t, own fs "timeout" = Some t →
           ∃ m, t = JNumber m ∧ number_le_zero rt m = false.
Proof.
  unfold validateStepRequirements.
  unfold get at 1. unfold bind at 1. unfold ret at 1.
  repeat match goal with
         | |- context [if is_string ?v ?name then _ else _] =>
             let H := fresh "Hty" in
             destruct (is_string v name) eqn:H;
             [apply is_string_true in H|]
         end; intros H;
    [..|by unfold step_failure, ret in H];
    try (unfold get, bind, ret in H;
         destruct (negb (truthy rt (own fs "timeout")) || _) eqn:Hw;
         [by unfold step_failure in H|];
         apply orb_false_elim in Hw as [Hw%negb_false_iff _]);
    repeat match goal with
           | H : requires_string _ _ _ _ _ _ _ = _ |- _ =>
               apply requires_string_success in H as [? H]
           | H : requires_value _ _ _ _ _ _ = _ |- _ =>
               apply requires_value_success in H as [? H]
           | H : timeout_if_provided _ _ _ _ = _ |- _ =>
               apply timeout_if_provided_success in H as [-> ?]
           end;
    (split; [done|]); (eexists; split; [eassumption|]);
    (split; [unfold validTypes; repeat constructor|]);
    repeat split; try done; intros; destruct_or?; done.
Qed.

Lemma validateStep_success step i (σ σ' : St) out :
  validateStep rt step i σ = (Ok (success out), σ') →
  σ' = σ
  ∧ ∃ fs, step = JObject fs
    ∧ validateStepRequirements rt step (i + 1) σ = (Ok (success ()), σ)
    ∧ own fs "type" = Some (JString (type out))
    ∧ selector out = or_undefined rt (own fs "selector")
    ∧ value out = or_undefined rt (own fs "value")
    ∧ url out = or_undefined rt (own fs "url")
    ∧ timeout out = or_undefined rt (own fs "timeout")
    ∧ description out = or_undefined rt (own fs "description").
Proof.
  destruct step as [|b|n|s|items|fs]; try done. intros H.
  unfold validateStep in H. unfold get at 1, bind at 1, ret at 1 in H.
  destruct (negb (truthy rt (own fs "type")) || _) eqn:Hs; [done|].
  apply nonempty_string in Hs as (ty & Hty & _).
  destruct (negb (is_valid_type (own fs "type"))); [done|].
  unfold bind at 1 in H.
  destruct (validateStepRequirements rt (JObject fs) (i + 1) σ)
    as [[[[]|e]|e|] σ1] eqn:Hreq; try done.
  pose proof Hreq as [-> _]%validateStepRequirements_success.
  unfold get, bind, ret in H. injection H as <- <-. simpl.
  rewrite Hty. split; [done|]. by exists fs.
Qed.

Lemma or_undefined_Some (v : option Json) j :
  or_undefined rt v = Some j ↔ v = Some j ∧ truthy rt v = true.
Proof.
  unfold or_undefined.
  destruct (truthy rt v); (split; [by intros ?|by intros [? ?]]).
Qed.

Lemma or_undefined_string s :
  s ≠ "" → or_undefined rt (Some (JString s)) = Some (JString s).
Proof. by destruct s. Qed.

Lemma validateStep_well_formed step i (σ σ' : St) out :
  validateStep rt step i σ = (Ok (success out), σ') →
  well_formed_step rt out.
Proof.
  intros (-> & fs & -> & Hreq & Hty & Hsel & Hval & Hurl & Ht & _)
    %validateStep_success.
  apply validateStepRequirements_success in Hreq
    as (_ & ty & Hty' & Hin & Hnav & Hs & _ & Hwait & Htime).
  rewrite Hty in Hty'. injection Hty' as <-.
  split; [done|]. split; [|split; [|split]].
  - intros (u & Hu & Hne)%Hnav. exists u. split; [|done].
    by rewrite Hurl, Hu, or_undefined_string.
  - intros (s & Hs' & Hne)%Hs. exists s. split; [|done].
    by rewrite Hsel, Hs', or_undefined_string.
  - intros Hw%Hwait. rewrite Ht. unfold or_undefined. rewrite Hw.
    by destruct (own fs "timeout").
  - intros t. rewrite Ht. intros [Hown Htr]%or_undefined_Some.
    destruct (Htime _ Hown) as (m & -> & Hle). exists m.
    repeat split; [done|]. rewrite Hown in Htr. simpl in Htr.
    by apply negb_true_iff in Htr.
Qed.

(** How [validateStep] ends: it throws on [null] only, and a failure
    names the step. *)
Lemma validateStep_outcome step i (σ : St) :
  (step = JNull
   ∧ validateStep rt step i σ = (Throw (TypeError_null rt "type"), σ))
  ∨ (∃ out, validateStep rt step i σ = (Ok (success out), σ))
  ∨ (∃ what, validateStep rt step i σ
             = (Ok (failure ("Step " +:+ show (i + 1) +:+ ": " +:+ what)),
                σ)).
Proof.
  destruct step as [|b|n|s|items|fs];
    [by left|right; right; by eexists..|].
  right.
  unfold validateStep, validateStepRequirements, requires_string,
    requires_value, timeout_if_provided, step_failure, get, bind, ret.
  repeat match goal with
         | |- context [if ?b then _ else _] => destruct b
         end; eauto.
Qed.

(** The steps accepted by the loop. *)
Lemma validate_from_success items : ∀ i acc (σ σ' : St) outs,
  validate_from rt items i acc σ = (Ok (success outs), σ') →
  σ' = σ
  ∧ ∃ news, outs = acc ++ news
    ∧ length news = length items
    ∧ ∀ j item out, items !! j = Some item → news !! j = Some out →
        validateStep rt item (i + Z.of_nat j) σ = (Ok (success out), σ).
Proof.
  induction items as [|item items IH]; intros i acc σ σ' outs; simpl.
  - intros [= <- <-]. split; [done|]. exists []. rewrite app_nil_r.
    repeat split. by intros [].
  - unfold bind at 1.
    destruct (validateStep rt item i σ) as [[[out|e]|e|] σ1] eqn:Hstep;
      try done.
    pose proof Hstep as [-> _]%validateStep_success.
    intros (-> & news & -> & Hlen & Hall)%IH. split; [done|].
    exists (out :: news). rewrite <-app_assoc. repeat split; [simpl; lia|].
    intros [|j] item' out'; simpl.
    + intros [= <-] [= <-]. by rewrite Z.add_0_r.
    + intros Hi Ho. replace (i + Z.of_nat (S j)) with (i + 1 + Z.of_nat j)
        by lia. by apply Hall.
Qed.

(** The first step that is not accepted ends the loop with its outcome. *)
Lemma validate_from_rejected pre step post : ∀ i acc (σ : St),
  (∀ j s, pre !! j = Some s →
     ∃ out, validateStep rt s (i + Z.of_nat j) σ = (Ok (success out), σ)) →
  (∀ e, validateStep rt step (i + Z.of_nat (length pre)) σ
        = (Ok (failure e), σ) →
        validate_from rt (pre ++ step :: post) i acc σ = (Ok (failure e), σ))
  ∧ (∀ e, validateStep rt step (i + Z.of_nat (length pre)) σ = (Throw e, σ) →
          validate_from rt (pre ++ step :: post) i acc σ = (Throw e, σ)).
Proof.
  induction pre as [|s pre IH]; intros i acc σ Hpre; simpl.
  - rewrite Z.add_0_r. unfold bind. split; by intros e ->.
  - destruct (Hpre 0%nat s eq_refl) as [out Hout].
    rewrite Z.add_0_r in Hout. unfold bind. rewrite Hout.
    replace (i + Z.of_nat (S (length pre)))
      with (i + 1 + Z.of_nat (length pre)) by lia.
    apply IH. intros j s' Hj. destruct (Hpre (S j) s' Hj) as [out' Hout'].
    exists out'. by replace (i + 1 + Z.of_nat j) with (i + Z.of_nat (S j))
      by lia.
Qed.

(** How the loop ends. *)
Lemma validate_from_outcome items : ∀ i acc (σ : St),
  (∃ outs, validate_from rt items i acc σ = (Ok (success outs), σ))
  ∨ (∃ k what,
       i + 1 ≤ k ≤ i + Z.of_nat (length items)
       ∧ validate_from rt items i acc σ
         = (Ok (failure ("Step " +:+ show k +:+ ": " +:+ what)), σ))
  ∨ (JNull ∈ items
     ∧ validate_from rt items i acc σ = (Throw (TypeError_null rt "type"), σ)).
Proof.
  induction items as [|item items IH]; intros i acc σ; simpl.
  - left. by eexists.
  - unfold bind.
    destruct (validateStep_outcome item i σ)
      as [[-> ->]|[[out ->]|[what ->]]].
    + right; right. split; [left|done].
    + destruct (IH (i + 1) (acc ++ [out]) σ)
        as [[outs ->]|[(k & what & Hk & ->)|[Hin ->]]].
      * left. by eexists.
      * right; left. exists k, what. split; [lia|done].
      * right; right. split; [by right|done].
    + right; left. exists (i + 1), what. split; [lia|done].
Qed.

(** An accepted document. *)
Lemma validateAndNormalizeScript_success doc (σ σ' : St) script :
  validateAndNormalizeScript rt doc σ = (Ok (success script), σ') →
  σ' = σ
  ∧ ∃ fs items,
      doc = JObject fs
      ∧ own fs "name" = Some (JString (name script))
      ∧ name script ≠ ""
      ∧ own fs "steps" = Some (JArray items)
      ∧ items ≠ []
      ∧ validate_from rt items 0 [] σ = (Ok (success (steps script)), σ)
      ∧ script_description script = or_undefined rt (own fs "description")
      ∧ baseUrl script = or_undefined rt (own fs "baseUrl").
Proof.
  destruct doc as [|b|n|s|items|fs]; try done. intros H.
  unfold validateAndNormalizeScript in H.
  unfold get at 1, bind at 1, ret at 1 in H.
  destruct (negb (truthy rt (own fs "name")) || _) eqn:Hn; [done|].
  apply nonempty_string in Hn as (n & Hn & Hne).
  unfold get at 1, bind at 1, ret at 1 in H.
  destruct (negb (truthy rt (own fs "steps")) || _) eqn:Ha; [done|].
  apply orb_false_elim in Ha as [_ Ha%negb_false_iff].
  destruct (own fs "steps") as [[| | | |items|]|] eqn:Hs; try done.
  cbn [items_of] in H. case_bool_decide as Hlen; [done|].
  unfold bind at 1 in H.
  destruct (validate_from rt items 0 [] σ) as [[[outs|e]|e|] σ1] eqn:Hv;
    try done.
  pose proof Hv as [-> _]%validate_from_success.
  unfold get, bind, ret in H. injection H as <- <-. simpl.
  rewrite Hn. split; [done|]. exists fs, items. repeat split; try done.
  by intros ->.
Qed.

(** How [validateAndNormalizeScript] ends. *)
Lemma validateAndNormalizeScript_outcome doc (σ : St) :
  (∃ k, validateAndNormalizeScript rt doc σ = (Throw (TypeError_null rt k), σ))
  ∨ (∃ script,
       validateAndNormalizeScript rt doc σ = (Ok (success script), σ))
  ∨ (∃ e,
       validateAndNormalizeScript rt doc σ = (Ok (failure e), σ)
       ∧ (e ∈ ["Script name is required and must be a string";
               "Script steps are required and must be an array";
               "Script must have at least one step"]
          ∨ ∃ k what, 1 ≤ k ∧ e = "Step " +:+ show k +:+ ": " +:+ what)).
Proof.
  destruct doc as [|b|n|s|items|fs];
    [left; by eexists
    |right; right; eexists; (split; [reflexivity|left; by left])..|].
  unfold validateAndNormalizeScript, get, bind, ret.
  destruct (negb (truthy rt (own fs "name")) || _).
  { right; right. eexists. split; [reflexivity|left; by left]. }
  destruct (negb (truthy rt (own fs "steps")) || _).
  { right; right. eexists. split; [reflexivity|left; right; by left]. }
  case_bool_decide.
  { right; right. eexists. split; [reflexivity|left; right; right; by left]. }
  destruct (validate_from_outcome (items_of (own fs "steps")) 0 [] σ)
    as [[outs ->]|[(k & what & Hk & ->)|[_ ->]]].
  - right; left. by eexists.
  - right; right. eexists. split; [reflexivity|]. right. exists k, what.
    split; [lia|done].
  - left. by eexists.
Qed.

End ParserProps.

Section ParserTheorems.
Import Parser.
Context {Num : Type} (rt : Runtime Num) {St : Type}.

#[local] Abbreviation parse := (parseScriptFromString rt).


(** [parseScriptFromString] never throws and leaves the store alone. What
    [JSON.parse] throws, and the [TypeError] of reading a property of a
    [null] document or step, come back as the failure
    [Failed to parse JSON: ...]. Every other failure is one of the three
    messages about the name and the steps of the script, or names a step
    by its number, counted from 1. *)
Theorem parseScriptFromString_never_throws content (σ : St) :
  ∃ result,
    parse content σ = (Ok result, σ)
    ∧ (∀ t, JSON_parse rt content = Throws t →
         result = failure ("Failed to parse JSON: " +:+ t))
    ∧ (JSON_parse rt content = Returns JNull →
       result
       = failure ("Failed to parse JSON: " +:+ TypeError_null rt "name"))
    ∧ ∀ e, result = failure e →
        (∃ t, e = "Failed to parse JSON: " +:+ t
              ∧ (JSON_parse rt content = Throws t
                 ∨ ∃ k, t = TypeError_null rt k))
        ∨ e ∈ ["Script name is required and must be a string";
               "Script steps are required and must be an array";
               "Script must have at least one step"]
        ∨ ∃ k what, 1 ≤ k ∧ e = "Step " +:+ show k +:+ ": " +:+ what.
Proof.
  unfold parseScriptFromString, try_catch, bind, ret.
  destruct (JSON_parse rt content) as [doc|t].
  - destruct (validateAndNormalizeScript_outcome rt doc σ)
      as [[k Hk]|[[script Hs]|(e & He & Hmsg)]].
    + rewrite Hk. eexists. split; [reflexivity|].
      split; [done|]. split.
      * intros [= ->]. simpl in Hk. by injection Hk as <-.
      * intros e [= <-]. left. eexists. split; [done|]. right. by exists k.
    + rewrite Hs. eexists. split; [reflexivity|]. repeat split; try done.
      intros [= ->]. done.
    + rewrite He. eexists. split; [reflexivity|]. repeat split; try done.
      * intros [= ->]. done.
      * intros e' [= <-]. by right.
  - eexists. split; [reflexivity|]. split; [by intros ? [= <-]|].
    split; [done|]. intros e [= <-]. left. eexists. split; [done|]. by left.
Qed.

(** A script that [parseScriptFromString] accepts has a name that is not
    empty and at least one step, and each of its steps has a type out of
    the seven with what that type requires: a URL for [navigate], a
    selector for [click], [type], [scroll] and [select], a timeout for
    [wait], and no timeout other than a positive number. *)
Theorem parseScriptFromString_accepted content (σ σ' : St) script :
  parse content σ = (Ok (success script), σ') →
  name script ≠ ""
  ∧ steps script ≠ []
  ∧ Forall (well_formed_step rt) (steps script).
Proof.
  unfold parseScriptFromString, try_catch, bind, ret.
  destruct (JSON_parse rt content) as [doc|t]; [|done].
  destruct (validateAndNormalizeScript rt doc σ)
    as [[[script'|e]|e|] σ1] eqn:Hv; try done.
  intros [= -> ->].
  apply validateAndNormalizeScript_success in Hv
    as (_ & fs & items & _ & _ & Hname & _ & Hne & Hv & _).
  apply validate_from_success in Hv as (_ & news & Hs & Hlen & Hall).
  simpl in Hs. split; [done|]. split.
  - rewrite Hs. intros ->. by destruct items.
  - rewrite Hs. apply Forall_lookup. intros j out Hj.
    destruct (lookup_lt_is_Some_2 items j) as [item Hitem].
    { rewrite <-Hlen. by eapply lookup_lt_Some. }
    eapply validateStep_well_formed. by eapply Hall.
Qed.

(** An accepted script follows its document: the document is an object,
    the script has its name and as many steps as the array [steps], in the
    same order; every step of the document is an object, and every
    optional field of the script and of a step is the field of the
    document when that is truthy and [undefined] otherwise. So a value
    that is the empty string, 0 or [false] is accepted for a [type] or
    [select] step and then dropped. *)
Theorem parseScriptFromString_keeps_document content (σ σ' : St) script :
  parse content σ = (Ok (success script), σ') →
  ∃ fs items,
    JSON_parse rt content = Returns (JObject fs)
    ∧ own fs "name" = Some (JString (name script))
    ∧ script_description script = or_undefined rt (own fs "description")
    ∧ baseUrl script = or_undefined rt (own fs "baseUrl")
    ∧ own fs "steps" = Some (JArray items)
    ∧ length (steps script) = length items
    ∧ ∀ j item out, items !! j = Some item → steps script !! j = Some out →
        ∃ fields,
          item = JObject fields
          ∧ own fields "type" = Some (JString (type out))
          ∧ selector out = or_undefined rt (own fields "selector")
          ∧ value out = or_undefined rt (own fields "value")
          ∧ url out = or_undefined rt (own fields "url")
          ∧ timeout out = or_undefined rt (own fields "timeout")
          ∧ description out = or_undefined rt (own fields "description").
Proof.
  unfold parseScriptFromString, try_catch, bind, ret.
  destruct (JSON_parse rt content) as [doc|t]; [|done].
  destruct (validateAndNormalizeScript rt doc σ)
    as [[[script'|e]|e|] σ1] eqn:Hv; try done.
  intros [= -> ->].
  apply validateAndNormalizeScript_success in Hv
    as (_ & fs & items & -> & Hn & _ & Hss & _ & Hv & Hd & Hb).
  apply validate_from_success in Hv as (_ & news & Hs & Hlen & Hall).
  simpl in Hs. exists fs, items. rewrite Hs. repeat split; try done.
  intros j item out Hi Ho.
  specialize (Hall j item out Hi Ho).
  apply validateStep_success in Hall
    as (_ & fields & -> & _ & Hty & Hrest).
  by exists fields.
Qed.

(** The first step of the document that is not accepted decides the
    result, and the steps after it play no role: the failure is the one
    of that step and names its number, unless the step is [null], which
    is reported as a failure to parse JSON. *)
Theorem parseScriptFromString_first_rejected content fs n pre step post
    (σ : St) :
  JSON_parse rt content = Returns (JObject fs) →
  own fs "name" = Some (JString n) → n ≠ "" →
  own fs "steps" = Some (JArray (pre ++ step :: post)) →
  (∀ j s, pre !! j = Some s →
     ∃ out, validateStep rt s (Z.of_nat j) σ = (Ok (success out), σ)) →
  (∀ out, validateStep rt step (Z.of_nat (length pre)) σ
          ≠ (Ok (success out), σ)) →
  ∃ e,
    parse content σ = (Ok (failure e), σ)
    ∧ match step with
      | JNull => e = "Failed to parse JSON: " +:+ TypeError_null rt "type"
      | _ =>
          validateStep rt step (Z.of_nat (length pre)) σ
          = (Ok (failure e), σ)
          ∧ ∃ what,
              e = "Step " +:+ show (Z.of_nat (length pre) + 1) +:+ ": "
                  +:+ what
      end.
Proof.
  intros Hdoc Hn Hne Hss Hpre Hstep.
  destruct (validate_from_rejected rt pre step post 0 [] σ) as [Hf Ht].
  { intros j s Hj. rewrite Z.add_0_l. by apply Hpre. }
  rewrite Z.add_0_l in Hf, Ht.
  unfold parseScriptFromString, try_catch, validateAndNormalizeScript, get,
    bind, ret.
  rewrite Hdoc, Hn, Hss. destruct n as [|a n]; [done|].
  cbn [truthy typeof isArray items_of]. rewrite String.eqb_refl.
  cbn [negb orb].
  rewrite bool_decide_eq_false_2 by (rewrite length_app; simpl; lia).
  destruct (validateStep_outcome rt step (Z.of_nat (length pre)) σ)
    as [[-> Hthrow]|[[out Hout]|[what Hwhat]]].
  - rewrite (Ht _ Hthrow). by eexists.
  - by destruct (Hstep out).
  - rewrite (Hf _ Hwhat). eexists. split; [reflexivity|].
    destruct step; [done|split; [done|by exists what]..].
Qed.

End ParserTheorems.

Section ParserRuns.
Import Parser Scenario.

#[local] Abbreviation parse := (parseScriptFromString (St:=unit) runtime).

(** The login document is accepted. *)
Lemma parseScriptFromString_accepted_witness :
  ∃ script,
    parse login_text () = (Ok (Types.success script), ())
    ∧ name script ≠ ""
    ∧ steps script ≠ []
    ∧ Forall (well_formed_step runtime) (steps script).
Proof.
  assert (∃ script, parse login_text () = (Ok (Types.success script), ()))
    as [script H] by (eexists; vm_compute; reflexivity).
  exists script. split; [exact H|].
  exact (parseScriptFromString_accepted runtime login_text () () script H).
Defined.

(** The login document, field by field. *)
Lemma parseScriptFromString_keeps_document_witness :
  ∃ script,
    parse login_text () = (Ok (Types.success script), ())
    ∧ ∃ fs items,
        JSON_parse runtime login_text = Returns (JObject fs)
        ∧ own fs "name" = Some (JString (name script))
        ∧ script_description script
          = or_undefined runtime (own fs "description")
        ∧ baseUrl script = or_undefined runtime (own fs "baseUrl")
        ∧ own fs "steps" = Some (JArray items)
        ∧ length (steps script) = length items
        ∧ ∀ j item out,
            items !! j = Some item → steps script !! j = Some out →
            ∃ fields,
              item = JObject fields
              ∧ own fields "type" = Some (JString (type out))
              ∧ selector out = or_undefined runtime (own fields "selector")
              ∧ value out = or_undefined runtime (own fields "value")
              ∧ url out = or_undefined runtime (own fields "url")
              ∧ timeout out = or_undefined runtime (own fields "timeout")
              ∧ description out
                = or_undefined runtime (own fields "description").
Proof.
  assert (∃ script, parse login_text () = (Ok (Types.success script), ()))
    as [script H] by (eexists; vm_compute; reflexivity).
  exists script. split; [exact H|].
  exact (parseScriptFromString_keeps_document runtime login_text () ()
           script H).
Defined.

(** The [click] step without a selector is reported; the [null] step
    after it is not reached. *)
Lemma parseScriptFromString_first_rejected_witness :
  ∃ e,
    parse broken_text () = (Ok (failure e), ())
    ∧ validateStep runtime bare_click 1 () = (Ok (failure e), ())
    ∧ ∃ what, e = "Step " +:+ show 2 +:+ ": " +:+ what.
Proof.
  assert (JSON_parse runtime broken_text
          = Returns (JObject [("name", JString "login");
                              ("steps",
                               JArray ([open_login]
                                       ++ bare_click :: [JNull]))]))
    as Hdoc by (vm_compute; reflexivity).
  refine (parseScriptFromString_first_rejected runtime broken_text _ "login"
            [open_login] bare_click [JNull] () Hdoc _ _ _ _ _).
  - reflexivity.
  - discriminate.
  - reflexivity.
  - intros [|j] s Hj; [|discriminate]. injection Hj as <-.
    eexists. vm_compute. reflexivity.
  - intros out. vm_compute. discriminate.
Defined.

End ParserRuns.
